(** * email-ai: the Google Calendar and Gmail tools

    A shallow embedding of [src/mastra/tools/calendarTools.ts] and of the
    Gmail tools that follow it in the same source file: the two connector
    token caches ([getCalendarAccessToken], [getGmailAccessToken]), the
    client factories and the seven tool wrappers.

    Modelling decisions.
    - The connector response is typed [any] in the source: it is modelled
      by an untyped JavaScript [value] with the language's truthiness,
      property access (a [TypeError] on [undefined]/[null]) and optional
      chaining.
    - A JavaScript string is represented by its UTF-8 encoding, a Rocq
      [string] (a list of bytes); strings are assumed well-formed Unicode.
    - Numbers are integers ([Z]).
    - [async] code is sequential here (every call is awaited): a state and
      exception monad over a [World] that holds the two module-level
      caches, process.env, the clock, the logger output and the trace of
      outbound calls.  A rejected promise is a thrown exception.
    - The remote side (connector endpoint, Gmail, Calendar) and the two
      [Date] built-ins the code uses are a [Host] of oracles. *)

From Stdlib Require Import List String Ascii ZArith NArith Lia Bool.
From Stdlib Require Import DecimalString.
Import ListNotations.
Open Scope string_scope.

Set Warnings "-register-all".

(* ------------------------------------------------------------------ *)
(** ** JavaScript values *)

Module Js.

Inductive value : Type :=
| VUndefined
| VNull
| VBool (b : bool)
| VNum (n : Z)
| VStr (s : string)
| VObj (fields : list (string * value))
| VArr (elems : list value).

(** What a [throw] or a rejected promise carries. [Error] is
    [new Error(message)], [TypeError] is raised by the language itself,
    [ProviderError] is a failure reported by a remote service. *)
Inductive exn : Type :=
| Error (message : string)
| TypeError (message : string)
| ProviderError (code : Z) (message : string).

(** [Boolean(v)] *)
Definition truthy (v : value) : bool :=
  match v with
  | VUndefined | VNull => false
  | VBool b => b
  | VNum n => negb (n =? 0)%Z
  | VStr s => negb (s =? "")
  | VObj _ | VArr _ => true
  end.

Definition nullish (v : value) : bool :=
  match v with
  | VUndefined | VNull => true
  | _ => false
  end.

Fixpoint assoc (k : string) (l : list (string * value)) : value :=
  match l with
  | [] => VUndefined
  | (k', v) :: r => if k =? k' then v else assoc k r
  end.

(** [v[k]] for a [v] that is neither [undefined] nor [null]. Only the
    keys of the connector response are ever read, none of which is an own
    property of a primitive or of an array. *)
Definition prop (v : value) (k : string) : value :=
  match v with
  | VObj fields => assoc k fields
  | _ => VUndefined
  end.

Definition describe (v : value) : string :=
  match v with
  | VNull => "null"
  | _ => "undefined"
  end.

(** [v.k] *)
Definition get_prop (v : value) (k : string) : exn + value :=
  if nullish v
  then inl (TypeError ("Cannot read properties of " ++ describe v
                         ++ " (reading '" ++ k ++ "')"))
  else inr (prop v k).

(** [v?.k] *)
Definition opt_prop (v : value) (k : string) : value :=
  if nullish v then VUndefined else prop v k.

(** [v?.[0]]: the first element of an array, the property "0" of an
    object, the first character of a string (its first byte here). *)
Definition opt_index0 (v : value) : value :=
  match v with
  | VArr (x :: _) => x
  | VObj fields => assoc "0" fields
  | VStr (String c _) => VStr (String c "")
  | _ => VUndefined
  end.

(** [a || b] on already evaluated operands is not what the source does:
    the right operand is evaluated only when the left one is falsy. This
    is the lazy form, the right operand may throw. *)
Definition or_else (a : value) (b : exn + value) : exn + value :=
  if truthy a then inr a else b.

End Js.
Import Js.

(* ------------------------------------------------------------------ *)
(** ** Provider data (googleapis schemas, the fields the tools touch)

    Every field of a googleapis schema is optional ([T | null |
    undefined]); the tools only test them for truthiness or with [?.],
    so one [None] stands for both. *)

Record Header := { h_name : option string; h_value : option string }.

Record MessagePartBody := { b_data : option string }.

Inductive MessagePart : Type :=
| mkMessagePart (mimeType : option string)
                (headers : option (list Header))
                (body : option MessagePartBody)
                (parts : option (list MessagePart)).

Definition p_mimeType (p : MessagePart) : option string :=
  let '(mkMessagePart m _ _ _) := p in m.
Definition p_headers (p : MessagePart) : option (list Header) :=
  let '(mkMessagePart _ h _ _) := p in h.
Definition p_body (p : MessagePart) : option MessagePartBody :=
  let '(mkMessagePart _ _ b _) := p in b.
Definition p_parts (p : MessagePart) : option (list MessagePart) :=
  let '(mkMessagePart _ _ _ ps) := p in ps.

Record Message := {
  m_id : option string;
  m_threadId : option string;
  m_labelIds : option (list string);
  m_snippet : option string;
  m_payload : option MessagePart
}.

Record ListMessagesResponse := { r_messages : option (list Message) }.

Record Label := { l_id : option string; l_name : option string }.

Record ListLabelsResponse := { r_labels : option (list Label) }.

Record Draft := { d_id : option string }.

Record EventDateTime := {
  dateTime : option string;
  date : option string;
  timeZone : option string
}.

Record Event := {
  e_id : option string;
  e_summary : option string;
  e_start : option EventDateTime;
  e_end : option EventDateTime;
  e_location : option string;
  e_htmlLink : option string
}.

Record Events := { r_items : option (list Event) }.

(** One remote call of a client handle, with its parameters. *)
Inductive ApiCall : Type :=
| Gmail_messages_list (userId : string) (maxResults : Z) (q : string)
| Gmail_messages_get (userId : string) (id : option string)
                     (format : string) (metadataHeaders : option (list string))
| Gmail_labels_list (userId : string)
| Gmail_labels_create (userId : string)
                      (name labelListVisibility messageListVisibility : string)
| Gmail_messages_modify (userId : string) (id : string)
                        (addLabelIds : list string)
| Gmail_drafts_create (userId : string) (raw : string) (threadId : string)
| Calendar_events_insert (calendarId : string) (summary : string)
                         (description location : option string)
                         (start end_ : EventDateTime)
| Calendar_events_list (calendarId : string) (maxResults : Z)
                       (timeMin : string) (singleEvents : bool)
                       (orderBy : string).

(** [response.data] of each call. *)
Definition resp_of (c : ApiCall) : Type :=
  match c with
  | Gmail_messages_list _ _ _ => ListMessagesResponse
  | Gmail_messages_get _ _ _ _ => Message
  | Gmail_labels_list _ => ListLabelsResponse
  | Gmail_labels_create _ _ _ _ => Label
  | Gmail_messages_modify _ _ _ => Message
  | Gmail_drafts_create _ _ _ => Draft
  | Calendar_events_insert _ _ _ _ _ _ => Event
  | Calendar_events_list _ _ _ _ _ => Events
  end.

(* ------------------------------------------------------------------ *)
(** ** The world the tools run in *)

Inductive Family := Calendar | Mail.

Record Env := {
  REPLIT_CONNECTORS_HOSTNAME : option string;
  REPL_IDENTITY : option string;
  WEB_REPL_RENEWAL : option string
}.

Record Request := {
  url : string;
  req_headers : list (string * string)
}.

(** A call made through a client handle: the bearer token the handle was
    built with, the call, and the failure it raised, if any. *)
Record Invocation := {
  inv_token : value;
  inv_call : ApiCall;
  inv_failure : option exn
}.

Inductive Level := Info | Warn | Err.

Inductive LogValue :=
| LString (s : option string)
| LNumber (n : option Z)
| LError (e : exn).

Record LogEntry := {
  level : Level;
  message : string;
  data : list (string * LogValue)
}.

Record World := {
  calendarConnectionSettings : value;
  gmailConnectionSettings : value;
  env : Env;
  time : Z;                      (* what Date.now() reads *)
  fetchLog : list Request;       (* outbound fetches, oldest first *)
  apiLog : list Invocation;      (* client calls, oldest first *)
  logs : list LogEntry           (* logger output, oldest first *)
}.

(** The remote side and the [Date] built-ins. Answers may depend on the
    calls made so far. [dateGetTime v] is [new Date(v).getTime()], [None]
    for [NaN]. *)
Record Host := {
  fetchJson : list Request -> Request -> exn + value;
  respond : list Invocation -> value -> forall c : ApiCall, exn + resp_of c;
  dateGetTime : value -> option Z;
  toISOString : Z -> string
}.

(* ------------------------------------------------------------------ *)
(** ** State and exception monad *)

Definition M (A : Type) : Type := World -> (exn + A) * World.

Definition ret {A} (a : A) : M A := fun w => (inr a, w).

Definition throw {A} (e : exn) : M A := fun w => (inl e, w).

Definition bind {A B} (m : M A) (k : A -> M B) : M B :=
  fun w =>
    match m w with
    | (inl e, w') => (inl e, w')
    | (inr a, w') => k a w'
    end.

Definition try_catch {A} (m : M A) (handler : exn -> M A) : M A :=
  fun w =>
    match m w with
    | (inl e, w') => handler e w'
    | (inr a, w') => (inr a, w')
    end.

Definition gets {A} (f : World -> A) : M A := fun w => (inr (f w), w).

Definition modify (f : World -> World) : M unit := fun w => (inr tt, f w).

Definition lift {A} (r : exn + A) : M A :=
  match r with
  | inl e => throw e
  | inr a => ret a
  end.

Declare Scope monad_scope.
Delimit Scope monad_scope with monad.
Notation "x <- m ;; k" := (bind m (fun x => k))
  (at level 61, m at next level, right associativity) : monad_scope.
Notation "m ;;; k" := (bind m (fun _ => k))
  (at level 61, right associativity) : monad_scope.
Open Scope monad_scope.

Definition result {A} (r : (exn + A) * World) : exn + A := fst r.
Definition final {A} (r : (exn + A) * World) : World := snd r.

(* ------------------------------------------------------------------ *)
(** ** The token caches *)

Definition connectionSettings (fam : Family) (w : World) : value :=
  match fam with
  | Calendar => calendarConnectionSettings w
  | Mail => gmailConnectionSettings w
  end.

Definition set_connectionSettings (fam : Family) (v : value) (w : World)
  : World :=
  match fam with
  | Calendar =>
      {| calendarConnectionSettings := v;
         gmailConnectionSettings := gmailConnectionSettings w;
         env := env w; time := time w; fetchLog := fetchLog w;
         apiLog := apiLog w; logs := logs w |}
  | Mail =>
      {| calendarConnectionSettings := calendarConnectionSettings w;
         gmailConnectionSettings := v;
         env := env w; time := time w; fetchLog := fetchLog w;
         apiLog := apiLog w; logs := logs w |}
  end.

Definition connector_name (fam : Family) : string :=
  match fam with
  | Calendar => "google-calendar"
  | Mail => "google-mail"
  end.

(** [new Error('X_REPLIT_TOKEN not found for repl/depl')] *)
Definition ConfigurationError : exn :=
  Error "X_REPLIT_TOKEN not found for repl/depl".

(** [new Error('Google Calendar not connected')],
    [new Error('Gmail not connected')] *)
Definition NotConnectedError (fam : Family) : exn :=
  match fam with
  | Calendar => Error "Google Calendar not connected"
  | Mail => Error "Gmail not connected"
  end.

(** [process.env.X ? ... : ...]: an environment variable passes the test
    when it is defined and not the empty string. *)
Definition env_set (v : option string) : bool :=
  match v with
  | Some s => negb (s =? "")
  | None => false
  end.

Definition xReplitToken (e : Env) : option string :=
  match REPL_IDENTITY e with
  | Some s =>
      if negb (s =? "") then Some ("repl " ++ s)
      else match WEB_REPL_RENEWAL e with
           | Some r => if negb (r =? "") then Some ("depl " ++ r) else None
           | None => None
           end
  | None =>
      match WEB_REPL_RENEWAL e with
      | Some r => if negb (r =? "") then Some ("depl " ++ r) else None
      | None => None
      end
  end.

(** ['https://' + hostname + ...]: [undefined] prints as "undefined". *)
Definition connection_url (fam : Family) (hostname : option string) : string :=
  "https://" ++ match hostname with Some h => h | None => "undefined" end
    ++ "/api/v2/connection?include_secrets=true&connector_names="
    ++ connector_name fam.

Definition connection_request (fam : Family) (e : Env) (tok : string)
  : Request :=
  {| url := connection_url fam (REPLIT_CONNECTORS_HOSTNAME e);
     req_headers := [("Accept", "application/json");
                     ("X_REPLIT_TOKEN", tok)] |}.

Definition record_fetch (r : Request) (w : World) : World :=
  {| calendarConnectionSettings := calendarConnectionSettings w;
     gmailConnectionSettings := gmailConnectionSettings w;
     env := env w; time := time w; fetchLog := fetchLog w ++ [r];
     apiLog := apiLog w; logs := logs w |}.

Section TokenCache.

Variable host : Host.

(** The test of the first [if]:
    [cs && cs.settings.expires_at
        && new Date(cs.settings.expires_at).getTime() > Date.now()] *)
Definition cacheFresh (cs : value) (now : Z) : exn + bool :=
  if truthy cs then
    match get_prop cs "settings" with
    | inl e => inl e
    | inr s =>
        match get_prop s "expires_at" with
        | inl e => inl e
        | inr ea =>
            if truthy ea then
              inr (match dateGetTime host ea with
                   | Some t => (now <? t)%Z
                   | None => false
                   end)
            else inr false
        end
    end
  else inr false.

(** [fetch(url, {headers}).then(res => res.json())
                          .then(data => data.items?.[0])] *)
Definition fetchConnection (fam : Family) (e : Env) (tok : string) : M value :=
  fun w =>
    let req := connection_request fam e tok in
    let w' := record_fetch req w in
    match fetchJson host (fetchLog w) req with
    | inl err => (inl err, w')
    | inr data =>
        match get_prop data "items" with
        | inl err => (inl err, w')
        | inr items =>
            (inr (opt_index0 items), w')
        end
    end.

(** [cs?.settings?.access_token
     || cs.settings?.oauth?.credentials?.access_token] *)
Definition extractAccessToken (cs : value) : exn + value :=
  or_else (opt_prop (opt_prop cs "settings") "access_token")
    match get_prop cs "settings" with
    | inl e => inl e
    | inr s =>
        inr (opt_prop (opt_prop (opt_prop s "oauth") "credentials")
               "access_token")
    end.

(** [getCalendarAccessToken] and [getGmailAccessToken] are the same
    text up to the cache variable, the connector name and the message of
    the last error: one definition, by family. *)
Definition getAccessToken (fam : Family) : M value :=
  cs <- gets (connectionSettings fam) ;;
  now <- gets time ;;
  fresh <- lift (cacheFresh cs now) ;;
  if fresh : bool then
    s <- lift (get_prop cs "settings") ;;
    lift (get_prop s "access_token")
  else
    e <- gets env ;;
    match xReplitToken e with
    | None => throw ConfigurationError
    | Some tok =>
        item <- fetchConnection fam e tok ;;
        modify (set_connectionSettings fam item) ;;;
        accessToken <- lift (extractAccessToken item) ;;
        if negb (truthy item) || negb (truthy accessToken)
        then throw (NotConnectedError fam)
        else ret accessToken
    end.

Definition getCalendarAccessToken : M value := getAccessToken Calendar.
Definition getGmailAccessToken : M value := getAccessToken Mail.

End TokenCache.

(* ------------------------------------------------------------------ *)
(** ** Node's [Buffer]: base64 and UTF-8

    The tools call [Buffer.from(s, "base64").toString("utf-8")] and
    [Buffer.from(s).toString("base64")]. A buffer is a list of bytes. *)

Module Buffer.

Local Open Scope list_scope.

Definition bytes := list ascii.

Definition alphabet : list ascii :=
  list_ascii_of_string
    "ABCDEFGHIJKLMNOPQRSTUVWXYZabcdefghijklmnopqrstuvwxyz0123456789+/".

Definition pad : ascii := "="%char.

Definition b64char (n : N) : ascii := nth (N.to_nat n) alphabet pad.

(** Three bytes give four 6-bit groups; a last group of one or two bytes
    gives two or three. *)
Fixpoint sextets (bs : list N) : list N :=
  match bs with
  | a :: b :: c :: r =>
      (a / 4) :: ((a mod 4) * 16 + b / 16) :: ((b mod 16) * 4 + c / 64)
        :: (c mod 64) :: sextets r
  | [a; b] => [a / 4; (a mod 4) * 16 + b / 16; (b mod 16) * 4]
  | [a] => [a / 4; (a mod 4) * 16]
  | [] => []
  end%N.

Definition padding (len : nat) : list ascii :=
  match Nat.modulo len 3 with
  | 1%nat => [pad; pad]
  | 2%nat => [pad]
  | _ => []
  end.

(** [buf.toString("base64")] *)
Definition toStringBase64 (buf : bytes) : string :=
  string_of_list_ascii
    (map b64char (sextets (map N_of_ascii buf)) ++ padding (List.length buf)).

(** The decoder's table: both the standard and the URL-safe alphabet. *)
Definition unbase64 (c : ascii) : option N :=
  let n := N_of_ascii c in
  (if (65 <=? n) && (n <=? 90) then Some (n - 65)
   else if (97 <=? n) && (n <=? 122) then Some (n - 71)
   else if (48 <=? n) && (n <=? 57) then Some (n + 4)
   else if (n =? 43) || (n =? 45) then Some 62
   else if (n =? 47) || (n =? 95) then Some 63
   else None)%N.

(** Decoding stops at the first ['=']. *)
Fixpoint until_pad (l : list ascii) : list ascii :=
  match l with
  | [] => []
  | c :: r => if (c =? pad)%char then [] else c :: until_pad r
  end.

(** Characters outside the table are skipped. *)
Fixpoint legal (l : list ascii) : list N :=
  match l with
  | [] => []
  | c :: r =>
      match unbase64 c with
      | Some n => n :: legal r
      | None => legal r
      end
  end.

Fixpoint unsextets (l : list N) : list N :=
  match l with
  | a :: b :: c :: d :: r =>
      (a * 4 + b / 16) :: ((b mod 16) * 16 + c / 4) :: ((c mod 4) * 64 + d)
        :: unsextets r
  | [a; b; c] => [a * 4 + b / 16; (b mod 16) * 16 + c / 4]
  | [a; b] => [a * 4 + b / 16]
  | _ => []
  end%N.

(** [Buffer.from(s, "base64")]. A string being its UTF-8 bytes here, the
    text is read byte by byte. Characters up to U+00FF are read as Node
    reads them (those above U+007F are outside the table for both). Of a
    character above U+00FF Node reads the low byte of the UTF-16 code
    unit, which may be in the table; here its bytes are skipped. Base64
    text, as Gmail sends it and as [toString("base64")] writes it, has
    no such character. *)
Definition fromBase64 (s : string) : bytes :=
  map ascii_of_N (unsextets (legal (until_pad (list_ascii_of_string s)))).

(** [Buffer.from(s)]: the UTF-8 encoding of [s], which is [s] itself in
    this representation of strings. *)
Definition from (s : string) : bytes := list_ascii_of_string s.

(** U+FFFD in UTF-8. *)
Definition replacement : bytes :=
  [ascii_of_N 239; ascii_of_N 191; ascii_of_N 189].

Definition between (lo hi : N) (b : ascii) : bool :=
  (lo <=? N_of_ascii b)%N && (N_of_ascii b <=? hi)%N.

(** The range of the byte after a lead byte (Unicode, table 3-7). *)
Definition second_lo (lead : N) : N :=
  if (lead =? 224)%N then 160%N else if (lead =? 240)%N then 144%N else 128%N.
Definition second_hi (lead : N) : N :=
  if (lead =? 237)%N then 159%N else if (lead =? 244)%N then 143%N else 191%N.

(** The decoder of [buf.toString("utf-8")]: well-formed sequences are
    kept, every maximal ill-formed prefix becomes U+FFFD and decoding
    resumes at the offending byte. *)
Fixpoint sanitize (l : bytes) : bytes :=
  match l with
  | [] => []
  | b0 :: r0 =>
      let n0 := N_of_ascii b0 in
      if (n0 <=? 127)%N then b0 :: sanitize r0
      else if between 194 223 b0 then
        match r0 with
        | [] => replacement
        | b1 :: r1 =>
            if between 128 191 b1 then b0 :: b1 :: sanitize r1
            else replacement ++ sanitize r0
        end
      else if between 224 239 b0 then
        match r0 with
        | [] => replacement
        | b1 :: r1 =>
            if between (second_lo n0) (second_hi n0) b1 then
              match r1 with
              | [] => replacement
              | b2 :: r2 =>
                  if between 128 191 b2 then b0 :: b1 :: b2 :: sanitize r2
                  else replacement ++ sanitize r1
              end
            else replacement ++ sanitize r0
        end
      else if between 240 244 b0 then
        match r0 with
        | [] => replacement
        | b1 :: r1 =>
            if between (second_lo n0) (second_hi n0) b1 then
              match r1 with
              | [] => replacement
              | b2 :: r2 =>
                  if between 128 191 b2 then
                    match r2 with
                    | [] => replacement
                    | b3 :: r3 =>
                        if between 128 191 b3
                        then b0 :: b1 :: b2 :: b3 :: sanitize r3
                        else replacement ++ sanitize r2
                    end
                  else replacement ++ sanitize r1
              end
            else replacement ++ sanitize r0
        end
      else replacement ++ sanitize r0
  end.

(** [buf.toString("utf-8")] *)
Definition toStringUtf8 (buf : bytes) : string :=
  string_of_list_ascii (sanitize buf).

(** Well-formed UTF-8 (Unicode, table 3-7), stated on its own. *)
Inductive well_formed : bytes -> Prop :=
| wf_nil : well_formed []
| wf_ascii b0 r :
    (N_of_ascii b0 <= 127)%N -> well_formed r -> well_formed (b0 :: r)
| wf_two b0 b1 r :
    between 194 223 b0 = true -> between 128 191 b1 = true ->
    well_formed r -> well_formed (b0 :: b1 :: r)
| wf_three b0 b1 b2 r :
    between 224 239 b0 = true ->
    between (second_lo (N_of_ascii b0)) (second_hi (N_of_ascii b0)) b1 = true ->
    between 128 191 b2 = true ->
    well_formed r -> well_formed (b0 :: b1 :: b2 :: r)
| wf_four b0 b1 b2 b3 r :
    between 240 244 b0 = true ->
    between (second_lo (N_of_ascii b0)) (second_hi (N_of_ascii b0)) b1 = true ->
    between 128 191 b2 = true -> between 128 191 b3 = true ->
    well_formed r -> well_formed (b0 :: b1 :: b2 :: b3 :: r).

(** [s.replace(/a/g, "b")] for a one-character pattern. *)
Definition replace_char (a b : ascii) (l : list ascii) : list ascii :=
  map (fun c => if (c =? a)%char then b else c) l.

(** [/=+$/]: the run of ['='] at the end of the string. *)
Fixpoint strip_pad (l : list ascii) : list ascii :=
  match l with
  | [] => []
  | c :: r =>
      match strip_pad r with
      | [] => if (c =? pad)%char then [] else [c]
      | r' => c :: r'
      end
  end.

(** Sizes, and what the decoder reads back, for the statements below. *)
Definition byte_sized (bs : list N) : Prop := Forall (fun b => (b < 256)%N) bs.
Definition sextet_sized (sx : list N) : Prop := Forall (fun s => (s < 64)%N) sx.

(** The character written for a sextet, after the two [replace] calls of
    the draft tool. *)
Definition url_char (c : ascii) : ascii :=
  (fun c => if (c =? "/")%char then "_"%char else c)
    ((fun c => if (c =? "+")%char then "-"%char else c) c).

(** A way of writing sextets that the decoder reads back. *)
Definition readable (f : N -> ascii) : Prop :=
  forall n, (n < 64)%N -> unbase64 (f n) = Some n /\ f n <> pad.

Definition reads_back (f : N -> ascii) (n : N) : bool :=
  match unbase64 (f n) with
  | Some m => (m =? n)%N && negb (f n =? pad)%char
  | None => false
  end.

Definition all_pad (l : list ascii) : Prop := Forall (fun c => c = pad) l.

End Buffer.

(* ------------------------------------------------------------------ *)
(** ** Small JavaScript idioms on typed data *)

(** [s || d] for an optional string. *)
Definition str_or (o : option string) (d : string) : string :=
  match o with
  | Some s => if s =? "" then d else s
  | None => d
  end.

(** [n || d] for an optional number. *)
Definition num_or (o : option Z) (d : Z) : Z :=
  match o with
  | Some n => if (n =? 0)%Z then d else n
  | None => d
  end.

(** An optional string that is truthy. *)
Definition truthy_str (o : option string) : option string :=
  match o with
  | Some s => if s =? "" then None else Some s
  | None => None
  end.

(** [a === b] where [a] may be missing. *)
Definition opt_eqb (a : option string) (b : string) : bool :=
  match a with
  | Some s => s =? b
  | None => false
  end.

(** [`${x}`] for an optional string. *)
Definition show_opt (o : option string) : string :=
  match o with
  | Some s => s
  | None => "undefined"
  end.

(** [`${n}`] for a length. *)
Definition show_nat (n : nat) : string :=
  NilEmpty.string_of_uint (Nat.to_uint n).

(** [s.split("T")[0]] *)
Fixpoint before_T (s : string) : string :=
  match s with
  | EmptyString => EmptyString
  | String c r => if (c =? "T")%char then EmptyString else String c (before_T r)
  end.

Definition CRLF : string :=
  String (ascii_of_nat 13) (String (ascii_of_nat 10) EmptyString).

(** [headers.find((h) => h.name === name)?.value] *)
Definition header_value (headers : list Header) (name : string)
  : option string :=
  match find (fun h => opt_eqb (h_name h) name) headers with
  | Some h => h_value h
  | None => None
  end.

(* ------------------------------------------------------------------ *)
(** ** Tool inputs and outputs (the zod schemas) *)

Record CreateCalendarEventInput := {
  ce_summary : string;
  ce_description : option string;
  ce_location : option string;
  ce_startDateTime : string;
  ce_endDateTime : string;
  ce_timeZone : option string;
  ce_allDay : option bool
}.

Record CreateCalendarEventOutput := {
  ceo_eventId : option string;
  ceo_htmlLink : option string;
  ceo_summary : string;
  ceo_success : bool
}.

Record ListUpcomingEventsInput := {
  lu_maxResults : option Z;
  lu_timeMin : option string
}.

Record EventSummary := {
  ev_id : option string;
  ev_summary : string;
  ev_start : string;
  ev_end : string;
  ev_location : option string
}.

Record ListUpcomingEventsOutput := {
  luo_events : list EventSummary;
  luo_totalCount : nat
}.

Record ListEmailsInput := {
  le_maxResults : option Z;
  le_query : option string
}.

Record EmailSummary := {
  es_id : option string;
  es_threadId : option string;
  es_subject : string;
  es_from : string;
  es_date : string;
  es_snippet : string;
  es_labels : list string
}.

Record ListEmailsOutput := {
  leo_emails : list EmailSummary;
  leo_totalCount : nat
}.

Record EmailContent := {
  ec_id : string;
  ec_threadId : option string;
  ec_subject : string;
  ec_from : string;
  ec_to : string;
  ec_date : string;
  ec_body : string;
  ec_labels : list string
}.

Record LabelOutput := {
  lo_labelId : option string;
  lo_labelName : string;
  lo_created : bool
}.

Record AddLabelOutput := {
  al_success : bool;
  al_emailId : string;
  al_labelId : string
}.

Record CreateDraftReplyInput := {
  cd_threadId : string;
  cd_to : string;
  cd_subject : string;
  cd_body : string;
  cd_inReplyTo : option string
}.

Record DraftOutput := {
  do_draftId : option string;
  do_threadId : string;
  do_success : bool
}.

(** [.optional().default(50)] of the two list schemas: what [execute]
    receives as [context.maxResults] when the caller gave none. *)
Definition schema_default_maxResults (given : option Z) : option Z :=
  match given with
  | Some n => Some n
  | None => Some 50%Z
  end.

(* ------------------------------------------------------------------ *)
(** ** Client handles, logging, remote calls *)

Record CalendarClient := {
  calendar_version : string;
  calendar_access_token : value
}.

Record GmailClient := {
  gmail_version : string;
  gmail_access_token : value
}.

Definition append_log (entry : LogEntry) (w : World) : World :=
  {| calendarConnectionSettings := calendarConnectionSettings w;
     gmailConnectionSettings := gmailConnectionSettings w;
     env := env w; time := time w; fetchLog := fetchLog w;
     apiLog := apiLog w; logs := logs w ++ [entry] |}.

Definition record_call (i : Invocation) (w : World) : World :=
  {| calendarConnectionSettings := calendarConnectionSettings w;
     gmailConnectionSettings := gmailConnectionSettings w;
     env := env w; time := time w; fetchLog := fetchLog w;
     apiLog := apiLog w ++ [i]; logs := logs w |}.

(** [logger?.info(...)], [logger?.warn(...)], [logger?.error(...)]:
    [logger] is [mastra?.getLogger()], which may be undefined. *)
Definition log (logger : bool) (lv : Level) (msg : string)
  (d : list (string * LogValue)) : M unit :=
  if logger
  then modify (append_log {| level := lv; message := msg; data := d |})
  else ret tt.

Definition failure_of {A} (r : exn + A) : option exn :=
  match r with
  | inl e => Some e
  | inr _ => None
  end.

Section Tools.

Variable host : Host.

(** One awaited call through a client handle built with [tok]. *)
Definition call (tok : value) (c : ApiCall) : M (resp_of c) :=
  fun w =>
    let r := respond host (apiLog w) tok c in
    (r, record_call {| inv_token := tok; inv_call := c;
                       inv_failure := failure_of r |} w).

Definition getCalendarClient : M CalendarClient :=
  accessToken <- getCalendarAccessToken host ;;
  ret {| calendar_version := "v3"; calendar_access_token := accessToken |}.

Definition getGmailClient : M GmailClient :=
  accessToken <- getGmailAccessToken host ;;
  ret {| gmail_version := "v1"; gmail_access_token := accessToken |}.

(** [try { body } catch (error) { logger?.error(msg, { error }); throw error; }] *)
Definition rethrow_logged {A} (logger : bool) (msg : string) (body : M A)
  : M A :=
  try_catch body
    (fun error => log logger Err msg [("error", LError error)] ;;; throw error).

(* ---------------- createCalendarEventTool ---------------- *)

Definition createCalendarEventTool (logger : bool)
  (context : CreateCalendarEventInput) : M CreateCalendarEventOutput :=
  log logger Info "📅 [createCalendarEventTool] Creating calendar event"
    [("summary", LString (Some (ce_summary context)));
     ("startDateTime", LString (Some (ce_startDateTime context)));
     ("location", LString (ce_location context))] ;;;
  rethrow_logged logger "❌ [createCalendarEventTool] Failed to create event"
    (calendar <- getCalendarClient ;;
     let '(start, end_) :=
       match ce_allDay context with
       | Some true =>
           ({| dateTime := None;
               date := Some (before_T (ce_startDateTime context));
               timeZone := None |},
            {| dateTime := None;
               date := Some (before_T (ce_endDateTime context));
               timeZone := None |})
       | _ =>
           ({| dateTime := Some (ce_startDateTime context);
               date := None;
               timeZone := Some (str_or (ce_timeZone context)
                                   "America/Phoenix") |},
            {| dateTime := Some (ce_endDateTime context);
               date := None;
               timeZone := Some (str_or (ce_timeZone context)
                                   "America/Phoenix") |})
       end in
     event <- call (calendar_access_token calendar)
                (Calendar_events_insert "primary" (ce_summary context)
                   (ce_description context) (ce_location context)
                   start end_) ;;
     log logger Info "✅ [createCalendarEventTool] Calendar event created"
       [("eventId", LString (e_id event));
        ("htmlLink", LString (e_htmlLink event))] ;;;
     ret {| ceo_eventId := e_id event;
            ceo_htmlLink := e_htmlLink event;
            ceo_summary := ce_summary context;
            ceo_success := true |}).

(* ---------------- listUpcomingEventsTool ---------------- *)

Definition start_or_date (t : option EventDateTime) : string :=
  match t with
  | Some t => str_or (dateTime t) (str_or (date t) "")
  | None => ""
  end.

Definition summarizeEvent (event : Event) : EventSummary :=
  {| ev_id := e_id event;
     ev_summary := str_or (e_summary event) "(No Title)";
     ev_start := start_or_date (e_start event);
     ev_end := start_or_date (e_end event);
     ev_location := truthy_str (e_location event) |}.

Definition listUpcomingEventsTool (logger : bool)
  (context : ListUpcomingEventsInput) : M ListUpcomingEventsOutput :=
  log logger Info "📅 [listUpcomingEventsTool] Listing upcoming events"
    [("maxResults", LNumber (lu_maxResults context))] ;;;
  rethrow_logged logger "❌ [listUpcomingEventsTool] Failed to list events"
    (calendar <- getCalendarClient ;;
     now <- gets time ;;
     response <- call (calendar_access_token calendar)
                   (Calendar_events_list "primary"
                      (num_or (lu_maxResults context) 50)
                      (str_or (lu_timeMin context) (toISOString host now))
                      true "startTime") ;;
     let events :=
       map summarizeEvent
         (match r_items response with Some l => l | None => [] end) in
     log logger Info
       ("✅ [listUpcomingEventsTool] Found " ++ show_nat (List.length events)
          ++ " upcoming events") [] ;;;
     ret {| luo_events := events; luo_totalCount := List.length events |}).

(* ---------------- listEmailsTool ---------------- *)

Definition payload_headers (m : Message) : list Header :=
  match m_payload m with
  | Some p => match p_headers p with Some l => l | None => [] end
  | None => []
  end.

Definition summarizeEmail (message emailData : Message) : EmailSummary :=
  let headers := payload_headers emailData in
  {| es_id := m_id message;
     es_threadId := m_threadId message;
     es_subject := str_or (header_value headers "Subject") "(No Subject)";
     es_from := str_or (header_value headers "From") "Unknown";
     es_date := str_or (header_value headers "Date") "";
     es_snippet := str_or (m_snippet emailData) "";
     es_labels := match m_labelIds emailData with
                  | Some l => l
                  | None => []
                  end |}.

(** The [for (const message of messages)] loop, [emails] being the array
    filled so far. *)
Fixpoint fetchSummaries (logger : bool) (gmail : GmailClient)
  (messages : list Message) (emails : list EmailSummary)
  : M (list EmailSummary) :=
  match messages with
  | [] => ret emails
  | message :: rest =>
      emails' <-
        try_catch
          (emailData <- call (gmail_access_token gmail)
                          (Gmail_messages_get "me" (m_id message) "metadata"
                             (Some ["Subject"; "From"; "Date"])) ;;
           ret (emails ++ [summarizeEmail message emailData])%list)
          (fun err =>
             log logger Warn
               ("⚠️ [listEmailsTool] Failed to fetch email "
                  ++ show_opt (m_id message))
               [("error", LError err)] ;;;
             ret emails) ;;
      fetchSummaries logger gmail rest emails'
  end.

Definition listEmailsTool (logger : bool) (context : ListEmailsInput)
  : M ListEmailsOutput :=
  log logger Info "📧 [listEmailsTool] Starting email retrieval"
    [("maxResults", LNumber (le_maxResults context));
     ("query", LString (le_query context))] ;;;
  rethrow_logged logger "❌ [listEmailsTool] Failed to list emails"
    (gmail <- getGmailClient ;;
     listResponse <- call (gmail_access_token gmail)
                       (Gmail_messages_list "me"
                          (num_or (le_maxResults context) 50)
                          (str_or (le_query context) "")) ;;
     let messages :=
       match r_messages listResponse with Some l => l | None => [] end in
     log logger Info
       ("📧 [listEmailsTool] Found " ++ show_nat (List.length messages)
          ++ " emails") [] ;;;
     emails <- fetchSummaries logger gmail messages [] ;;
     log logger Info
       ("✅ [listEmailsTool] Successfully retrieved "
          ++ show_nat (List.length emails) ++ " emails") [] ;;;
     ret {| leo_emails := emails; leo_totalCount := List.length emails |}).

(* ---------------- getEmailContentTool ---------------- *)

(** [Buffer.from(data, "base64").toString("utf-8")] *)
Definition decode (data : string) : string :=
  Buffer.toStringUtf8 (Buffer.fromBase64 data).

(** [x.body?.data] when it is truthy. *)
Definition body_data (p : MessagePart) : option string :=
  match p_body p with
  | Some b => truthy_str (b_data b)
  | None => None
  end.

(** [part.mimeType === mime && part.body?.data], the data when the
    test passes. *)
Definition part_text (mime : string) (part : MessagePart) : option string :=
  if opt_eqb (p_mimeType part) mime then body_data part else None.

(** The [for (const part of payload.parts)] loop, [body] being the value
    of the variable so far. *)
Fixpoint scanParts (parts : list MessagePart) (body : string) : string :=
  match parts with
  | [] => body
  | part :: rest =>
      match part_text "text/plain" part with
      | Some data => decode data                      (* break *)
      | None =>
          match part_text "text/html" part with
          | Some data => scanParts rest (decode data)
          | None => scanParts rest body
          end
      end
  end.

Definition extractBody (payload : option MessagePart) : string :=
  match payload with
  | None => ""
  | Some p =>
      match body_data p with
      | Some data => decode data
      | None =>
          match p_parts p with
          | Some parts => scanParts parts ""
          | None => ""
          end
      end
  end.

Definition getEmailContentTool (logger : bool) (emailId : string)
  : M EmailContent :=
  log logger Info "📧 [getEmailContentTool] Fetching email content"
    [("emailId", LString (Some emailId))] ;;;
  rethrow_logged logger "❌ [getEmailContentTool] Failed to get email content"
    (gmail <- getGmailClient ;;
     emailData <- call (gmail_access_token gmail)
                    (Gmail_messages_get "me" (Some emailId) "full" None) ;;
     let headers := payload_headers emailData in
     let body := extractBody (m_payload emailData) in
     log logger Info
       "✅ [getEmailContentTool] Successfully retrieved email content" [] ;;;
     ret {| ec_id := emailId;
            ec_threadId := m_threadId emailData;
            ec_subject := str_or (header_value headers "Subject")
                            "(No Subject)";
            ec_from := str_or (header_value headers "From") "Unknown";
            ec_to := str_or (header_value headers "To") "";
            ec_date := str_or (header_value headers "Date") "";
            ec_body := body;
            ec_labels := match m_labelIds emailData with
                         | Some l => l
                         | None => []
                         end |}).

(* ---------------- createOrGetLabelTool ---------------- *)

(** [labels?.find((l) => l.name === labelName)] *)
Definition findLabel (labels : option (list Label)) (labelName : string)
  : option Label :=
  match labels with
  | Some l => find (fun x => opt_eqb (l_name x) labelName) l
  | None => None
  end.

Definition createOrGetLabelTool (logger : bool) (labelName : string)
  : M LabelOutput :=
  log logger Info "🏷️ [createOrGetLabelTool] Creating/getting label"
    [("labelName", LString (Some labelName))] ;;;
  rethrow_logged logger "❌ [createOrGetLabelTool] Failed to create/get label"
    (gmail <- getGmailClient ;;
     labelsResponse <- call (gmail_access_token gmail)
                         (Gmail_labels_list "me") ;;
     match findLabel (r_labels labelsResponse) labelName with
     | Some existingLabel =>
         log logger Info "✅ [createOrGetLabelTool] Label already exists"
           [("labelId", LString (l_id existingLabel))] ;;;
         ret {| lo_labelId := l_id existingLabel;
                lo_labelName := labelName;
                lo_created := false |}
     | None =>
         createResponse <- call (gmail_access_token gmail)
                             (Gmail_labels_create "me" labelName
                                "labelShow" "show") ;;
         log logger Info "✅ [createOrGetLabelTool] Label created"
           [("labelId", LString (l_id createResponse))] ;;;
         ret {| lo_labelId := l_id createResponse;
                lo_labelName := labelName;
                lo_created := true |}
     end).

(* ---------------- addLabelToEmailTool ---------------- *)

Definition addLabelToEmailTool (logger : bool) (emailId labelId : string)
  : M AddLabelOutput :=
  log logger Info "🏷️ [addLabelToEmailTool] Adding label to email"
    [("emailId", LString (Some emailId));
     ("labelId", LString (Some labelId))] ;;;
  rethrow_logged logger "❌ [addLabelToEmailTool] Failed to add label"
    (gmail <- getGmailClient ;;
     _ <- call (gmail_access_token gmail)
            (Gmail_messages_modify "me" emailId [labelId]) ;;
     log logger Info "✅ [addLabelToEmailTool] Label added successfully" [] ;;;
     ret {| al_success := true; al_emailId := emailId;
            al_labelId := labelId |}).

(* ---------------- createDraftReplyTool ---------------- *)

(** The array literal the raw message is built from. *)
Definition draftLines (context : CreateDraftReplyInput) : list string :=
  [ "To: " ++ cd_to context;
    "Subject: " ++ cd_subject context;
    "Content-Type: text/plain; charset=utf-8";
    match truthy_str (cd_inReplyTo context) with
    | Some r => "In-Reply-To: " ++ r
    | None => ""
    end;
    "";
    cd_body context ].

(** [.filter(Boolean).join("\r\n")] *)
Definition rawMessage (context : CreateDraftReplyInput) : string :=
  String.concat CRLF
    (filter (fun line => negb (line =? "")) (draftLines context)).

(** [Buffer.from(rawMessage).toString("base64")
       .replace(/\+/g, "-").replace(/\//g, "_").replace(/=+$/, "")] *)
Definition encodeMessage (raw : string) : string :=
  string_of_list_ascii
    (Buffer.strip_pad
       (Buffer.replace_char "/" "_"
          (Buffer.replace_char "+" "-"
             (list_ascii_of_string
                (Buffer.toStringBase64 (Buffer.from raw)))))).

Definition createDraftReplyTool (logger : bool)
  (context : CreateDraftReplyInput) : M DraftOutput :=
  log logger Info "📝 [createDraftReplyTool] Creating draft reply"
    [("threadId", LString (Some (cd_threadId context)));
     ("to", LString (Some (cd_to context)));
     ("subject", LString (Some (cd_subject context)))] ;;;
  rethrow_logged logger "❌ [createDraftReplyTool] Failed to create draft"
    (gmail <- getGmailClient ;;
     let encodedMessage := encodeMessage (rawMessage context) in
     draft <- call (gmail_access_token gmail)
                (Gmail_drafts_create "me" encodedMessage
                   (cd_threadId context)) ;;
     log logger Info "✅ [createDraftReplyTool] Draft created successfully"
       [("draftId", LString (d_id draft))] ;;;
     ret {| do_draftId := d_id draft;
            do_threadId := cd_threadId context;
            do_success := true |}).

End Tools.

(* ------------------------------------------------------------------ *)
(** ** Observations on a run, and concrete scenarios *)

(** The client calls made between two worlds, and the failures among
    them. *)
Definition new_calls (w w' : World) : list Invocation :=
  skipn (List.length (apiLog w)) (apiLog w').

Definition new_logs (w w' : World) : list LogEntry :=
  skipn (List.length (logs w)) (logs w').

Definition new_fetches (w w' : World) : list Request :=
  skipn (List.length (fetchLog w)) (fetchLog w').

Fixpoint failures (l : list Invocation) : list exn :=
  match l with
  | [] => []
  | i :: r =>
      match inv_failure i with
      | Some e => e :: failures r
      | None => failures r
      end
  end.

(** A client call that went through. *)
Definition succeeded (tok : value) (c : ApiCall) : Invocation :=
  {| inv_token := tok; inv_call := c; inv_failure := None |}.

(** The header block of a draft: the lines before the body. *)
Definition headerBlock (context : CreateDraftReplyInput) : list string :=
  ["To: " ++ cd_to context;
   "Subject: " ++ cd_subject context;
   "Content-Type: text/plain; charset=utf-8"]
  ++ match truthy_str (cd_inReplyTo context) with
     | Some r => ["In-Reply-To: " ++ r]
     | None => []
     end.

(** What the [catch] block of every tool logs before it rethrows. *)
Definition error_entry (msg : string) (e : exn) : LogEntry :=
  {| level := Err; message := msg; data := [("error", LError e)] |}.

(** The world after [logger?.info(...)] and the like. *)
Definition logged (logger : bool) (entry : LogEntry) (w : World) : World :=
  if logger then append_log entry w else w.

(** *** Computations that do not depend on the logger output *)

Definition LogIndependent {A} (m : M A) : Prop :=
  forall entry w,
    m (append_log entry w)
    = (result (m w), append_log entry (final (m w))).

(** *** Computations that make no client call and log nothing *)

Definition Quiet {A} (m : M A) : Prop :=
  forall w,
    apiLog (final (m w)) = apiLog w /\ logs (final (m w)) = logs w
    /\ time (final (m w)) = time w.

(** A computation surfaces the failures of its client calls when every
    call it makes that fails is the failure it ends with. *)
Definition Surfacing {A} (m : M A) : Prop :=
  forall w, exists new,
    apiLog (final (m w)) = (apiLog w ++ new)%list
    /\ forall e, In e (failures new) -> result (m w) = inl e.

(** The claim on a whole tool: a client call that fails during the run
    is the failure of the run, and it is logged last, as an error. *)
Definition surfaces {A} (logger : bool) (msg : string) (m : M A) : Prop :=
  forall w e,
    In e (failures (new_calls w (final (m w)))) ->
    result (m w) = inl e
    /\ (logger = true ->
        exists l, logs (final (m w)) = (l ++ [error_entry msg e])%list).

Definition is_get (c : ApiCall) : bool :=
  match c with
  | Gmail_messages_get _ _ _ _ => true
  | _ => false
  end.

Definition warn_entry (msg : string) (e : exn) : LogEntry :=
  {| level := Warn; message := msg; data := [("error", LError e)] |}.

(** *** Scenarios *)

Module Scenario.

Definition env_both : Env :=
  {| REPLIT_CONNECTORS_HOSTNAME := Some "connectors.example";
     REPL_IDENTITY := Some "identity";
     WEB_REPL_RENEWAL := Some "renewal" |}.

Definition env_none : Env :=
  {| REPLIT_CONNECTORS_HOSTNAME := Some "connectors.example";
     REPL_IDENTITY := None;
     WEB_REPL_RENEWAL := None |}.

Definition far_future : string := "2099-01-01T00:00:00.000Z".

(** Enough of [new Date(v).getTime()] for the scenarios. *)
Definition parse_date (v : value) : option Z :=
  match v with
  | VNum n => Some n
  | VStr s => if s =? far_future then Some 4070908800000%Z else None
  | _ => None
  end.

Definition unavailable (c : ApiCall) : exn + resp_of c :=
  inl (ProviderError 503 "unavailable").

(** A connector endpoint that answers every fetch with [data], in front
    of providers that are down. *)
Definition connector (data : value) : Host :=
  {| fetchJson := fun _ _ => inr data;
     respond := fun _ _ c => unavailable c;
     dateGetTime := parse_date;
     toISOString := fun _ => "2025-01-01T00:00:00.000Z" |}.

Definition world (e : Env) (calendar gmail : value) : World :=
  {| calendarConnectionSettings := calendar;
     gmailConnectionSettings := gmail;
     env := e; time := 1735689600000%Z;
     fetchLog := []; apiLog := []; logs := [] |}.

Definition item (fields : list (string * value)) : value :=
  VObj [("settings", VObj fields)].

Definition response (items : list value) : value :=
  VObj [("items", VArr items)].

(** Worlds and answers of the token cache scenarios. *)
Definition token_A : value :=
  item [("access_token", VStr "A")].

Definition token_A_fresh : value :=
  item [("access_token", VStr "A"); ("expires_at", VStr far_future)].

Definition token_B : value :=
  item [("access_token", VStr "B")].

Definition no_token_fresh : value :=
  item [("expires_at", VStr far_future)].

Definition cold : World := world env_both VUndefined VUndefined.

Definition cached (e : Env) (fam : Family) (record : value) : World :=
  match fam with
  | Calendar => world e record VUndefined
  | Mail => world e VUndefined record
  end.

(** A connector that hands out token "A", in front of providers that
    answer every client call with [answer]. *)
Definition serving (answer : forall c : ApiCall, exn + resp_of c) : Host :=
  {| fetchJson := fun _ _ => inr (response [token_A_fresh]);
     respond := fun _ _ c => answer c;
     dateGetTime := parse_date;
     toISOString := fun _ => "2025-01-01T00:00:00.000Z" |}.

Definition backend_error : exn := ProviderError 500 "backend error".

Definition message_1 : Message :=
  {| m_id := Some "m1"; m_threadId := Some "t1"; m_labelIds := None;
     m_snippet := None; m_payload := None |}.

(** A mailbox that lists one message and fails every other call. *)
Definition one_unreadable_message (c : ApiCall) : exn + resp_of c :=
  match c as c' return exn + resp_of c' with
  | Gmail_messages_list _ _ _ => inr {| r_messages := Some [message_1] |}
  | _ => inl backend_error
  end.

Definition html_then_plain : MessagePart :=
  mkMessagePart (Some "multipart/alternative") None
    (Some {| b_data := None |})
    (Some [mkMessagePart (Some "text/html") None
             (Some {| b_data := Some "PGI+SGk8L2I+" |}) None;
           mkMessagePart (Some "text/plain") None
             (Some {| b_data := Some "SGk=" |}) None]).

Definition label_events : Label :=
  {| l_id := Some "Label_7"; l_name := Some "AZCorpComm_Event" |}.

Definition label_other_case : Label :=
  {| l_id := Some "Label_3"; l_name := Some "azcorpcomm_event" |}.

(** A mailbox with two labels whose names differ in case only; creating
    a label answers with a new id. *)
Definition two_labels (c : ApiCall) : exn + resp_of c :=
  match c as c' return exn + resp_of c' with
  | Gmail_labels_list _ =>
      inr {| r_labels := Some [label_other_case; label_events] |}
  | Gmail_labels_create _ name _ _ =>
      inr {| l_id := Some "Label_8"; l_name := Some name |}
  | _ => inl backend_error
  end.

Definition message_2 : Message :=
  {| m_id := Some "m2"; m_threadId := Some "t2"; m_labelIds := None;
     m_snippet := None; m_payload := None |}.

Definition timed (t : string) : option EventDateTime :=
  Some {| dateTime := Some t; date := None; timeZone := None |}.

Definition event_1 : Event :=
  {| e_id := Some "e1"; e_summary := Some "Town hall";
     e_start := timed "2025-02-01T10:00:00-07:00";
     e_end := timed "2025-02-01T11:00:00-07:00";
     e_location := Some "Phoenix"; e_htmlLink := None |}.

Definition event_2 : Event :=
  {| e_id := Some "e2"; e_summary := None;
     e_start := Some {| dateTime := None; date := Some "2025-02-03";
                        timeZone := None |};
     e_end := None; e_location := Some ""; e_htmlLink := None |}.

(** Metadata of a fetched message: its id, a subject, a snippet. *)
Definition metadata (id : option string) : Message :=
  {| m_id := id; m_threadId := None; m_labelIds := Some ["INBOX"];
     m_snippet := Some "See you there";
     m_payload :=
       Some (mkMessagePart None
               (Some [{| h_name := Some "Subject";
                         h_value := Some "Invitation" |}])
               None None) |}.

(** Providers with two events and two messages. *)
Definition two_items (c : ApiCall) : exn + resp_of c :=
  match c as c' return exn + resp_of c' with
  | Calendar_events_list _ _ _ _ _ =>
      inr {| r_items := Some [event_1; event_2] |}
  | Gmail_messages_list _ _ _ =>
      inr {| r_messages := Some [message_1; message_2] |}
  | Gmail_messages_get _ id _ _ => inr (metadata id)
  | _ => inl backend_error
  end.

Definition two_please : ListUpcomingEventsInput :=
  {| lu_maxResults := Some 2%Z; lu_timeMin := None |}.

Definition two_mails_please : ListEmailsInput :=
  {| le_maxResults := Some 2%Z; le_query := None |}.

Definition reply : CreateDraftReplyInput :=
  {| cd_threadId := "t1"; cd_to := "a@example.org"; cd_subject := "Re: Hi";
     cd_body := "Thanks"; cd_inReplyTo := None |}.

Definition no_input : ListEmailsInput :=
  {| le_maxResults := None; le_query := None |}.

(** A connector that cannot be reached. *)
Definition offline : Host :=
  {| fetchJson := fun _ _ => inl (TypeError "fetch failed");
     respond := fun _ _ c => unavailable c;
     dateGetTime := parse_date;
     toISOString := fun _ => "2025-01-01T00:00:00.000Z" |}.

(** The clock of [world]. *)
Definition today : Z := 1735689600000%Z.

Definition token_A_expiring_now : value :=
  item [("access_token", VStr "A"); ("expires_at", VNum today)].

Definition token_nested_fresh : value :=
  item [("oauth", VObj [("credentials", VObj [("access_token", VStr "B")])]);
        ("expires_at", VStr far_future)].

Definition env_renewal_only : Env :=
  {| REPLIT_CONNECTORS_HOSTNAME := None;
     REPL_IDENTITY := Some "";
     WEB_REPL_RENEWAL := Some "renewal" |}.

End Scenario.

(** The two fields of a cached record the hit path reads. *)
Definition cached_expiry (cs : value) : value :=
  prop (prop cs "settings") "expires_at".

Definition cached_token (cs : value) : value :=
  prop (prop cs "settings") "access_token".

(** The words of the specification on a cache hit: a cached record
    exists and "its expiry, when present, is strictly in the future". *)
Definition spec_expiry_ok (host : Host) (cs : value) (now : Z) : Prop :=
  let ea := opt_prop (opt_prop cs "settings") "expires_at" in
  ea = VUndefined \/ exists t, dateGetTime host ea = Some t /\ (now < t)%Z.

(* ------------------------------------------------------------------ *)
(** ** The workflow that drives the agent

    [campaignEmailWorkflow] runs two steps in sequence. The agent is a
    hosted model that calls the tools above as it sees fit: here it is
    any computation over the world that ends with a text or a failure.
    [toLocaleDateString] stands for the built-in of that name with the
    options of the source. *)

Record Runtime := {
  generate : string -> Z -> M string;   (* campaignEmailAgent.generate *)
  toLocaleDateString : Z -> string
}.

Record ProcessOutput := {
  agentResponse : string;
  processedAt : string;
  success : bool
}.

Record SummaryOutput := {
  summary : string;
  completedAt : string;
  overallSuccess : bool
}.

(** [error instanceof Error ? error.message : String(error)]: every
    failure of this model is an [Error]. *)
Definition exn_message (e : exn) : string :=
  match e with
  | Error m => m
  | TypeError m => m
  | ProviderError _ m => m
  end.

Definition dq : string := String (ascii_of_nat 34) EmptyString.

Definition rule : string :=
  "━━━━━━━━━━━━━━━━━━━━━━━━━━━━━━━━━━━━━━━━━━━━━━━━━━".

(** The prompt of the first step. *)
Definition processPrompt (todayFormatted : string) : string :=
  "
Today's date is: " ++ todayFormatted ++ "

Please process my inbox to find and manage campaign-related emails for my Arizona Corporation Commission campaign. Specifically:

1. First, create or get the " ++ dq ++ "AZCorpComm_Event" ++ dq ++ " label that will be used to tag campaign event emails.

2. List recent emails from my inbox (up to 50 emails).

3. For each email, analyze if it matches campaign event criteria:
   - Event invitations (debates, forums, town halls, candidate trainings)
   - Political networking events
   - Speaking engagement opportunities
   - Endorsement interviews
   - Tabling or campaign promotion opportunities

4. For matching emails:
   a. Tag them with the " ++ dq ++ "AZCorpComm_Event" ++ dq ++ " label
   b. Get the full email content to extract event details
   c. Create a calendar event with the extracted information (event name, date, time, location)
   d. Create an appropriate draft reply:
      - For upcoming events: draft a confirmation request
      - For past events: draft an apology with inquiry about future opportunities

5. Provide a summary of what was processed.

Please proceed with processing my campaign emails now.
".

(** The report of the second step. *)
Definition summaryReport (inputData : ProcessOutput) : string :=
  "
" ++ rule ++ "
📊 CAMPAIGN EMAIL PROCESSING REPORT
" ++ rule ++ "

⏰ Processed at: " ++ processedAt inputData ++ "
✅ Status: " ++ (if success inputData then "Successful" else "Failed") ++ "

📝 Agent Report:
" ++ agentResponse inputData ++ "

" ++ rule ++ "
💡 Next Steps:
- Review the draft replies in Gmail before sending
- Check your calendar for new events
- Look for emails tagged with " ++ dq ++ "AZCorpComm_Event" ++ dq ++ "
" ++ rule ++ "
".

Section Workflow.

Variable host : Host.
Variable rt : Runtime.

Definition processEmailsStep (logger : bool) : M ProcessOutput :=
  log logger Info "🚀 [Step 1] Starting campaign email processing..." [] ;;;
  today <- gets time ;;
  let todayFormatted := toLocaleDateString rt today in
  let prompt := processPrompt todayFormatted in
  try_catch
    (log logger Info "📧 [Step 1] Calling Campaign Email Agent..." [] ;;;
     response <- generate rt prompt 20 ;;
     log logger Info "✅ [Step 1] Campaign Email Agent completed processing"
       [] ;;;
     now <- gets time ;;
     ret {| agentResponse := response;
            processedAt := toISOString host now;
            success := true |})
    (fun error =>
       log logger Err "❌ [Step 1] Failed to process emails"
         [("error", LString (Some (exn_message error)))] ;;;
       now <- gets time ;;
       ret {| agentResponse :=
                "Error processing emails: " ++ exn_message error;
              processedAt := toISOString host now;
              success := false |}).

Definition generateSummaryStep (logger : bool) (inputData : ProcessOutput)
  : M SummaryOutput :=
  log logger Info "📊 [Step 2] Generating summary report..." [] ;;;
  let summary := summaryReport inputData in
  log logger Info summary [] ;;;
  log logger Info "✅ [Step 2] Summary report generated" [] ;;;
  now <- gets time ;;
  ret {| summary := summary;
         completedAt := toISOString host now;
         overallSuccess := success inputData |}.

(** [createWorkflow(...).then(processEmailsStep).then(generateSummaryStep)]:
    the second step receives the output of the first. *)
Definition campaignEmailWorkflow (logger : bool) : M SummaryOutput :=
  inputData <- processEmailsStep logger ;;
  generateSummaryStep logger inputData.

(** The call of the agent in a run of the first step from [w]: the
    prompt it gets and the world it starts in, two lines logged. *)
Definition agent_call (logger : bool) (w : World) : (exn + string) * World :=
  generate rt (processPrompt (toLocaleDateString rt (time w))) 20
    (logged logger
       {| level := Info;
          message := "📧 [Step 1] Calling Campaign Email Agent...";
          data := [] |}
       (logged logger
          {| level := Info;
             message := "🚀 [Step 1] Starting campaign email processing...";
             data := [] |} w)).

End Workflow.

Module Mailbox.

(** A message as Gmail sends it with an attachment: the text parts are
    nested one level down. *)
Definition with_attachment : MessagePart :=
  mkMessagePart (Some "multipart/mixed") None (Some {| b_data := None |})
    (Some [Scenario.html_then_plain;
           mkMessagePart (Some "application/pdf") None
             (Some {| b_data := None |}) None]).

(** Two HTML parts and no plain-text part. *)
Definition two_html : MessagePart :=
  mkMessagePart (Some "multipart/alternative") None None
    (Some [mkMessagePart (Some "text/html") None
             (Some {| b_data := Some "PGI+SGk8L2I+" |}) None;
           mkMessagePart (Some "text/html") None
             (Some {| b_data := Some "SGk=" |}) None]).

(** A message whose only header is spelled in lower case. *)
Definition lower_case_subject : Message :=
  {| m_id := Some "m9"; m_threadId := Some "t9"; m_labelIds := None;
     m_snippet := None;
     m_payload :=
       Some (mkMessagePart None
               (Some [{| h_name := Some "subject";
                         h_value := Some "Invitation" |}])
               None None) |}.

Definition full_of (m : Message) (c : ApiCall) : exn + resp_of c :=
  match c as c' return exn + resp_of c' with
  | Gmail_messages_get _ _ _ _ => inr m
  | _ => inl Scenario.backend_error
  end.

Definition one_please : ListUpcomingEventsInput :=
  {| lu_maxResults := Some 1%Z; lu_timeMin := None |}.

Definition zero_please : ListUpcomingEventsInput :=
  {| lu_maxResults := Some 0%Z; lu_timeMin := Some "" |}.

Definition all_day : CreateCalendarEventInput :=
  {| ce_summary := "Candidate forum"; ce_description := None;
     ce_location := None;
     ce_startDateTime := "2025-03-01T18:00:00";
     ce_endDateTime := "2025-03-02T00:00:00";
     ce_timeZone := None; ce_allDay := Some true |}.

Definition timed_no_zone : CreateCalendarEventInput :=
  {| ce_summary := "Candidate forum"; ce_description := None;
     ce_location := None;
     ce_startDateTime := "2025-03-01T18:00:00";
     ce_endDateTime := "2025-03-01T20:00:00";
     ce_timeZone := Some ""; ce_allDay := None |}.

(** A message with the payload [with_attachment]. *)
Definition mail_with_attachment : Message :=
  {| m_id := Some "m7"; m_threadId := Some "t7"; m_labelIds := None;
     m_snippet := None; m_payload := Some with_attachment |}.

(** Two listed messages of which the first cannot be read. *)
Definition first_unreadable (c : ApiCall) : exn + resp_of c :=
  match c as c' return exn + resp_of c' with
  | Gmail_messages_list _ _ _ =>
      inr {| r_messages := Some [Scenario.message_1; Scenario.message_2] |}
  | Gmail_messages_get _ id _ _ =>
      if opt_eqb id "m2" then inr (Scenario.metadata id)
      else inl Scenario.backend_error
  | _ => inl Scenario.backend_error
  end.

(** Body data that is not UTF-8: the bytes E2 82 (a euro sign cut
    short), 41 (the letter A) and FF. *)
Definition cut_short : MessagePart :=
  mkMessagePart (Some "text/plain") None
    (Some {| b_data := Some "4oJB/w==" |}) None.

End Mailbox.

Module Agents.

(** An agent that fails, and one that answers. *)
Definition failing : Runtime :=
  {| generate := fun _ _ => throw Scenario.backend_error;
     toLocaleDateString := fun _ => "Wednesday, January 1, 2025" |}.

Definition answering : Runtime :=
  {| generate := fun _ _ => ret "Found 2 campaign emails.";
     toLocaleDateString := fun _ => "Wednesday, January 1, 2025" |}.

End Agents.

(* ------------------------------------------------------------------ *)
(** ** More observations *)

(** The characters of unpadded URL-safe base64. *)
Definition is_url_safe (c : ascii) : bool :=
  let n := N_of_ascii c in
  ((65 <=? n) && (n <=? 90) || (97 <=? n) && (n <=? 122)
   || (48 <=? n) && (n <=? 57) || (n =? 45) || (n =? 95))%N.

(** Whether "T" occurs in a string. *)
Fixpoint has_T (s : string) : bool :=
  match s with
  | EmptyString => false
  | String c r => (c =? "T")%char || has_T r
  end.

(** [s] occurs in [t]. *)
Definition occurs_in (s t : string) : Prop :=
  exists before after, t = before ++ s ++ after.

(** A run that ends with [e] before any client call, [e] being logged
    last as an error. *)
Definition refuses {A} (logger : bool) (msg : string) (m : M A) (w : World)
  (e : exn) : Prop :=
  result (m w) = inl e
  /\ new_calls w (final (m w)) = []
  /\ (logger = true ->
      exists l, logs (final (m w)) = (l ++ [error_entry msg e])%list).

(** The family whose cache a call does not concern. *)
Definition other (fam : Family) : Family :=
  match fam with
  | Calendar => Mail
  | Mail => Calendar
  end.

(** The world at another moment: the same, the clock reading [now].
    [Date.now()] is read afresh by every call. *)
Definition at_time (now : Z) (w : World) : World :=
  {| calendarConnectionSettings := calendarConnectionSettings w;
     gmailConnectionSettings := gmailConnectionSettings w;
     env := env w; time := now; fetchLog := fetchLog w;
     apiLog := apiLog w; logs := logs w |}.

(** The parts of a payload, at every depth. *)
Fixpoint all_parts (p : MessagePart) : list MessagePart :=
  match p with
  | mkMessagePart _ _ _ (Some parts) =>
      flat_map (fun q => q :: all_parts q) parts
  | mkMessagePart _ _ _ None => []
  end.

(** The metadata request of listEmailsTool for a listed message. *)
Definition metadata_request (m : Message) : ApiCall :=
  Gmail_messages_get "me" (m_id m) "metadata"
    (Some ["Subject"; "From"; "Date"]).

(** The listed messages whose metadata request went through, [gets]
    being the trace of the requests made for the listing, in its
    order. *)
Fixpoint fetched (messages : list Message) (gets : list Invocation)
  : list Message :=
  match messages, gets with
  | m :: ms, i :: rest =>
      match inv_failure i with
      | None => m :: fetched ms rest
      | Some _ => fetched ms rest
      end
  | _, _ => []
  end.

(** [e] is the record of the listed message [m]: its summary with the
    metadata the provider answered for it. *)
Definition record_of (host : Host) (tok : value) (e : EmailSummary)
  (m : Message) : Prop :=
  exists before emailData,
    respond host before tok (metadata_request m) = inr emailData
    /\ e = summarizeEmail m emailData.

(** The data strings a payload carries where the tool looks: its own
    body and the bodies of its direct parts. *)
Definition carries (payload : option MessagePart) (data : string) : Prop :=
  exists p,
    payload = Some p
    /\ (body_data p = Some data
        \/ exists parts part,
            p_parts p = Some parts /\ In part parts
            /\ body_data part = Some data).

(** What a UTF-8 decoder that substitutes U+FFFD for ill-formed input
    has to give (Unicode 3.9, substitution of maximal subparts), stated
    without reference to the decoder. *)
Module Utf8.

Import Buffer.
Local Open Scope list_scope.

(** The encoding of one code point (Unicode, table 3-7). *)
Inductive scalar : bytes -> Prop :=
| sc_one b0 : (N_of_ascii b0 <= 127)%N -> scalar [b0]
| sc_two b0 b1 :
    between 194 223 b0 = true -> between 128 191 b1 = true ->
    scalar [b0; b1]
| sc_three b0 b1 b2 :
    between 224 239 b0 = true ->
    between (second_lo (N_of_ascii b0)) (second_hi (N_of_ascii b0)) b1 = true ->
    between 128 191 b2 = true ->
    scalar [b0; b1; b2]
| sc_four b0 b1 b2 b3 :
    between 240 244 b0 = true ->
    between (second_lo (N_of_ascii b0)) (second_hi (N_of_ascii b0)) b1 = true ->
    between 128 191 b2 = true -> between 128 191 b3 = true ->
    scalar [b0; b1; b2; b3].

(** [p] begins the encoding of some code point. *)
Definition starts_scalar (p : bytes) : Prop := exists s, scalar (p ++ s).

(** [p] is the beginning of an encoding, cut short. *)
Definition truncated (p : bytes) : Prop :=
  p <> [] /\ exists s, s <> [] /\ scalar (p ++ s).

(** [Repaired input output]: the input is read from left to right; the
    encoding of a code point is copied; where none begins, the longest
    run that still begins one (or else a single byte) is replaced by one
    U+FFFD. No byte is dropped and none is added otherwise. *)
Inductive Repaired : bytes -> bytes -> Prop :=
| rep_nil : Repaired [] []
| rep_scalar c r out :
    scalar c -> Repaired r out -> Repaired (c ++ r) (c ++ out)
| rep_truncated p r out :
    truncated p ->
    (forall b r', r = b :: r' -> ~ starts_scalar (p ++ [b])) ->
    Repaired r out -> Repaired (p ++ r) (replacement ++ out)
| rep_stray b r out :
    ~ starts_scalar [b] -> Repaired r out ->
    Repaired (b :: r) (replacement ++ out).

End Utf8.

(* ================================================================== *)
(** * Properties *)

(** ** JavaScript values *)

Lemma truthy_not_nullish (v : value) : truthy v = true -> nullish v = false.
Proof. destruct v; simpl; congruence. Qed.

Lemma prop_truthy_not_nullish (v : value) (k : string) :
  truthy (prop v k) = true -> nullish v = false.
Proof. destruct v; simpl; congruence. Qed.

Lemma get_prop_defined (v : value) (k : string) :
  nullish v = false -> get_prop v k = inr (prop v k).
Proof. unfold get_prop; intros ->; reflexivity. Qed.

Lemma opt_prop_prop (v : value) (k : string) : opt_prop v k = prop v k.
Proof. destruct v; reflexivity. Qed.

(** ** The token caches *)

Section TokenCacheFacts.

Variable host : Host.

Lemma cacheFresh_hit (cs : value) (now t : Z) :
  truthy cs = true ->
  truthy (cached_expiry cs) = true ->
  dateGetTime host (cached_expiry cs) = Some t ->
  (now < t)%Z ->
  cacheFresh host cs now = inr true.
Proof.
  unfold cached_expiry. intros Hcs Hea Ht Hlt. unfold cacheFresh. rewrite Hcs.
  rewrite (get_prop_defined _ _ (truthy_not_nullish _ Hcs)).
  rewrite (get_prop_defined _ _ (prop_truthy_not_nullish _ _ Hea)).
  rewrite Hea, Ht. apply Z.ltb_lt in Hlt. now rewrite Hlt.
Qed.

(** A record without an expiry is never fresh. *)
Lemma cacheFresh_no_expiry (cs : value) (now : Z) :
  nullish (prop cs "settings") = false ->
  truthy (cached_expiry cs) = false ->
  cacheFresh host cs now = inr false.
Proof.
  unfold cached_expiry. intros Hs Hea. unfold cacheFresh. destruct (truthy cs) eqn:Hcs; [|reflexivity].
  rewrite (get_prop_defined _ _ (truthy_not_nullish _ Hcs)).
  rewrite (get_prop_defined _ _ Hs). now rewrite Hea.
Qed.

Lemma cacheFresh_empty (now : Z) : cacheFresh host VUndefined now = inr false.
Proof. reflexivity. Qed.

(** On a hit the call touches nothing. *)
Lemma getAccessToken_hit (fam : Family) (w : World) :
  cacheFresh host (connectionSettings fam w) (time w) = inr true ->
  getAccessToken host fam w
  = (inr (cached_token (connectionSettings fam w)), w).
Proof.
  unfold cached_token. intros Hfresh. pose proof Hfresh as H. unfold cacheFresh in H.
  destruct (truthy (connectionSettings fam w)) eqn:Hcs; [|discriminate].
  rewrite (get_prop_defined _ _ (truthy_not_nullish _ Hcs)) in H.
  destruct (nullish (prop (connectionSettings fam w) "settings")) eqn:Hs.
  - unfold get_prop in H. rewrite Hs in H. discriminate.
  - unfold getAccessToken, bind, gets, lift. rewrite Hfresh.
    rewrite (get_prop_defined _ _ (truthy_not_nullish _ Hcs)).
    unfold ret. now rewrite (get_prop_defined _ _ Hs).
Qed.

(** What a miss does, step by step. *)
Lemma getAccessToken_miss_no_identity (fam : Family) (w : World) :
  cacheFresh host (connectionSettings fam w) (time w) = inr false ->
  xReplitToken (env w) = None ->
  getAccessToken host fam w = (inl ConfigurationError, w).
Proof.
  intros Hfresh Hid. unfold getAccessToken, bind, gets, lift.
  rewrite Hfresh. unfold ret at 1. now rewrite Hid.
Qed.

Lemma getAccessToken_miss_rejected (fam : Family) (w : World) (tok : string)
  (err : exn) :
  cacheFresh host (connectionSettings fam w) (time w) = inr false ->
  xReplitToken (env w) = Some tok ->
  fetchJson host (fetchLog w) (connection_request fam (env w) tok) = inl err ->
  getAccessToken host fam w
  = (inl err, record_fetch (connection_request fam (env w) tok) w).
Proof.
  intros Hfresh Hid Hfetch. unfold getAccessToken, bind, gets, lift.
  rewrite Hfresh. unfold ret at 1. rewrite Hid.
  unfold fetchConnection. now rewrite Hfetch.
Qed.

Lemma getAccessToken_miss_fetched (fam : Family) (w : World) (tok : string)
  (data : value) :
  cacheFresh host (connectionSettings fam w) (time w) = inr false ->
  xReplitToken (env w) = Some tok ->
  fetchJson host (fetchLog w) (connection_request fam (env w) tok)
  = inr data ->
  nullish data = false ->
  let item := opt_index0 (prop data "items") in
  let w' := set_connectionSettings fam item
              (record_fetch (connection_request fam (env w) tok) w) in
  getAccessToken host fam w
  = match extractAccessToken item with
    | inl e => (inl e, w')
    | inr accessToken =>
        if negb (truthy item) || negb (truthy accessToken)
        then (inl (NotConnectedError fam), w')
        else (inr accessToken, w')
    end.
Proof.
  intros Hfresh Hid Hfetch Hdata item w'.
  unfold getAccessToken, bind, gets, lift.
  rewrite Hfresh. unfold ret at 1. rewrite Hid.
  unfold fetchConnection. rewrite Hfetch.
  rewrite (get_prop_defined _ _ Hdata). unfold modify.
  fold item. fold w'.
  destruct (extractAccessToken item) as [e|a]; [reflexivity|].
  unfold ret. destruct (negb (truthy item) || negb (truthy a)); reflexivity.
Qed.

Lemma extractAccessToken_direct (cs : value) :
  truthy (cached_token cs) = true ->
  extractAccessToken cs = inr (cached_token cs).
Proof.
  unfold cached_token, extractAccessToken, or_else. intros H.
  rewrite !opt_prop_prop. now rewrite H.
Qed.

(** C1 (amended): for both resource families, when a cached record
    exists, its expiry is present and strictly after the clock reading,
    and the record holds its token in [settings.access_token], the call
    returns that token and leaves the world as it was: no fetch is
    issued and the cache is not touched. *)
Theorem cache_hit_returns_cached_token (fam : Family) (w : World) (t : Z) :
  truthy (connectionSettings fam w) = true ->
  truthy (cached_expiry (connectionSettings fam w)) = true ->
  dateGetTime host (cached_expiry (connectionSettings fam w)) = Some t ->
  (time w < t)%Z ->
  truthy (cached_token (connectionSettings fam w)) = true ->
  getAccessToken host fam w = (inr (cached_token (connectionSettings fam w)), w)
  /\ new_fetches w (final (getAccessToken host fam w)) = []
  /\ extractAccessToken (connectionSettings fam w)
     = inr (cached_token (connectionSettings fam w)).
Proof.
  intros Hcs Hea Ht Hlt Htok.
  pose proof (getAccessToken_hit fam w (cacheFresh_hit _ _ _ Hcs Hea Ht Hlt))
    as Hrun.
  split; [exact Hrun|]. split.
  - rewrite Hrun. unfold new_fetches, final. simpl. apply skipn_all.
  - now apply extractAccessToken_direct.
Qed.

(** C6: on a cache miss with neither REPL_IDENTITY nor WEB_REPL_RENEWAL
    set, the call fails with the configuration error and the world is
    left as it was: nothing is fetched. Both families. *)
Theorem no_identity_is_configuration_error (fam : Family) (w : World) :
  cacheFresh host (connectionSettings fam w) (time w) = inr false ->
  env_set (REPL_IDENTITY (env w)) = false ->
  env_set (WEB_REPL_RENEWAL (env w)) = false ->
  getAccessToken host fam w = (inl ConfigurationError, w)
  /\ new_fetches w (final (getAccessToken host fam w)) = [].
Proof.
  intros Hfresh Hrepl Hdepl.
  assert (Hnone : xReplitToken (env w) = None).
  { unfold xReplitToken, env_set in *.
    destruct (REPL_IDENTITY (env w)) as [s|];
      destruct (WEB_REPL_RENEWAL (env w)) as [r|];
      try rewrite Hrepl; try rewrite Hdepl; reflexivity. }
  pose proof (getAccessToken_miss_no_identity fam w Hfresh Hnone) as Hrun.
  split; [exact Hrun|].
  rewrite Hrun. unfold new_fetches, final. simpl. apply skipn_all.
Qed.

Lemma xReplitToken_repl (e : Env) :
  env_set (REPL_IDENTITY e) = true ->
  exists id, REPL_IDENTITY e = Some id /\ xReplitToken e = Some ("repl " ++ id).
Proof.
  unfold env_set, xReplitToken. destruct (REPL_IDENTITY e) as [s|];
    [|discriminate].
  intros ->. now exists s.
Qed.

Lemma xReplitToken_depl (e : Env) (r : string) :
  xReplitToken e = Some ("depl " ++ r) -> env_set (REPL_IDENTITY e) = false.
Proof.
  unfold env_set, xReplitToken. destruct (REPL_IDENTITY e) as [s|];
    [|reflexivity].
  destruct (negb (s =? "")); [discriminate|reflexivity].
Qed.

Lemma skipn_app_exact {A} (l new : list A) :
  skipn (List.length l) (l ++ new) = new.
Proof. induction l; simpl; auto. Qed.

(** Whatever the connector answers, a miss with an identity issues one
    fetch, the request built from that identity. *)
Lemma getAccessToken_miss_request (fam : Family) (w : World) (tok : string) :
  cacheFresh host (connectionSettings fam w) (time w) = inr false ->
  xReplitToken (env w) = Some tok ->
  new_fetches w (final (getAccessToken host fam w))
  = [connection_request fam (env w) tok].
Proof.
  intros Hfresh Hid.
  assert (H : fetchLog (final (getAccessToken host fam w))
              = (fetchLog w ++ [connection_request fam (env w) tok])%list).
  { unfold getAccessToken, bind, gets, lift. rewrite Hfresh.
    unfold ret at 1. rewrite Hid. unfold fetchConnection.
    destruct (fetchJson host (fetchLog w) (connection_request fam (env w) tok))
      as [err|data]; [reflexivity|].
    destruct (get_prop data "items") as [err|items]; [reflexivity|].
    unfold modify.
    destruct (extractAccessToken (opt_index0 items)) as [err|a];
      [destruct fam; reflexivity|].
    unfold lift, ret, throw.
    destruct (negb (truthy (opt_index0 items)) || negb (truthy a));
      destruct fam; reflexivity. }
  unfold new_fetches. rewrite H. apply skipn_app_exact.
Qed.

(** C9: on a cache miss with both identity variables set, the one
    request sent carries ['repl ' + REPL_IDENTITY]; and a request that
    carries a ['depl '] credential is only ever sent when REPL_IDENTITY
    is not set. Both families. *)
Theorem repl_identity_takes_precedence (fam : Family) (w : World) :
  cacheFresh host (connectionSettings fam w) (time w) = inr false ->
  (env_set (REPL_IDENTITY (env w)) = true ->
   env_set (WEB_REPL_RENEWAL (env w)) = true ->
   exists id, REPL_IDENTITY (env w) = Some id /\
     new_fetches w (final (getAccessToken host fam w))
     = [{| url := connection_url fam (REPLIT_CONNECTORS_HOSTNAME (env w));
           req_headers := [("Accept", "application/json");
                           ("X_REPLIT_TOKEN", "repl " ++ id)] |}])
  /\ (forall req r,
        In req (new_fetches w (final (getAccessToken host fam w))) ->
        In ("X_REPLIT_TOKEN", "depl " ++ r) (req_headers req) ->
        env_set (REPL_IDENTITY (env w)) = false).
Proof.
  intros Hfresh. split.
  - intros Hrepl _. destruct (xReplitToken_repl _ Hrepl) as (id & Hid & Htok).
    exists id. split; [exact Hid|].
    now rewrite (getAccessToken_miss_request fam w _ Hfresh Htok).
  - intros req r Hin Hhdr.
    destruct (xReplitToken (env w)) as [tok|] eqn:Htok.
    + rewrite (getAccessToken_miss_request fam w _ Hfresh Htok) in Hin.
      destruct Hin as [<-|[]]. simpl in Hhdr.
      destruct Hhdr as [H|[H|[]]]; [discriminate|].
      injection H as H. apply (xReplitToken_depl (env w) r). now rewrite Htok, H.
    + rewrite (getAccessToken_miss_no_identity fam w Hfresh Htok) in Hin.
      unfold new_fetches, final in Hin. simpl in Hin.
      rewrite skipn_all in Hin. destruct Hin.
Qed.

(** C3 (what the code does): when the connector answers with an empty
    [items] list, the call does not fail with the "not connected" error
    of its family: reading [settings] of the missing item raises a
    [TypeError]. Both families. *)
Theorem empty_items_raise_TypeError (fam : Family) (w : World) (tok : string) :
  cacheFresh host (connectionSettings fam w) (time w) = inr false ->
  xReplitToken (env w) = Some tok ->
  fetchJson host (fetchLog w) (connection_request fam (env w) tok)
  = inr (VObj [("items", VArr [])]) ->
  result (getAccessToken host fam w)
  = inl (TypeError "Cannot read properties of undefined (reading 'settings')")
  /\ result (getAccessToken host fam w) <> inl (NotConnectedError fam).
Proof.
  intros Hfresh Hid Hfetch.
  rewrite (getAccessToken_miss_fetched fam w _ _ Hfresh Hid Hfetch eq_refl).
  split; [reflexivity|]. destruct fam; discriminate.
Qed.

(** The three cases of token extraction that hold as specified. *)
Lemma extract_direct_token (fam : Family) (w : World) (tok : string)
  (a : string) (rest : list (string * value)) (more : list value) :
  cacheFresh host (connectionSettings fam w) (time w) = inr false ->
  xReplitToken (env w) = Some tok ->
  fetchJson host (fetchLog w) (connection_request fam (env w) tok)
  = inr (Scenario.response
           (Scenario.item (("access_token", VStr a) :: rest) :: more)) ->
  a <> "" ->
  result (getAccessToken host fam w) = inr (VStr a).
Proof.
  intros Hfresh Hid Hfetch Ha.
  rewrite (getAccessToken_miss_fetched fam w _ _ Hfresh Hid Hfetch eq_refl).
  apply String.eqb_neq in Ha.
  assert (E : extractAccessToken
                (Scenario.item (("access_token", VStr a) :: rest))
              = inr (VStr a)).
  { apply (extractAccessToken_direct
             (Scenario.item (("access_token", VStr a) :: rest))).
    cbn. now rewrite Ha. }
  cbn. rewrite E. cbn. now rewrite Ha.
Qed.

Lemma extract_nested_token (fam : Family) (w : World) (tok : string)
  (b : string) (more : list value) :
  cacheFresh host (connectionSettings fam w) (time w) = inr false ->
  xReplitToken (env w) = Some tok ->
  fetchJson host (fetchLog w) (connection_request fam (env w) tok)
  = inr (Scenario.response
           (Scenario.item
              [("oauth",
                VObj [("credentials", VObj [("access_token", VStr b)])])]
              :: more)) ->
  b <> "" ->
  result (getAccessToken host fam w) = inr (VStr b).
Proof.
  intros Hfresh Hid Hfetch Hb.
  rewrite (getAccessToken_miss_fetched fam w _ _ Hfresh Hid Hfetch eq_refl).
  apply String.eqb_neq in Hb.
  unfold extractAccessToken, or_else, Scenario.item. cbn. now rewrite Hb.
Qed.

Lemma extract_no_token (fam : Family) (w : World) (tok : string)
  (more : list value) :
  cacheFresh host (connectionSettings fam w) (time w) = inr false ->
  xReplitToken (env w) = Some tok ->
  fetchJson host (fetchLog w) (connection_request fam (env w) tok)
  = inr (Scenario.response (Scenario.item [] :: more)) ->
  result (getAccessToken host fam w) = inl (NotConnectedError fam).
Proof.
  intros Hfresh Hid Hfetch.
  now rewrite (getAccessToken_miss_fetched fam w _ _ Hfresh Hid Hfetch eq_refl).
Qed.

End TokenCacheFacts.

(** *** The token caches on concrete worlds *)

Lemma cache_hit_witness :
  let w := Scenario.cached Scenario.env_none Mail Scenario.token_A_fresh in
  getAccessToken (Scenario.connector VNull) Mail w = (inr (VStr "A"), w)
  /\ new_fetches w (final (getAccessToken (Scenario.connector VNull) Mail w))
     = []
  /\ extractAccessToken (connectionSettings Mail w) = inr (VStr "A").
Proof.
  exact (cache_hit_returns_cached_token (Scenario.connector VNull) Mail
           (Scenario.cached Scenario.env_none Mail Scenario.token_A_fresh)
           4070908800000%Z eq_refl eq_refl eq_refl eq_refl eq_refl).
Defined.

(** C1 as stated fails: a cached record that holds token "A" and has no
    expiry satisfies "its expiry, when present, is strictly in the
    future", yet the call fetches and returns the connector's token. *)
Lemma cached_record_without_expiry_is_refetched :
  let host := Scenario.connector (Scenario.response [Scenario.token_B]) in
  let w := Scenario.cached Scenario.env_both Calendar Scenario.token_A in
  truthy (connectionSettings Calendar w) = true
  /\ spec_expiry_ok host (connectionSettings Calendar w) (time w)
  /\ extractAccessToken (connectionSettings Calendar w) = inr (VStr "A")
  /\ List.length (new_fetches w (final (getCalendarAccessToken host w)))
     = 1%nat
  /\ result (getCalendarAccessToken host w) = inr (VStr "B").
Proof.
  cbv zeta. split; [reflexivity|]. split; [left; reflexivity|].
  repeat split; vm_compute; reflexivity.
Qed.

(** C2 (what the code does): the fetched item is stored in the cache
    before it is checked. With a connector that answers with an item
    that has an expiry and no token, the call fails with the "not
    connected" error, the cache then holds that token-less record, and
    the next call is a cache hit that returns [undefined] without
    fetching. Both families. *)
Theorem failed_fetch_leaves_invalid_record_cached (fam : Family) :
  let host :=
    Scenario.connector (Scenario.response [Scenario.no_token_fresh]) in
  let w' := final (getAccessToken host fam Scenario.cold) in
  connectionSettings fam Scenario.cold = VUndefined
  /\ result (getAccessToken host fam Scenario.cold)
     = inl (NotConnectedError fam)
  /\ connectionSettings fam w' = Scenario.no_token_fresh
  /\ extractAccessToken (connectionSettings fam w') = inr VUndefined
  /\ getAccessToken host fam w' = (inr VUndefined, w').
Proof. destruct fam; vm_compute; repeat split. Qed.

(** The same ordering erases a record: an answer with no item replaces
    the record that was cached (here one without expiry) by [undefined],
    although the fetch did not succeed. *)
Lemma failed_fetch_erases_cached_record (fam : Family) :
  let host := Scenario.connector (Scenario.response []) in
  let w := Scenario.cached Scenario.env_both fam Scenario.token_A in
  connectionSettings fam w = Scenario.token_A
  /\ (exists e, result (getAccessToken host fam w) = inl e)
  /\ connectionSettings fam (final (getAccessToken host fam w)) = VUndefined.
Proof.
  destruct fam; cbv zeta; (split; [reflexivity|]);
    (split; [eexists; vm_compute; reflexivity | vm_compute; reflexivity]).
Qed.

Lemma empty_items_witness :
  result (getAccessToken (Scenario.connector (Scenario.response []))
            Calendar Scenario.cold)
  = inl (TypeError "Cannot read properties of undefined (reading 'settings')")
  /\ result (getAccessToken (Scenario.connector (Scenario.response []))
               Calendar Scenario.cold)
     <> inl (NotConnectedError Calendar).
Proof.
  exact (empty_items_raise_TypeError
           (Scenario.connector (Scenario.response [])) Calendar Scenario.cold
           "repl identity" eq_refl eq_refl eq_refl).
Defined.

Lemma no_identity_witness :
  let w := Scenario.world Scenario.env_none VUndefined VUndefined in
  getAccessToken (Scenario.connector VNull) Mail w
  = (inl (Error "X_REPLIT_TOKEN not found for repl/depl"), w)
  /\ new_fetches w (final (getAccessToken (Scenario.connector VNull) Mail w))
     = [].
Proof.
  exact (no_identity_is_configuration_error (Scenario.connector VNull) Mail
           (Scenario.world Scenario.env_none VUndefined VUndefined)
           eq_refl eq_refl eq_refl).
Defined.

Lemma repl_identity_witness :
  new_fetches Scenario.cold
    (final (getAccessToken
              (Scenario.connector (Scenario.response [Scenario.token_A]))
              Calendar Scenario.cold))
  = [{| url := "https://connectors.example/api/v2/connection?include_secrets=true&connector_names=google-calendar";
        req_headers := [("Accept", "application/json");
                        ("X_REPLIT_TOKEN", "repl identity")] |}].
Proof.
  destruct (repl_identity_takes_precedence
              (Scenario.connector (Scenario.response [Scenario.token_A]))
              Calendar Scenario.cold eq_refl) as [H _].
  destruct (H eq_refl eq_refl) as (id & Hid & Hnew).
  injection Hid as <-. exact Hnew.
Defined.

(** An empty REPL_IDENTITY does not pass the test of the source: the
    renewal credential is used. *)
Lemma empty_repl_identity_uses_renewal :
  xReplitToken {| REPLIT_CONNECTORS_HOSTNAME := None;
                  REPL_IDENTITY := Some "";
                  WEB_REPL_RENEWAL := Some "renewal" |}
  = Some "depl renewal".
Proof. reflexivity. Qed.

(** A record fetched with its token under [oauth.credentials] only: the
    miss returns the token, the hit that follows reads
    [settings.access_token] and returns [undefined]. *)
Lemma nested_token_hit_returns_undefined :
  let nested :=
    Scenario.item
      [("oauth", VObj [("credentials", VObj [("access_token", VStr "B")])]);
       ("expires_at", VStr Scenario.far_future)] in
  let host := Scenario.connector (Scenario.response [nested]) in
  let w' := final (getGmailAccessToken host Scenario.cold) in
  result (getGmailAccessToken host Scenario.cold) = inr (VStr "B")
  /\ getGmailAccessToken host w' = (inr VUndefined, w').
Proof. vm_compute. split; reflexivity. Qed.

(** ** Base64 and UTF-8 *)

Module BufferFacts.
Import Buffer.
Local Open Scope list_scope.

Ltac euclid := zify; Z.to_euclidean_division_equations; lia.
Ltac head_eq := apply (f_equal2 (@cons N)); [euclid|].

Lemma list_ind3 {A} (P : list A -> Prop) :
  P [] -> (forall a, P [a]) -> (forall a b, P [a; b]) ->
  (forall a b c r, P r -> P (a :: b :: c :: r)) ->
  forall l, P l.
Proof.
  intros H0 H1 H2 H3. fix IH 1.
  intros [|a [|b [|c r]]];
    [exact H0 | apply H1 | apply H2 | apply H3, IH].
Qed.

Lemma sextets_sized (bs : list N) : byte_sized bs -> sextet_sized (sextets bs).
Proof.
  unfold byte_sized, sextet_sized.
  induction bs as [| a | a b | a b c r IH] using list_ind3; intros H.
  - constructor.
  - inversion_clear H. simpl. repeat constructor; euclid.
  - inversion_clear H as [|? ? Ha H']. inversion_clear H' as [|? ? Hb _].
    simpl. repeat constructor; euclid.
  - inversion_clear H as [|? ? Ha H']. inversion_clear H' as [|? ? Hb H''].
    inversion_clear H'' as [|? ? Hc Hr]. simpl.
    repeat (constructor; [euclid|]). auto.
Qed.

Lemma unsextets_sextets (bs : list N) :
  byte_sized bs -> unsextets (sextets bs) = bs.
Proof.
  unfold byte_sized.
  induction bs as [| a | a b | a b c r IH] using list_ind3; intros H.
  - reflexivity.
  - inversion_clear H. simpl. head_eq. reflexivity.
  - inversion_clear H as [|? ? Ha H']. inversion_clear H' as [|? ? Hb _].
    simpl. do 2 head_eq. reflexivity.
  - inversion_clear H as [|? ? Ha H']. inversion_clear H' as [|? ? Hb H''].
    inversion_clear H'' as [|? ? Hc Hr]. simpl.
    do 3 head_eq. auto.
Qed.

Lemma bytes_sized (buf : bytes) : byte_sized (map N_of_ascii buf).
Proof.
  unfold byte_sized. induction buf; simpl; constructor; auto.
  apply N_ascii_bounded.
Qed.

Lemma bytes_embedding (buf : bytes) : map ascii_of_N (map N_of_ascii buf) = buf.
Proof.
  induction buf; simpl; [reflexivity|]. now rewrite ascii_N_embedding, IHbuf.
Qed.

Lemma readable_by_enumeration (f : N -> ascii) :
  forallb (reads_back f) (map N.of_nat (seq 0 64)) = true -> readable f.
Proof.
  intros H n Hn. rewrite forallb_forall in H.
  assert (Hin : In n (map N.of_nat (seq 0 64))).
  { apply in_map_iff. exists (N.to_nat n). split; [apply N2Nat.id|].
    apply in_seq. lia. }
  specialize (H n Hin). unfold reads_back in H.
  destruct (unbase64 (f n)) as [m|]; [|discriminate].
  apply andb_true_iff in H as [Hm Hp]. apply N.eqb_eq in Hm. subst m.
  split; [reflexivity|]. intros E. rewrite E in Hp.
  now rewrite Ascii.eqb_refl in Hp.
Qed.

Lemma b64char_readable : readable b64char.
Proof. apply readable_by_enumeration. vm_compute. reflexivity. Qed.

Lemma url_b64char_readable : readable (fun n => url_char (b64char n)).
Proof. apply readable_by_enumeration. vm_compute. reflexivity. Qed.

Lemma padding_all_pad (n : nat) : all_pad (padding n).
Proof.
  unfold padding, all_pad.
  destruct (Nat.modulo n 3) as [|[|[|k]]]; repeat constructor.
Qed.

Lemma until_pad_all_pad (p : list ascii) : all_pad p -> until_pad p = [].
Proof.
  intros H. destruct H as [|c r Hc _]; [reflexivity|].
  simpl. subst c. now rewrite Ascii.eqb_refl.
Qed.

Lemma strip_pad_all_pad (p : list ascii) : all_pad p -> strip_pad p = [].
Proof.
  induction 1 as [|c r Hc _ IH]; [reflexivity|].
  simpl. rewrite IH. subst c. now rewrite Ascii.eqb_refl.
Qed.

Section Readable.

Variable f : N -> ascii.
Hypothesis f_readable : readable f.

Lemma legal_until_pad (sx : list N) (p : list ascii) :
  sextet_sized sx -> all_pad p ->
  legal (until_pad (map f sx ++ p)) = sx.
Proof.
  intros Hsx Hp. induction Hsx as [|n r Hn _ IH]; simpl.
  - now rewrite until_pad_all_pad.
  - destruct (f_readable n Hn) as [Hread Hne].
    apply Ascii.eqb_neq in Hne. rewrite Hne. simpl. now rewrite Hread, IH.
Qed.

Lemma strip_pad_written (sx : list N) (p : list ascii) :
  sextet_sized sx -> all_pad p ->
  strip_pad (map f sx ++ p) = map f sx.
Proof.
  intros Hsx Hp. induction Hsx as [|n r Hn _ IH]; simpl.
  - now apply strip_pad_all_pad.
  - rewrite IH. destruct (f_readable n Hn) as [_ Hne].
    apply Ascii.eqb_neq in Hne. rewrite Hne. now destruct (map f r).
Qed.

Lemma legal_written (sx : list N) :
  sextet_sized sx -> legal (until_pad (map f sx)) = sx.
Proof.
  intros Hsx. rewrite <- (app_nil_r (map f sx)).
  apply legal_until_pad; [exact Hsx|constructor].
Qed.

End Readable.

(** Decoding what [toString("base64")] wrote gives the bytes back. *)
Lemma fromBase64_toStringBase64 (buf : bytes) :
  fromBase64 (toStringBase64 buf) = buf.
Proof.
  unfold fromBase64, toStringBase64.
  rewrite list_ascii_of_string_of_list_ascii.
  rewrite (legal_until_pad _ b64char_readable).
  - rewrite unsextets_sextets by apply bytes_sized. apply bytes_embedding.
  - apply sextets_sized, bytes_sized.
  - apply padding_all_pad.
Qed.

Lemma replace_chars_url (l : list ascii) :
  replace_char "/" "_" (replace_char "+" "-" l) = map url_char l.
Proof. unfold replace_char. rewrite map_map. reflexivity. Qed.

Lemma url_char_all_pad (p : list ascii) : all_pad p -> map url_char p = p.
Proof.
  induction 1 as [|c r Hc _ IH]; [reflexivity|]. simpl. rewrite IH.
  now subst c.
Qed.

(** Well-formed UTF-8 goes through the decoder unchanged. *)
Lemma between_lead (lo hi : N) (b : ascii) :
  between lo hi b = true -> (lo <= N_of_ascii b <= hi)%N.
Proof.
  unfold between. intros H. apply andb_true_iff in H as [H1 H2].
  apply N.leb_le in H1, H2. lia.
Qed.

Lemma not_ascii (lo hi : N) (b : ascii) :
  (127 < lo)%N -> between lo hi b = true -> (N_of_ascii b <=? 127)%N = false.
Proof. intros Hlo H. apply between_lead in H. apply N.leb_gt. lia. Qed.

Lemma not_between (lo hi lo' hi' : N) (b : ascii) :
  (hi' < lo \/ hi < lo')%N -> between lo hi b = true ->
  between lo' hi' b = false.
Proof.
  intros Hd H. apply between_lead in H. unfold between.
  apply andb_false_iff. rewrite !N.leb_gt. lia.
Qed.

Lemma sanitize_well_formed (l : bytes) : well_formed l -> sanitize l = l.
Proof.
  induction 1 as [| b0 r H0 _ IH
                  | b0 b1 r H0 H1 _ IH
                  | b0 b1 b2 r H0 H1 H2 _ IH
                  | b0 b1 b2 b3 r H0 H1 H2 H3 _ IH].
  - reflexivity.
  - cbn [sanitize]. apply N.leb_le in H0. now rewrite H0, IH.
  - cbn [sanitize]. rewrite (not_ascii 194 223 _ ltac:(lia) H0).
    now rewrite H0, H1, IH.
  - cbn [sanitize]. rewrite (not_ascii 224 239 _ ltac:(lia) H0).
    rewrite (not_between 224 239 194 223 _ ltac:(lia) H0).
    now rewrite H0, H1, H2, IH.
  - cbn [sanitize]. rewrite (not_ascii 240 244 _ ltac:(lia) H0).
    rewrite (not_between 240 244 194 223 _ ltac:(lia) H0).
    rewrite (not_between 240 244 224 239 _ ltac:(lia) H0).
    now rewrite H0, H1, H2, H3, IH.
Qed.

Lemma toStringUtf8_from (text : string) :
  well_formed (from text) -> toStringUtf8 (from text) = text.
Proof.
  intros H. unfold toStringUtf8. rewrite (sanitize_well_formed _ H).
  apply string_of_list_ascii_of_string.
Qed.

End BufferFacts.

(** The encoded draft decodes to the bytes of the raw message. *)
Lemma fromBase64_encodeMessage (raw : string) :
  Buffer.fromBase64 (encodeMessage raw) = Buffer.from raw.
Proof.
  unfold encodeMessage, Buffer.toStringBase64, Buffer.fromBase64.
  rewrite !list_ascii_of_string_of_list_ascii.
  rewrite BufferFacts.replace_chars_url, map_app, map_map.
  rewrite (BufferFacts.url_char_all_pad _ (BufferFacts.padding_all_pad _)).
  pose proof (BufferFacts.sextets_sized _
                (BufferFacts.bytes_sized (Buffer.from raw))) as Hsx.
  rewrite (BufferFacts.strip_pad_written _ BufferFacts.url_b64char_readable
             _ _ Hsx (BufferFacts.padding_all_pad _)).
  rewrite (BufferFacts.legal_written _ BufferFacts.url_b64char_readable
             _ Hsx).
  rewrite BufferFacts.unsextets_sextets by apply BufferFacts.bytes_sized.
  apply BufferFacts.bytes_embedding.
Qed.

(** ** Running the monad *)

Lemma log_run (logger : bool) (lv : Level) (msg : string)
  (d : list (string * LogValue)) (w : World) :
  log logger lv msg d w
  = (inr tt, logged logger {| level := lv; message := msg; data := d |} w).
Proof. destruct logger; reflexivity. Qed.

Lemma logged_apiLog (logger : bool) (entry : LogEntry) (w : World) :
  apiLog (logged logger entry w) = apiLog w.
Proof. destruct logger; reflexivity. Qed.

Lemma bind_run {A B} (m : M A) (k : A -> M B) (w : World) :
  bind m k w
  = match m w with
    | (inl e, w') => (inl e, w')
    | (inr a, w') => k a w'
    end.
Proof. reflexivity. Qed.

Lemma call_run (host : Host) (tok : value) (c : ApiCall) (w : World) :
  call host tok c w
  = (respond host (apiLog w) tok c,
     record_call {| inv_token := tok; inv_call := c;
                    inv_failure := failure_of (respond host (apiLog w) tok c) |}
       w).
Proof. reflexivity. Qed.

Lemma getGmailClient_run (host : Host) (w : World) :
  getGmailClient host w
  = match getAccessToken host Mail w with
    | (inl e, w') => (inl e, w')
    | (inr tok, w') =>
        (inr {| gmail_version := "v1"; gmail_access_token := tok |}, w')
    end.
Proof. reflexivity. Qed.

Lemma getCalendarClient_run (host : Host) (w : World) :
  getCalendarClient host w
  = match getAccessToken host Calendar w with
    | (inl e, w') => (inl e, w')
    | (inr tok, w') =>
        (inr {| calendar_version := "v3"; calendar_access_token := tok |}, w')
    end.
Proof. reflexivity. Qed.

Lemma rethrow_logged_run {A} (logger : bool) (msg : string) (body : M A)
  (w : World) :
  rethrow_logged logger msg body w
  = match body w with
    | (inl e, w') => (inl e, logged logger (error_entry msg e) w')
    | (inr a, w') => (inr a, w')
    end.
Proof.
  unfold rethrow_logged, try_catch. destruct (body w) as [[e|a] w'];
    [|reflexivity].
  rewrite bind_run, log_run. reflexivity.
Qed.

Create HintDb frame.

Section Frames.

Context {A B : Type}.

Lemma ret_independent (a : A) : LogIndependent (ret a).
Proof. intros entry w. reflexivity. Qed.

Lemma throw_independent (e : exn) : LogIndependent (@throw A e).
Proof. intros entry w. reflexivity. Qed.

Lemma lift_independent (r : exn + A) : LogIndependent (lift r).
Proof. destruct r; intros entry w; reflexivity. Qed.

Lemma bind_independent (m : M A) (k : A -> M B) :
  LogIndependent m -> (forall a, LogIndependent (k a)) ->
  LogIndependent (bind m k).
Proof.
  intros Hm Hk entry w. unfold bind. rewrite Hm. unfold result, final.
  destruct (m w) as [[e|a] w1]; simpl; [reflexivity|]. apply Hk.
Qed.

Lemma ret_quiet (a : A) : Quiet (ret a).
Proof. intros w. repeat split. Qed.

Lemma throw_quiet (e : exn) : Quiet (@throw A e).
Proof. intros w. repeat split. Qed.

Lemma lift_quiet (r : exn + A) : Quiet (lift r).
Proof. destruct r; intros w; repeat split. Qed.

Lemma gets_quiet (f : World -> A) : Quiet (gets f).
Proof. intros w. repeat split. Qed.

Lemma bind_quiet (m : M A) (k : A -> M B) :
  Quiet m -> (forall a, Quiet (k a)) -> Quiet (bind m k).
Proof.
  intros Hm Hk w. unfold bind, final. specialize (Hm w). unfold final in Hm.
  destruct (m w) as [[e|a] w1]; simpl in *; [exact Hm|].
  destruct (Hk a w1) as (H1 & H2 & H3). unfold final in H1, H2, H3.
  destruct Hm as (H4 & H5 & H6). repeat split; congruence.
Qed.

End Frames.

#[local] Hint Resolve ret_independent throw_independent lift_independent
  bind_independent ret_quiet throw_quiet lift_quiet gets_quiet bind_quiet
  : frame.

Section TokenCacheFrames.

Variable host : Host.

Lemma cache_read_independent (fam : Family) :
  LogIndependent (gets (connectionSettings fam)).
Proof. intros entry w. destruct fam; reflexivity. Qed.

Lemma clock_independent : LogIndependent (gets time).
Proof. intros entry w. reflexivity. Qed.

Lemma env_independent : LogIndependent (gets env).
Proof. intros entry w. reflexivity. Qed.

Lemma cache_write_independent (fam : Family) (v : value) :
  LogIndependent (modify (set_connectionSettings fam v)).
Proof. intros entry w. destruct fam; reflexivity. Qed.

Lemma cache_write_quiet (fam : Family) (v : value) :
  Quiet (modify (set_connectionSettings fam v)).
Proof. intros w. destruct fam; repeat split. Qed.

Lemma fetchConnection_independent (fam : Family) (e : Env) (tok : string) :
  LogIndependent (fetchConnection host fam e tok).
Proof.
  intros entry w. unfold fetchConnection. cbn [fetchLog append_log].
  destruct (fetchJson host (fetchLog w) (connection_request fam e tok))
    as [err|data]; [reflexivity|].
  destruct (get_prop data "items"); reflexivity.
Qed.

Lemma fetchConnection_quiet (fam : Family) (e : Env) (tok : string) :
  Quiet (fetchConnection host fam e tok).
Proof.
  intros w. unfold fetchConnection.
  destruct (fetchJson host (fetchLog w) (connection_request fam e tok))
    as [err|data]; [repeat split|].
  destruct (get_prop data "items"); repeat split.
Qed.

#[local] Hint Resolve cache_read_independent clock_independent
  env_independent cache_write_independent cache_write_quiet
  fetchConnection_independent fetchConnection_quiet : frame.

(** The token cache neither reads nor writes the logger output, and it
    makes no client call. *)
Lemma getAccessToken_independent (fam : Family) :
  LogIndependent (getAccessToken host fam).
Proof.
  unfold getAccessToken.
  apply bind_independent; [auto with frame|intros cs].
  apply bind_independent; [auto with frame|intros now].
  apply bind_independent; [auto with frame|intros fresh].
  destruct fresh.
  - auto with frame.
  - apply bind_independent; [auto with frame|intros e].
    destruct (xReplitToken e) as [tok|]; [|auto with frame].
    apply bind_independent; [auto with frame|intros item].
    apply bind_independent; [auto with frame|intros _].
    apply bind_independent; [auto with frame|intros accessToken].
    destruct (negb (truthy item) || negb (truthy accessToken));
      auto with frame.
Qed.

Lemma getAccessToken_quiet (fam : Family) : Quiet (getAccessToken host fam).
Proof.
  unfold getAccessToken.
  apply bind_quiet; [auto with frame|intros cs].
  apply bind_quiet; [auto with frame|intros now].
  apply bind_quiet; [auto with frame|intros fresh].
  destruct fresh.
  - auto with frame.
  - apply bind_quiet; [auto with frame|intros e].
    destruct (xReplitToken e) as [tok|]; [|auto with frame].
    apply bind_quiet; [auto with frame|intros item].
    apply bind_quiet; [auto with frame|intros _].
    apply bind_quiet; [auto with frame|intros accessToken].
    destruct (negb (truthy item) || negb (truthy accessToken));
      auto with frame.
Qed.

Lemma getAccessToken_logged (fam : Family) (logger : bool) (entry : LogEntry)
  (w : World) :
  getAccessToken host fam (logged logger entry w)
  = (result (getAccessToken host fam w),
     logged logger entry (final (getAccessToken host fam w))).
Proof.
  destruct logger; simpl; [apply getAccessToken_independent|].
  now destruct (getAccessToken host fam w).
Qed.

End TokenCacheFrames.

(** ** Failures of client calls *)

Lemma failures_app (l1 l2 : list Invocation) :
  failures (l1 ++ l2) = (failures l1 ++ failures l2)%list.
Proof.
  induction l1 as [|i r IH]; simpl; [reflexivity|].
  destruct (inv_failure i); simpl; now rewrite IH.
Qed.

Section SurfacingRules.

Variable host : Host.

Lemma quiet_surfacing {A} (m : M A) : Quiet m -> Surfacing m.
Proof.
  intros Hq w. exists []. destruct (Hq w) as (H & _).
  rewrite app_nil_r. split; [exact H|]. intros e [].
Qed.

Lemma bind_surfacing {A B} (m : M A) (k : A -> M B) :
  Surfacing m -> (forall a, Surfacing (k a)) -> Surfacing (bind m k).
Proof.
  intros Hm Hk w. destruct (Hm w) as (new1 & Hlog1 & Hfail1).
  unfold bind, result, final in *.
  destruct (m w) as [[e|a] w1]; simpl in *.
  - exists new1. split; [assumption|].
    intros e0 He. specialize (Hfail1 e0 He). now injection Hfail1 as ->.
  - destruct (Hk a w1) as (new2 & Hlog2 & Hfail2).
    unfold result, final in *.
    exists (new1 ++ new2)%list. split.
    + rewrite Hlog2, Hlog1. now rewrite app_assoc.
    + intros e He. rewrite failures_app in He. apply in_app_or in He.
      destruct He as [He|He]; [|now apply Hfail2].
      specialize (Hfail1 e He). discriminate.
Qed.

Lemma call_surfacing (tok : value) (c : ApiCall) : Surfacing (call host tok c).
Proof.
  intros w. unfold call, result, final. simpl.
  eexists. split; [reflexivity|]. simpl.
  destruct (respond host (apiLog w) tok c) as [e|r]; simpl.
  - intros e' [<-|[]]. reflexivity.
  - intros e' [].
Qed.

Lemma log_surfacing (logger : bool) (lv : Level) (msg : string)
  (d : list (string * LogValue)) : Surfacing (log logger lv msg d).
Proof.
  intros w. exists []. rewrite log_run. unfold final, result. simpl.
  rewrite logged_apiLog, app_nil_r. split; [reflexivity|]. intros e [].
Qed.

Lemma rethrow_logged_surfacing {A} (logger : bool) (msg : string)
  (body : M A) :
  Surfacing body -> Surfacing (rethrow_logged logger msg body).
Proof.
  intros Hb w. destruct (Hb w) as (new & Hlog & Hfail).
  exists new. unfold rethrow_logged, try_catch, bind, result, final in *.
  destruct (body w) as [[e|a] w1]; simpl in *; [|split; assumption].
  rewrite log_run. simpl. rewrite logged_apiLog. split; assumption.
Qed.

(** What the [catch] block leaves in the log. *)
Lemma rethrow_logged_logs {A} (logger : bool) (msg : string) (body : M A)
  (w : World) (e : exn) :
  result (rethrow_logged logger msg body w) = inl e ->
  logger = true ->
  exists l,
    logs (final (rethrow_logged logger msg body w))
    = (l ++ [error_entry msg e])%list.
Proof.
  intros Hres ->. unfold rethrow_logged, try_catch, bind, result, final in *.
  destruct (body w) as [[e'|a] w1]; simpl in *; [|discriminate].
  injection Hres as <-. now exists (logs w1).
Qed.

(** Every tool has this shape. *)
Lemma tool_surfaces {A} (logger : bool) (msg0 msg : string)
  (d : list (string * LogValue)) (body : M A) :
  Surfacing body ->
  surfaces logger msg (log logger Info msg0 d ;;; rethrow_logged logger msg body).
Proof.
  intros Hb w e He.
  pose proof (rethrow_logged_surfacing logger msg body Hb) as Hr.
  unfold bind in *. rewrite log_run in *.
  set (w0 := logged logger _ w) in *.
  destruct (Hr w0) as (new & Hlog & Hfail).
  assert (Hnew : new_calls w (final (rethrow_logged logger msg body w0)) = new).
  { unfold new_calls. rewrite Hlog. unfold w0. rewrite logged_apiLog.
    apply skipn_app_exact. }
  rewrite Hnew in He. specialize (Hfail e He). split; [exact Hfail|].
  intros Hlogger. now apply rethrow_logged_logs.
Qed.

Lemma getCalendarClient_surfacing : Surfacing (getCalendarClient host).
Proof.
  apply bind_surfacing; [apply quiet_surfacing, getAccessToken_quiet|].
  intros a. apply quiet_surfacing, ret_quiet.
Qed.

Lemma getGmailClient_surfacing : Surfacing (getGmailClient host).
Proof.
  apply bind_surfacing; [apply quiet_surfacing, getAccessToken_quiet|].
  intros a. apply quiet_surfacing, ret_quiet.
Qed.

Lemma ret_surfacing {A} (a : A) : Surfacing (ret a).
Proof. apply quiet_surfacing, ret_quiet. Qed.

Lemma gets_surfacing {A} (f : World -> A) : Surfacing (gets f).
Proof. apply quiet_surfacing, gets_quiet. Qed.

End SurfacingRules.

Create HintDb surfacing.
#[local] Hint Resolve bind_surfacing call_surfacing log_surfacing
  getCalendarClient_surfacing getGmailClient_surfacing ret_surfacing
  gets_surfacing : surfacing.

Section ToolsSurface.

Variable host : Host.
Variable logger : bool.

Lemma createCalendarEventTool_surfaces (context : CreateCalendarEventInput) :
  surfaces logger "❌ [createCalendarEventTool] Failed to create event"
    (createCalendarEventTool host logger context).
Proof.
  apply tool_surfaces.
  apply bind_surfacing; [auto with surfacing|intros calendar].
  destruct (ce_allDay context) as [[|]|]; auto 8 with surfacing.
Qed.

Lemma listUpcomingEventsTool_surfaces (context : ListUpcomingEventsInput) :
  surfaces logger "❌ [listUpcomingEventsTool] Failed to list events"
    (listUpcomingEventsTool host logger context).
Proof. apply tool_surfaces. auto 10 with surfacing. Qed.

Lemma getEmailContentTool_surfaces (emailId : string) :
  surfaces logger "❌ [getEmailContentTool] Failed to get email content"
    (getEmailContentTool host logger emailId).
Proof. apply tool_surfaces. auto 10 with surfacing. Qed.

Lemma createOrGetLabelTool_surfaces (labelName : string) :
  surfaces logger "❌ [createOrGetLabelTool] Failed to create/get label"
    (createOrGetLabelTool host logger labelName).
Proof.
  apply tool_surfaces.
  apply bind_surfacing; [auto with surfacing|intros gmail].
  apply bind_surfacing; [auto with surfacing|intros labelsResponse].
  destruct (findLabel (r_labels labelsResponse) labelName);
    auto 8 with surfacing.
Qed.

Lemma addLabelToEmailTool_surfaces (emailId labelId : string) :
  surfaces logger "❌ [addLabelToEmailTool] Failed to add label"
    (addLabelToEmailTool host logger emailId labelId).
Proof. apply tool_surfaces. auto 10 with surfacing. Qed.

Lemma createDraftReplyTool_surfaces (context : CreateDraftReplyInput) :
  surfaces logger "❌ [createDraftReplyTool] Failed to create draft"
    (createDraftReplyTool host logger context).
Proof. apply tool_surfaces. auto 10 with surfacing. Qed.

End ToolsSurface.

(** ** listEmailsTool: the per-message calls *)

Section ListEmails.

Variable host : Host.
Variable logger : bool.

(** The loop never throws; it only issues [messages.get] calls, and
    every one of them that fails leaves a warning that carries the
    failure. *)
Lemma fetchSummaries_run (gmail : GmailClient) (messages : list Message) :
  forall (emails : list EmailSummary) (w : World),
  exists out w' calls lgs,
    fetchSummaries host logger gmail messages emails w = (inr out, w')
    /\ apiLog w' = (apiLog w ++ calls)%list
    /\ logs w' = (logs w ++ lgs)%list
    /\ Forall (fun i => is_get (inv_call i) = true) calls
    /\ (logger = true ->
        forall e, In e (failures calls) ->
                  exists msg, In (warn_entry msg e) lgs)
    /\ (List.length out + List.length (failures calls)
        = List.length emails + List.length calls)%nat.
Proof.
  induction messages as [|message rest IH]; intros emails w.
  - exists emails, w, [], []. simpl. rewrite !app_nil_r.
    split; [reflexivity|]. split; [reflexivity|]. split; [reflexivity|].
    split; [constructor|]. split; [intros _ e []|simpl; lia].
  - cbn [fetchSummaries]. unfold bind at 1. unfold try_catch, bind, call.
    destruct (respond host (apiLog w) (gmail_access_token gmail)
                (Gmail_messages_get "me" (m_id message) "metadata"
                   (Some ["Subject"; "From"; "Date"]))) as [err|emailData]
      eqn:Hget.
    + rewrite log_run. cbn [ret failure_of].
      match goal with
      | |- context [fetchSummaries host logger gmail rest emails ?w1] =>
          destruct (IH emails w1)
            as (out & w' & calls & lgs & Hrun & Hcalls & Hlogs & Hget' & Hwarn
                & Hlen)
      end.
      rewrite Hrun. rewrite logged_apiLog in Hcalls. cbn in Hcalls.
      eexists out, w', (_ :: calls),
        (if logger
         then warn_entry ("⚠️ [listEmailsTool] Failed to fetch email "
                            ++ show_opt (m_id message)) err :: lgs
         else lgs).
      split; [reflexivity|].
      split; [rewrite Hcalls, <- app_assoc; reflexivity|].
      split.
      { rewrite Hlogs. destruct logger; cbn; [rewrite <- app_assoc|];
          reflexivity. }
      split; [constructor; [reflexivity|exact Hget']|].
      split; [|cbn; lia].
      intros Hl e He. cbn in He. destruct He as [<-|He].
      * rewrite Hl. eexists. left. reflexivity.
      * destruct (Hwarn Hl e He) as (msg & Hin). exists msg.
        rewrite Hl. right. exact Hin.
    + cbn [ret failure_of].
      match goal with
      | |- context [fetchSummaries host logger gmail rest ?em ?w1] =>
          destruct (IH em w1)
            as (out & w' & calls & lgs & Hrun & Hcalls & Hlogs & Hget' & Hwarn
                & Hlen)
      end.
      rewrite Hrun. cbn in Hcalls, Hlogs.
      eexists out, w', (_ :: calls), lgs. split; [reflexivity|].
      split; [rewrite Hcalls, <- app_assoc; reflexivity|].
      split; [exact Hlogs|].
      split; [constructor; [reflexivity|exact Hget']|].
      split; [|rewrite length_app in Hlen; cbn in *; lia].
      intros Hl e He. cbn in He. now apply Hwarn.
Qed.

End ListEmails.

Section ListEmailsFailures.

Variable host : Host.
Variable logger : bool.

(** The three ways the [try] block of listEmailsTool can go: the token is
    refused; the [messages.list] call fails; or the listing succeeds and
    the block succeeds whatever the [messages.get] calls do. *)
Lemma listEmails_try_block (context : ListEmailsInput) (w : World) :
  let body :=
    (gmail <- getGmailClient host ;;
     listResponse <- call host (gmail_access_token gmail)
                       (Gmail_messages_list "me"
                          (num_or (le_maxResults context) 50)
                          (str_or (le_query context) "")) ;;
     let messages :=
       match r_messages listResponse with Some l => l | None => [] end in
     log logger Info
       ("📧 [listEmailsTool] Found " ++ show_nat (List.length messages)
          ++ " emails") [] ;;;
     emails <- fetchSummaries host logger gmail messages [] ;;
     log logger Info
       ("✅ [listEmailsTool] Successfully retrieved "
          ++ show_nat (List.length emails) ++ " emails") [] ;;;
     ret {| leo_emails := emails; leo_totalCount := List.length emails |}) in
  (exists e w', body w = (inl e, w') /\ apiLog w' = apiLog w)
  \/ (exists e w' inv,
        body w = (inl e, w') /\ apiLog w' = (apiLog w ++ [inv])%list
        /\ inv_failure inv = Some e
        /\ inv_call inv
           = Gmail_messages_list "me" (num_or (le_maxResults context) 50)
               (str_or (le_query context) ""))
  \/ (exists out w' inv calls lgs,
        body w = (inr out, w')
        /\ apiLog w' = (apiLog w ++ inv :: calls)%list
        /\ inv_failure inv = None
        /\ inv_call inv
           = Gmail_messages_list "me" (num_or (le_maxResults context) 50)
               (str_or (le_query context) "")
        /\ Forall (fun i => is_get (inv_call i) = true) calls
        /\ logs w' = (logs w ++ lgs)%list
        /\ (logger = true ->
            forall e, In e (failures calls) ->
                      exists msg, In (warn_entry msg e) lgs)
        /\ leo_totalCount out = List.length (leo_emails out)
        /\ (List.length (leo_emails out) + List.length (failures calls)
            = List.length calls)%nat).
Proof.
  intros body. unfold body. rewrite bind_run, getGmailClient_run.
  destruct (getAccessToken_quiet host Mail w) as (Hq1 & Hq2 & _).
  unfold final in Hq1, Hq2.
  destruct (getAccessToken host Mail w) as [[err|tok] w1]; simpl in Hq1, Hq2;
    cbv beta iota.
  - left. now exists err, w1.
  - cbn [gmail_access_token]. rewrite bind_run, call_run.
    destruct (respond host (apiLog w1) tok
                (Gmail_messages_list "me" (num_or (le_maxResults context) 50)
                   (str_or (le_query context) ""))) as [err|listResponse];
      cbv beta iota zeta.
    + right; left. eexists err, _, _. split; [reflexivity|].
      cbn. rewrite Hq1. repeat split.
    + right; right. cbn [failure_of]. rewrite bind_run, log_run.
      cbv beta iota. rewrite bind_run.
      match goal with
      | |- context [fetchSummaries host logger ?g ?ms [] ?w2] =>
          destruct (fetchSummaries_run host logger g ms [] w2)
            as (out & w' & calls & lgs & Hrun & Hcalls & Hlogs & Hget & Hwarn
                & Hcount)
      end.
      rewrite Hrun. cbv beta iota. rewrite bind_run, log_run.
      cbv beta iota. cbn [ret].
      rewrite logged_apiLog in Hcalls. cbn in Hcalls, Hlogs.
      eexists _, _, _, calls,
        ((if logger then [_] else []) ++ lgs ++ (if logger then [_] else []))%list.
      split; [reflexivity|].
      rewrite logged_apiLog, Hcalls, Hq1, <- app_assoc.
      split; [reflexivity|]. split; [reflexivity|]. split; [reflexivity|].
      split; [exact Hget|].
      split.
      * destruct logger; cbn; rewrite Hlogs; cbn; rewrite Hq2;
          rewrite <- ?app_assoc; cbn; rewrite ?app_nil_r; reflexivity.
      * split; [|split; [reflexivity|exact Hcount]].
        intros Hl e He. destruct (Hwarn Hl e He) as (msg & Hin).
        exists msg. apply in_or_app. right. apply in_or_app. now left.
Qed.

End ListEmailsFailures.

Lemma failure_in_failures (calls : list Invocation) (i : Invocation) (e : exn) :
  In i calls -> inv_failure i = Some e -> In e (failures calls).
Proof.
  induction calls as [|c r IH]; intros Hin He; [destruct Hin|].
  simpl. destruct Hin as [->|Hin].
  - rewrite He. now left.
  - destruct (inv_failure c); [right|]; auto.
Qed.

Section ListEmailsTool.

Variable host : Host.
Variable logger : bool.

(** A client call that fails during listEmailsTool: when it is the
    listing, the tool fails with it after logging it as an error; when
    it is a per-message [messages.get], the tool logs it as a warning
    and still succeeds. *)
Lemma listEmailsTool_failures (context : ListEmailsInput) (w : World)
  (i : Invocation) (e : exn) :
  In i (new_calls w (final (listEmailsTool host logger context w))) ->
  inv_failure i = Some e ->
  if is_get (inv_call i)
  then (exists out,
           result (listEmailsTool host logger context w) = inr out
           /\ leo_totalCount out = List.length (leo_emails out)
           /\ (List.length (leo_emails out)
               + List.length
                   (failures
                      (new_calls w
                         (final (listEmailsTool host logger context w))))
               + 1
               = List.length
                   (new_calls w
                      (final (listEmailsTool host logger context w))))%nat)
       /\ (logger = true ->
           exists msg,
             In (warn_entry msg e)
                (new_logs w (final (listEmailsTool host logger context w))))
  else result (listEmailsTool host logger context w) = inl e
       /\ (logger = true ->
           exists l,
             logs (final (listEmailsTool host logger context w))
             = (l ++ [error_entry "❌ [listEmailsTool] Failed to list emails"
                        e])%list).
Proof.
  unfold listEmailsTool. rewrite bind_run, log_run. cbv beta iota.
  rewrite rethrow_logged_run.
  match goal with
  | |- context [logged logger ?entry w] => set (w0 := logged logger entry w)
  end.
  assert (Hw0 : apiLog w0 = apiLog w) by apply logged_apiLog.
  pose proof (listEmails_try_block host logger context w0) as Hb.
  cbv zeta in Hb. cbv zeta.
  destruct Hb as [(e' & w' & Hrun & Hlog)
                 |[(e' & w' & inv & Hrun & Hlog & Hfail & Hcall)
                  |(out & w' & inv & calls & lgs & Hrun & Hlog & Hfail & Hcall
                    & Hget & Hlogs & Hwarn & Htotal & Hcount)]];
    rewrite Hrun; unfold new_calls, new_logs, result, final; cbn [fst snd];
    rewrite ?logged_apiLog, Hlog, Hw0.
  - rewrite skipn_all. intros [].
  - rewrite skipn_app_exact. intros [<-|[]] He. rewrite Hcall. cbn [is_get].
    rewrite Hfail in He. injection He as <-. split; [reflexivity|].
    intros ->. now exists (logs w').
  - rewrite skipn_app_exact. intros [<-|Hin] He; [congruence|].
    rewrite Forall_forall in Hget. rewrite (Hget i Hin).
    split.
    { exists out. split; [reflexivity|]. split; [exact Htotal|].
      cbn [failures List.length]. rewrite Hfail. lia. }
    intros Hl.
    destruct (Hwarn Hl e (failure_in_failures _ _ _ Hin He)) as (msg & Hmsg).
    exists msg. rewrite Hlogs. unfold w0. rewrite Hl. cbn.
    rewrite <- app_assoc, skipn_app_exact. right. exact Hmsg.
Qed.

End ListEmailsTool.

(** C4 as stated fails for listEmailsTool: a [messages.get] that fails is
    caught inside the loop and the tool reports success, with the
    message left out. *)
Lemma failed_get_is_swallowed :
  let host := Scenario.serving Scenario.one_unreadable_message in
  let run := listEmailsTool host true Scenario.no_input Scenario.cold in
  failures (new_calls Scenario.cold (final run)) = [Scenario.backend_error]
  /\ result run = inr {| leo_emails := []; leo_totalCount := 0 |}
  /\ ~ surfaces true "❌ [listEmailsTool] Failed to list emails"
         (listEmailsTool host true Scenario.no_input).
Proof.
  cbv zeta. split; [vm_compute; reflexivity|].
  split; [vm_compute; reflexivity|].
  intros H.
  destruct (H Scenario.cold Scenario.backend_error) as [Hres _].
  - vm_compute. now left.
  - vm_compute in Hres. discriminate.
Qed.

(** C4 (amended): in the six tools other than listEmailsTool, and for the
    listing call of listEmailsTool, a client call that fails is the
    failure the tool ends with, logged last as an error when there is a
    logger. A [messages.get] that fails inside listEmailsTool is logged
    as a warning instead and the tool still succeeds, with one record
    per [messages.get] that went through: the records, the failed calls
    and the listing add up to the calls made. *)
Theorem client_failures_surface (host : Host) (logger : bool) :
  (forall context,
      surfaces logger "❌ [createCalendarEventTool] Failed to create event"
        (createCalendarEventTool host logger context))
  /\ (forall context,
         surfaces logger "❌ [listUpcomingEventsTool] Failed to list events"
           (listUpcomingEventsTool host logger context))
  /\ (forall emailId,
         surfaces logger "❌ [getEmailContentTool] Failed to get email content"
           (getEmailContentTool host logger emailId))
  /\ (forall labelName,
         surfaces logger "❌ [createOrGetLabelTool] Failed to create/get label"
           (createOrGetLabelTool host logger labelName))
  /\ (forall emailId labelId,
         surfaces logger "❌ [addLabelToEmailTool] Failed to add label"
           (addLabelToEmailTool host logger emailId labelId))
  /\ (forall context,
         surfaces logger "❌ [createDraftReplyTool] Failed to create draft"
           (createDraftReplyTool host logger context))
  /\ (forall context w i e,
         In i (new_calls w (final (listEmailsTool host logger context w))) ->
         inv_failure i = Some e ->
         if is_get (inv_call i)
         then (exists out,
                  result (listEmailsTool host logger context w) = inr out
                  /\ leo_totalCount out = List.length (leo_emails out)
                  /\ (List.length (leo_emails out)
                      + List.length
                          (failures
                             (new_calls w
                                (final (listEmailsTool host logger context
                                          w))))
                      + 1
                      = List.length
                          (new_calls w
                             (final (listEmailsTool host logger context
                                       w))))%nat)
              /\ (logger = true ->
                  exists msg,
                    In (warn_entry msg e)
                       (new_logs w
                          (final (listEmailsTool host logger context w))))
         else result (listEmailsTool host logger context w) = inl e
              /\ (logger = true ->
                  exists l,
                    logs (final (listEmailsTool host logger context w))
                    = (l ++ [error_entry
                               "❌ [listEmailsTool] Failed to list emails" e])%list)).
Proof.
  split; [intros; apply createCalendarEventTool_surfaces|].
  split; [intros; apply listUpcomingEventsTool_surfaces|].
  split; [intros; apply getEmailContentTool_surfaces|].
  split; [intros; apply createOrGetLabelTool_surfaces|].
  split; [intros; apply addLabelToEmailTool_surfaces|].
  split; [intros; apply createDraftReplyTool_surfaces|].
  apply listEmailsTool_failures.
Qed.

(** ** Running a tool *)

Section ToolRuns.

Variable host : Host.
Variable logger : bool.

(** Every tool: log, then the [try] block with its [catch]. *)
Lemma tool_run {A} (msg0 msg : string) (d : list (string * LogValue))
  (body : M A) (w : World) :
  (log logger Info msg0 d ;;; rethrow_logged logger msg body) w
  = match body (logged logger
                  {| level := Info; message := msg0; data := d |} w) with
    | (inl e, w') => (inl e, logged logger (error_entry msg e) w')
    | (inr a, w') => (inr a, w')
    end.
Proof. rewrite bind_run, log_run. apply rethrow_logged_run. Qed.

(** A token obtained in [w] is obtained just the same once the opening
    line is logged, and the client trace and clock are those of [w]. *)
Lemma token_after_log (fam : Family) (entry : LogEntry) (w w1 : World)
  (tok : value) :
  getAccessToken host fam w = (inr tok, w1) ->
  getAccessToken host fam (logged logger entry w)
  = (inr tok, logged logger entry w1)
  /\ apiLog (logged logger entry w1) = apiLog w
  /\ time (logged logger entry w1) = time w.
Proof.
  intros H. rewrite getAccessToken_logged, H. split; [reflexivity|].
  destruct (getAccessToken_quiet host fam w) as (Ha & _ & Ht).
  rewrite H in Ha, Ht. unfold final in Ha, Ht. simpl in Ha, Ht.
  destruct logger; simpl; auto.
Qed.

End ToolRuns.

(** Enter a tool whose token is obtained: past the opening log line and
    the client factory, at the first client call. *)
Ltac enter_tool host logger fam w w1 tok Htok Hlog Htime :=
  rewrite tool_run, bind_run;
  first [rewrite getGmailClient_run | rewrite getCalendarClient_run];
  match goal with
  | |- context [logged logger ?entry w] =>
      let Hrun := fresh "Hrun" in
      destruct (token_after_log host logger fam entry w w1 tok Htok)
        as (Hrun & Hlog & Htime);
      rewrite Hrun; cbv beta iota
  end.

(** ** getEmailContentTool: the body *)

(** The two ways the bytes of a text are written in base64: standard
    with padding, and what Gmail sends, URL-safe without padding. *)
Lemma encodes_decodes (text data : string) :
  data = Buffer.toStringBase64 (Buffer.from text)
  \/ data = encodeMessage text ->
  Buffer.fromBase64 data = Buffer.from text.
Proof.
  intros [-> | ->].
  - apply BufferFacts.fromBase64_toStringBase64.
  - apply fromBase64_encodeMessage.
Qed.

(** A top-level body holding the base64 of a text is that text, the
    empty text included (empty data is no data, the body stays ""). *)
Lemma top_level_body (mimeType : option string)
  (headers : option (list Header)) (text data : string) :
  Buffer.well_formed (Buffer.from text) ->
  Buffer.fromBase64 data = Buffer.from text ->
  extractBody
    (Some (mkMessagePart mimeType headers (Some {| b_data := Some data |})
             None))
  = text.
Proof.
  intros Hwf Hdec. unfold extractBody, body_data. simpl.
  destruct (data =? "") eqn:E.
  - apply String.eqb_eq in E. subst data. unfold Buffer.from in Hdec.
    rewrite <- (string_of_list_ascii_of_string text), <- Hdec. reflexivity.
  - unfold decode. rewrite Hdec. now apply BufferFacts.toStringUtf8_from.
Qed.

(** Parts before the first plain-text part with data do not matter,
    whatever they set [body] to; parts after it are not looked at. *)
Lemma scanParts_first_plain (pre post : list MessagePart)
  (plain : MessagePart) (data : string) :
  (forall p, In p pre -> part_text "text/plain" p = None) ->
  part_text "text/plain" plain = Some data ->
  forall body, scanParts (pre ++ plain :: post) body = decode data.
Proof.
  intros Hpre Hplain. induction pre as [|p r IH]; intros body; simpl.
  - now rewrite Hplain.
  - rewrite (Hpre p (or_introl eq_refl)).
    destruct (part_text "text/html" p); apply IH;
      intros q Hq; apply Hpre; now right.
Qed.

(** C5 (amended): a payload with only a top-level body that is the
    base64 (standard, or URL-safe without padding) of a well-formed UTF-8
    string decodes to that string; a payload without top-level body data
    whose direct parts (the elements of [payload.parts] themselves)
    contain a [text/plain] part with data yields the decoded data of the
    first such part, wherever the other parts (HTML or not) stand; and
    the body the tool returns is the one extracted from the payload it
    fetched. *)
Theorem body_decoding (host : Host) (logger : bool) :
  (forall mimeType headers text data,
      Buffer.well_formed (Buffer.from text) ->
      data = Buffer.toStringBase64 (Buffer.from text)
      \/ data = encodeMessage text ->
      extractBody
        (Some (mkMessagePart mimeType headers
                 (Some {| b_data := Some data |}) None))
      = text)
  /\ (forall mimeType headers body pre plain post data,
         body_data (mkMessagePart mimeType headers body
                      (Some (pre ++ plain :: post)%list)) = None ->
         (forall p, In p pre -> part_text "text/plain" p = None) ->
         part_text "text/plain" plain = Some data ->
         extractBody
           (Some (mkMessagePart mimeType headers body
                    (Some (pre ++ plain :: post)%list)))
         = decode data)
  /\ (forall emailId w tok w1 emailData,
         getGmailAccessToken host w = (inr tok, w1) ->
         respond host (apiLog w) tok
           (Gmail_messages_get "me" (Some emailId) "full" None)
         = inr emailData ->
         exists out,
           result (getEmailContentTool host logger emailId w) = inr out
           /\ ec_body out = extractBody (m_payload emailData)).
Proof.
  split; [|split].
  - intros mimeType headers text data Hwf Henc.
    apply top_level_body; [exact Hwf|]. now apply encodes_decodes.
  - intros mimeType headers body pre plain post data Hnone Hpre Hplain.
    unfold extractBody. rewrite Hnone. simpl.
    now apply scanParts_first_plain.
  - intros emailId w tok w1 emailData Htok Hget.
    unfold getEmailContentTool.
    enter_tool host logger Mail w w1 tok Htok Hlog Htime.
    cbn [gmail_access_token].
    rewrite bind_run, call_run, Hlog, Hget. cbv beta iota zeta.
    rewrite bind_run, log_run. cbv beta iota. cbn [ret result fst].
    eexists. split; reflexivity.
Qed.

Lemma body_decoding_witness :
  extractBody
    (Some (mkMessagePart None None
             (Some {| b_data := Some (Buffer.toStringBase64
                                        (Buffer.from "Hi")) |}) None))
  = "Hi"
  /\ extractBody (Some Scenario.html_then_plain) = "Hi".
Proof.
  destruct (body_decoding (Scenario.connector VNull) true) as (H1 & H2 & _).
  split.
  - apply (H1 None None "Hi"); [|now left].
    apply Buffer.wf_ascii; [vm_compute; discriminate|].
    apply Buffer.wf_ascii; [vm_compute; discriminate|].
    apply Buffer.wf_nil.
  - change (extractBody
              (Some (mkMessagePart (Some "multipart/alternative") None
                       (Some {| b_data := None |})
                       (Some ([mkMessagePart (Some "text/html") None
                                 (Some {| b_data := Some "PGI+SGk8L2I+" |})
                                 None]
                                ++ mkMessagePart (Some "text/plain") None
                                     (Some {| b_data := Some "SGk=" |}) None
                                :: [])%list)))
            = decode "SGk=").
    apply H2; [reflexivity| |reflexivity].
    intros p [<-|[]]. reflexivity.
Defined.

(** C5 as stated fails: a payload may contain a [text/plain] and a
    [text/html] part, each with body data, below the first level, as in
    a message with an attachment (multipart/mixed holding
    multipart/alternative). The loop reads the direct parts only, so the
    body returned is empty, not the decoded plain text. *)
Lemma nested_plain_part_is_not_read :
  let payload := Mailbox.with_attachment in
  let host := Scenario.serving (Mailbox.full_of Mailbox.mail_with_attachment) in
  (exists plain html,
      In plain (all_parts payload) /\ In html (all_parts payload)
      /\ part_text "text/plain" plain = Some "SGk="
      /\ part_text "text/html" html = Some "PGI+SGk8L2I+")
  /\ decode "SGk=" = "Hi"
  /\ extractBody (Some payload) = ""
  /\ exists out,
       result (getEmailContentTool host true "m7" Scenario.cold) = inr out
       /\ ec_body out = "".
Proof.
  cbv zeta. split; [|split; [|split]].
  - eexists _, _. split; [right; right; left; reflexivity|].
    split; [right; left; reflexivity|]. split; reflexivity.
  - reflexivity.
  - reflexivity.
  - eexists. split; [vm_compute; reflexivity|reflexivity].
Qed.

(** ** createOrGetLabelTool *)

Lemma opt_eqb_true (a : option string) (b : string) :
  opt_eqb a b = true <-> a = Some b.
Proof.
  destruct a as [s|]; simpl; [|split; discriminate].
  rewrite String.eqb_eq. split; congruence.
Qed.

Lemma findLabel_first (pre post : list Label) (existing : Label)
  (labelName : string) :
  (forall l, In l pre -> l_name l <> Some labelName) ->
  l_name existing = Some labelName ->
  findLabel (Some (pre ++ existing :: post)%list) labelName = Some existing.
Proof.
  intros Hpre Hex. unfold findLabel.
  induction pre as [|p r IH]; simpl.
  - apply opt_eqb_true in Hex. now rewrite Hex.
  - destruct (opt_eqb (l_name p) labelName) eqn:E.
    + apply opt_eqb_true in E. now destruct (Hpre p (or_introl eq_refl)).
    + apply IH. intros l Hl. apply Hpre. now right.
Qed.

Lemma findLabel_none (labels : option (list Label)) (labelName : string) :
  (forall l ls, labels = Some ls -> In l ls -> l_name l <> Some labelName) ->
  findLabel labels labelName = None.
Proof.
  intros H. destruct labels as [ls|]; [|reflexivity]. simpl.
  assert (Hall : forall l, In l ls -> l_name l <> Some labelName)
    by (intros l Hl; exact (H l ls eq_refl Hl)).
  clear H. induction ls as [|p r IH]; [reflexivity|]. simpl.
  destruct (opt_eqb (l_name p) labelName) eqn:E.
  - apply opt_eqb_true in E. now destruct (Hall p (or_introl eq_refl)).
  - apply IH. intros l Hl. apply Hall. now right.
Qed.

(** C7: once the token is obtained and the labels are listed, (1) if the
    listing has an entry with exactly this name, the tool returns the id
    of the first such entry with [created = false], and the listing is
    the only client call; (2) if no entry has this name, the tool issues
    one create call, with "labelShow" and "show", and returns the id of
    the created label with [created = true]. *)
Theorem create_or_get_label (host : Host) (logger : bool) (labelName : string)
  (w w1 : World) (tok : value) (labelsResponse : ListLabelsResponse) :
  getGmailAccessToken host w = (inr tok, w1) ->
  respond host (apiLog w) tok (Gmail_labels_list "me") = inr labelsResponse ->
  (forall pre existing post,
      r_labels labelsResponse = Some (pre ++ existing :: post)%list ->
      (forall l, In l pre -> l_name l <> Some labelName) ->
      l_name existing = Some labelName ->
      result (createOrGetLabelTool host logger labelName w)
      = inr {| lo_labelId := l_id existing; lo_labelName := labelName;
               lo_created := false |}
      /\ new_calls w (final (createOrGetLabelTool host logger labelName w))
         = [succeeded tok (Gmail_labels_list "me")])
  /\ (forall created,
         (forall l ls, r_labels labelsResponse = Some ls -> In l ls ->
                       l_name l <> Some labelName) ->
         respond host
           (apiLog w ++ [succeeded tok (Gmail_labels_list "me")])%list tok
           (Gmail_labels_create "me" labelName "labelShow" "show")
         = inr created ->
         result (createOrGetLabelTool host logger labelName w)
         = inr {| lo_labelId := l_id created; lo_labelName := labelName;
                  lo_created := true |}
         /\ new_calls w (final (createOrGetLabelTool host logger labelName w))
            = [succeeded tok (Gmail_labels_list "me");
               succeeded tok
                 (Gmail_labels_create "me" labelName "labelShow" "show")]).
Proof.
  intros Htok Hlist. unfold createOrGetLabelTool, succeeded. split.
  - intros pre existing post Hlabels Hpre Hex.
    enter_tool host logger Mail w w1 tok Htok Hlog Htime.
    cbn [gmail_access_token].
    rewrite bind_run, call_run, Hlog, Hlist. cbv beta iota.
    rewrite Hlabels, (findLabel_first pre post existing labelName Hpre Hex).
    rewrite bind_run, log_run. cbv beta iota. cbn [ret result final fst snd].
    split; [reflexivity|].
    unfold new_calls. rewrite logged_apiLog. cbn [apiLog record_call].
    rewrite Hlog. apply skipn_app_exact.
  - intros created Hnone Hcreate.
    enter_tool host logger Mail w w1 tok Htok Hlog Htime.
    cbn [gmail_access_token].
    rewrite bind_run, call_run, Hlog, Hlist. cbv beta iota.
    rewrite (findLabel_none (r_labels labelsResponse) labelName Hnone).
    rewrite bind_run, call_run. cbn [apiLog record_call failure_of].
    rewrite Hlog, Hcreate. cbv beta iota.
    rewrite bind_run, log_run. cbv beta iota. cbn [ret result final fst snd].
    split; [reflexivity|].
    unfold new_calls. rewrite logged_apiLog. cbn [apiLog record_call].
    rewrite Hlog, <- app_assoc. apply skipn_app_exact.
Qed.

(** ** The two list tools *)

Section ListTools.

Variable host : Host.
Variable logger : bool.

(** The events tool maps what the provider lists, one record per item. *)
Lemma listUpcomingEventsTool_lists (context : ListUpcomingEventsInput)
  (w w1 : World) (tok : value) (response : Events) :
  getCalendarAccessToken host w = (inr tok, w1) ->
  respond host (apiLog w) tok
    (Calendar_events_list "primary" (num_or (lu_maxResults context) 50)
       (str_or (lu_timeMin context) (toISOString host (time w)))
       true "startTime")
  = inr response ->
  result (listUpcomingEventsTool host logger context w)
  = inr {| luo_events :=
             map summarizeEvent
               match r_items response with Some l => l | None => [] end;
           luo_totalCount :=
             List.length
               match r_items response with Some l => l | None => [] end |}.
Proof.
  intros Htok Hlist. unfold listUpcomingEventsTool.
  enter_tool host logger Calendar w w1 tok Htok Hlog Htime.
  cbn [calendar_access_token]. rewrite bind_run. cbn [gets].
  cbv beta iota. rewrite Htime, bind_run, call_run, Hlog, Hlist.
  cbv beta iota zeta. rewrite bind_run, log_run. cbv beta iota.
  cbn [ret result fst]. now rewrite length_map.
Qed.

(** The one call of the events tool. *)
Lemma listUpcomingEventsTool_call (context : ListUpcomingEventsInput)
  (w w1 : World) (tok : value) :
  getCalendarAccessToken host w = (inr tok, w1) ->
  map inv_call
    (new_calls w (final (listUpcomingEventsTool host logger context w)))
  = [Calendar_events_list "primary" (num_or (lu_maxResults context) 50)
       (str_or (lu_timeMin context) (toISOString host (time w)))
       true "startTime"].
Proof.
  intros Htok. unfold listUpcomingEventsTool.
  enter_tool host logger Calendar w w1 tok Htok Hlog Htime.
  cbn [calendar_access_token]. rewrite bind_run. cbn [gets].
  cbv beta iota. rewrite Htime, bind_run, call_run, Hlog.
  destruct (respond host (apiLog w) tok _) as [err|response];
    cbv beta iota zeta.
  - unfold new_calls, final. cbn [snd]. rewrite logged_apiLog.
    cbn [apiLog record_call]. rewrite Hlog, skipn_app_exact. reflexivity.
  - rewrite bind_run, log_run. cbv beta iota. cbn [ret].
    unfold new_calls, final. cbn [snd]. rewrite logged_apiLog.
    cbn [apiLog record_call]. rewrite Hlog, skipn_app_exact. reflexivity.
Qed.

(** The mail tool with two messages listed and both fetched. *)
Lemma listEmailsTool_two (context : ListEmailsInput) (w w1 : World)
  (tok : value) (m1 m2 d1 d2 : Message) :
  let listing :=
    Gmail_messages_list "me" (num_or (le_maxResults context) 50)
      (str_or (le_query context) "") in
  let get m :=
    Gmail_messages_get "me" (m_id m) "metadata"
      (Some ["Subject"; "From"; "Date"]) in
  getGmailAccessToken host w = (inr tok, w1) ->
  respond host (apiLog w) tok listing
  = inr {| r_messages := Some [m1; m2] |} ->
  respond host (apiLog w ++ [succeeded tok listing])%list tok (get m1)
  = inr d1 ->
  respond host
    (apiLog w ++ [succeeded tok listing; succeeded tok (get m1)])%list
    tok (get m2)
  = inr d2 ->
  result (listEmailsTool host logger context w)
  = inr {| leo_emails := [summarizeEmail m1 d1; summarizeEmail m2 d2];
           leo_totalCount := 2 |}.
Proof.
  intros listing get Htok Hlist Hget1 Hget2.
  unfold listing, get, succeeded in *. unfold listEmailsTool.
  enter_tool host logger Mail w w1 tok Htok Hlog Htime.
  cbn [gmail_access_token].
  rewrite bind_run, call_run, Hlog, Hlist. cbv beta iota zeta.
  cbn [r_messages failure_of]. rewrite bind_run, log_run. cbv beta iota.
  rewrite bind_run. cbn [fetchSummaries]. rewrite bind_run.
  unfold try_catch at 1. rewrite bind_run, call_run.
  rewrite logged_apiLog. cbn [apiLog record_call gmail_access_token].
  rewrite Hlog, Hget1.
  cbv beta iota. cbn [ret failure_of]. rewrite bind_run.
  unfold try_catch at 1. rewrite bind_run, call_run.
  cbn [apiLog record_call]. rewrite logged_apiLog.
  cbn [apiLog record_call gmail_access_token].
  rewrite Hlog, <- app_assoc. cbn [app]. rewrite Hget2.
  cbv beta iota. cbn [ret failure_of]. rewrite bind_run, log_run.
  cbv beta iota. reflexivity.
Qed.

(** The mail tool with nothing listed. *)
Lemma listEmailsTool_none (context : ListEmailsInput) (w w1 : World)
  (tok : value) (messages : option (list Message)) :
  getGmailAccessToken host w = (inr tok, w1) ->
  messages = None \/ messages = Some [] ->
  respond host (apiLog w) tok
    (Gmail_messages_list "me" (num_or (le_maxResults context) 50)
       (str_or (le_query context) ""))
  = inr {| r_messages := messages |} ->
  result (listEmailsTool host logger context w)
  = inr {| leo_emails := []; leo_totalCount := 0 |}.
Proof.
  intros Htok Hnone Hlist. unfold listEmailsTool.
  enter_tool host logger Mail w w1 tok Htok Hlog Htime.
  cbn [gmail_access_token].
  rewrite bind_run, call_run, Hlog, Hlist. cbv beta iota zeta.
  cbn [r_messages]. rewrite bind_run, log_run. cbv beta iota.
  rewrite bind_run.
  destruct Hnone as [-> | ->]; cbn [fetchSummaries ret]; cbv beta iota;
    rewrite bind_run, log_run; reflexivity.
Qed.

(** The first call of the mail tool is the listing. *)
Lemma listEmailsTool_first_call (context : ListEmailsInput) (w w1 : World)
  (tok : value) :
  getGmailAccessToken host w = (inr tok, w1) ->
  hd_error
    (map inv_call (new_calls w (final (listEmailsTool host logger context w))))
  = Some (Gmail_messages_list "me" (num_or (le_maxResults context) 50)
            (str_or (le_query context) "")).
Proof.
  intros Htok. unfold listEmailsTool.
  enter_tool host logger Mail w w1 tok Htok Hlog Htime.
  cbn [gmail_access_token]. rewrite bind_run, call_run, Hlog.
  destruct (respond host (apiLog w) tok _) as [err|listResponse];
    cbv beta iota zeta.
  - unfold new_calls, final. cbn [snd]. rewrite logged_apiLog.
    cbn [apiLog record_call]. rewrite Hlog, skipn_app_exact. reflexivity.
  - rewrite bind_run, log_run. cbv beta iota. rewrite bind_run.
    match goal with
    | |- context [fetchSummaries host logger ?g ?ms [] ?w2] =>
        destruct (fetchSummaries_run host logger g ms [] w2)
          as (out & w' & calls & lgs & Hrun' & Hcalls & _)
    end.
    rewrite Hrun'. cbv beta iota. rewrite bind_run, log_run.
    cbv beta iota. cbn [ret]. unfold new_calls, final. cbn [snd].
    rewrite logged_apiLog, Hcalls, logged_apiLog. cbn [apiLog record_call].
    rewrite Hlog, <- app_assoc, skipn_app_exact. reflexivity.
Qed.

End ListTools.

(** C8: with [maxResults = 2] and two items available, either list tool
    returns two summarized records and [totalCount = 2]; with no item
    available it returns no record and [totalCount = 0]; and when no cap
    is given (the field is missing, or holds the default the schema
    fills in) the provider is asked for at most 50 results. *)
Theorem list_scenarios (host : Host) (logger : bool) :
  (forall w w1 tok timeMin e1 e2,
      getCalendarAccessToken host w = (inr tok, w1) ->
      respond host (apiLog w) tok
        (Calendar_events_list "primary" 2
           (str_or timeMin (toISOString host (time w))) true "startTime")
      = inr {| r_items := Some [e1; e2] |} ->
      result (listUpcomingEventsTool host logger
                {| lu_maxResults := Some 2%Z; lu_timeMin := timeMin |} w)
      = inr {| luo_events := [summarizeEvent e1; summarizeEvent e2];
               luo_totalCount := 2 |})
  /\ (forall context w w1 tok items,
         getCalendarAccessToken host w = (inr tok, w1) ->
         items = None \/ items = Some [] ->
         respond host (apiLog w) tok
           (Calendar_events_list "primary" (num_or (lu_maxResults context) 50)
              (str_or (lu_timeMin context) (toISOString host (time w)))
              true "startTime")
         = inr {| r_items := items |} ->
         result (listUpcomingEventsTool host logger context w)
         = inr {| luo_events := []; luo_totalCount := 0 |})
  /\ (forall w w1 tok timeMin cap,
         getCalendarAccessToken host w = (inr tok, w1) ->
         cap = None \/ cap = schema_default_maxResults None ->
         map inv_call
           (new_calls w
              (final (listUpcomingEventsTool host logger
                        {| lu_maxResults := cap; lu_timeMin := timeMin |} w)))
         = [Calendar_events_list "primary" 50
              (str_or timeMin (toISOString host (time w))) true "startTime"])
  /\ (forall w w1 tok query m1 m2 d1 d2,
         getGmailAccessToken host w = (inr tok, w1) ->
         respond host (apiLog w) tok
           (Gmail_messages_list "me" 2 (str_or query ""))
         = inr {| r_messages := Some [m1; m2] |} ->
         respond host
           (apiLog w
              ++ [succeeded tok
                    (Gmail_messages_list "me" 2 (str_or query ""))])%list
           tok
           (Gmail_messages_get "me" (m_id m1) "metadata"
              (Some ["Subject"; "From"; "Date"]))
         = inr d1 ->
         respond host
           (apiLog w
              ++ [succeeded tok
                    (Gmail_messages_list "me" 2 (str_or query ""));
                  succeeded tok
                    (Gmail_messages_get "me" (m_id m1) "metadata"
                       (Some ["Subject"; "From"; "Date"]))])%list
           tok
           (Gmail_messages_get "me" (m_id m2) "metadata"
              (Some ["Subject"; "From"; "Date"]))
         = inr d2 ->
         result (listEmailsTool host logger
                   {| le_maxResults := Some 2%Z; le_query := query |} w)
         = inr {| leo_emails := [summarizeEmail m1 d1; summarizeEmail m2 d2];
                  leo_totalCount := 2 |})
  /\ (forall context w w1 tok messages,
         getGmailAccessToken host w = (inr tok, w1) ->
         messages = None \/ messages = Some [] ->
         respond host (apiLog w) tok
           (Gmail_messages_list "me" (num_or (le_maxResults context) 50)
              (str_or (le_query context) ""))
         = inr {| r_messages := messages |} ->
         result (listEmailsTool host logger context w)
         = inr {| leo_emails := []; leo_totalCount := 0 |})
  /\ (forall w w1 tok query cap,
         getGmailAccessToken host w = (inr tok, w1) ->
         cap = None \/ cap = schema_default_maxResults None ->
         hd_error
           (map inv_call
              (new_calls w
                 (final (listEmailsTool host logger
                           {| le_maxResults := cap; le_query := query |} w))))
         = Some (Gmail_messages_list "me" 50 (str_or query ""))).
Proof.
  split; [|split; [|split; [|split; [|split]]]].
  - intros w w1 tok timeMin e1 e2 Htok Hlist.
    now rewrite (listUpcomingEventsTool_lists host logger
                   {| lu_maxResults := Some 2%Z; lu_timeMin := timeMin |}
                   w w1 tok _ Htok Hlist).
  - intros context w w1 tok items Htok Hnone Hlist.
    rewrite (listUpcomingEventsTool_lists host logger context w w1 tok _
               Htok Hlist).
    now destruct Hnone as [-> | ->].
  - intros w w1 tok timeMin cap Htok [-> | ->];
      exact (listUpcomingEventsTool_call host logger
               {| lu_maxResults := _; lu_timeMin := timeMin |} w w1 tok Htok).
  - intros w w1 tok query m1 m2 d1 d2 Htok Hlist Hget1 Hget2.
    exact (listEmailsTool_two host logger
             {| le_maxResults := Some 2%Z; le_query := query |}
             w w1 tok m1 m2 d1 d2 Htok Hlist Hget1 Hget2).
  - intros context w w1 tok messages Htok Hnone Hlist.
    exact (listEmailsTool_none host logger context w w1 tok messages
             Htok Hnone Hlist).
  - intros w w1 tok query cap Htok [-> | ->];
      exact (listEmailsTool_first_call host logger
               {| le_maxResults := _; le_query := query |} w w1 tok Htok).
Qed.

(** ** createDraftReplyTool: the raw message *)

Lemma append_assoc (a b c : string) : (a ++ b) ++ c = a ++ (b ++ c).
Proof. induction a as [|ch r IH]; simpl; [reflexivity|]. now rewrite IH. Qed.

Lemma concat_snoc (sep : string) (l : list string) (x : string) :
  l <> [] ->
  String.concat sep (l ++ [x]) = String.concat sep l ++ sep ++ x.
Proof.
  induction l as [|a [|b r] IH]; intros Hne.
  - now destruct Hne.
  - reflexivity.
  - change (String.concat sep ((a :: b :: r) ++ [x]))
      with (a ++ sep ++ String.concat sep ((b :: r) ++ [x])).
    rewrite IH by discriminate.
    change (String.concat sep (a :: b :: r))
      with (a ++ sep ++ String.concat sep (b :: r)).
    now rewrite !append_assoc.
Qed.

(** What the filter keeps: the header block, then the body if it is not
    empty. *)
Lemma draftLines_filtered (context : CreateDraftReplyInput) :
  filter (fun line => negb (line =? "")) (draftLines context)
  = (headerBlock context
       ++ (if cd_body context =? "" then [] else [cd_body context]))%list.
Proof.
  unfold draftLines, headerBlock.
  destruct (truthy_str (cd_inReplyTo context)) as [r|] eqn:E;
    destruct (cd_body context =? "") eqn:B; cbn; rewrite ?B; reflexivity.
Qed.

(** C10: the raw message is the CRLF-join of the entries that are not
    empty; the empty separator entry never survives the filter, so a
    non-empty body follows the last header line after a single CRLF;
    the encoded message is the unpadded URL-safe base64 of that text
    (it decodes to its bytes), and it is what the draft is created
    with. *)
Theorem raw_message_has_no_blank_line (host : Host) (logger : bool)
  (context : CreateDraftReplyInput) :
  rawMessage context
  = String.concat CRLF
      (filter (fun line => negb (line =? "")) (draftLines context))
  /\ ~ In "" (filter (fun line => negb (line =? "")) (draftLines context))
  /\ (cd_body context <> "" ->
      rawMessage context
      = String.concat CRLF (headerBlock context) ++ CRLF ++ cd_body context)
  /\ Buffer.fromBase64 (encodeMessage (rawMessage context))
     = Buffer.from (rawMessage context)
  /\ (forall w w1 tok,
         getGmailAccessToken host w = (inr tok, w1) ->
         map inv_call
           (new_calls w (final (createDraftReplyTool host logger context w)))
         = [Gmail_drafts_create "me" (encodeMessage (rawMessage context))
              (cd_threadId context)]).
Proof.
  split; [reflexivity|]. split; [|split; [|split]].
  - intros Hin. apply filter_In in Hin as [_ H]. discriminate.
  - intros Hbody. apply String.eqb_neq in Hbody.
    unfold rawMessage. rewrite draftLines_filtered, Hbody.
    apply concat_snoc. unfold headerBlock. discriminate.
  - apply fromBase64_encodeMessage.
  - intros w w1 tok Htok. unfold createDraftReplyTool.
    enter_tool host logger Mail w w1 tok Htok Hlog Htime.
    cbv zeta. cbn [gmail_access_token]. rewrite bind_run, call_run, Hlog.
    destruct (respond host (apiLog w) tok _) as [err|draft];
      cbv beta iota zeta.
    + unfold new_calls, final. cbn [snd]. rewrite logged_apiLog.
      cbn [apiLog record_call]. rewrite Hlog, skipn_app_exact. reflexivity.
    + rewrite bind_run, log_run. cbv beta iota. cbn [ret].
      unfold new_calls, final. cbn [snd]. rewrite logged_apiLog.
      cbn [apiLog record_call]. rewrite Hlog, skipn_app_exact. reflexivity.
Qed.

(** ** The tools on concrete worlds *)

Lemma client_failures_witness :
  let host := Scenario.serving Scenario.one_unreadable_message in
  result (addLabelToEmailTool host true "m1" "Label_7" Scenario.cold)
  = inl Scenario.backend_error
  /\ exists l,
      logs (final (addLabelToEmailTool host true "m1" "Label_7" Scenario.cold))
      = (l ++ [error_entry "❌ [addLabelToEmailTool] Failed to add label"
                 Scenario.backend_error])%list.
Proof.
  cbv zeta.
  destruct (client_failures_surface
              (Scenario.serving Scenario.one_unreadable_message) true)
    as (_ & _ & _ & _ & H & _).
  destruct (H "m1" "Label_7" Scenario.cold Scenario.backend_error)
    as [Hres Hlog].
  - vm_compute. now left.
  - split; [exact Hres|exact (Hlog eq_refl)].
Defined.

Lemma create_or_get_label_witness :
  let host := Scenario.serving Scenario.two_labels in
  (result (createOrGetLabelTool host true "AZCorpComm_Event" Scenario.cold)
   = inr {| lo_labelId := Some "Label_7"; lo_labelName := "AZCorpComm_Event";
            lo_created := false |}
   /\ new_calls Scenario.cold
        (final (createOrGetLabelTool host true "AZCorpComm_Event"
                  Scenario.cold))
      = [succeeded (VStr "A") (Gmail_labels_list "me")])
  /\ (result (createOrGetLabelTool host true "Volunteers" Scenario.cold)
      = inr {| lo_labelId := Some "Label_8"; lo_labelName := "Volunteers";
               lo_created := true |}
      /\ new_calls Scenario.cold
           (final (createOrGetLabelTool host true "Volunteers" Scenario.cold))
         = [succeeded (VStr "A") (Gmail_labels_list "me");
            succeeded (VStr "A")
              (Gmail_labels_create "me" "Volunteers" "labelShow" "show")]).
Proof.
  cbv zeta. split.
  - destruct (create_or_get_label
                (Scenario.serving Scenario.two_labels) true "AZCorpComm_Event"
                Scenario.cold
                (final (getGmailAccessToken
                          (Scenario.serving Scenario.two_labels)
                          Scenario.cold))
                (VStr "A")
                {| r_labels := Some [Scenario.label_other_case;
                                     Scenario.label_events] |}
                eq_refl eq_refl) as [H _].
    apply (H [Scenario.label_other_case] Scenario.label_events []);
      [reflexivity| |reflexivity].
    intros l [<-|[]]. discriminate.
  - destruct (create_or_get_label
                (Scenario.serving Scenario.two_labels) true "Volunteers"
                Scenario.cold
                (final (getGmailAccessToken
                          (Scenario.serving Scenario.two_labels)
                          Scenario.cold))
                (VStr "A")
                {| r_labels := Some [Scenario.label_other_case;
                                     Scenario.label_events] |}
                eq_refl eq_refl) as [_ H].
    apply (H {| l_id := Some "Label_8"; l_name := Some "Volunteers" |});
      [|reflexivity].
    intros l ls [= <-] [<-|[<-|[]]]; discriminate.
Defined.

Lemma list_scenarios_witness :
  let host := Scenario.serving Scenario.two_items in
  result (listUpcomingEventsTool host true Scenario.two_please Scenario.cold)
  = inr {| luo_events :=
             [{| ev_id := Some "e1"; ev_summary := "Town hall";
                 ev_start := "2025-02-01T10:00:00-07:00";
                 ev_end := "2025-02-01T11:00:00-07:00";
                 ev_location := Some "Phoenix" |};
              {| ev_id := Some "e2"; ev_summary := "(No Title)";
                 ev_start := "2025-02-03"; ev_end := "";
                 ev_location := None |}];
           luo_totalCount := 2 |}
  /\ result (listEmailsTool host true Scenario.two_mails_please Scenario.cold)
     = inr {| leo_emails :=
                [{| es_id := Some "m1"; es_threadId := Some "t1";
                    es_subject := "Invitation"; es_from := "Unknown";
                    es_date := ""; es_snippet := "See you there";
                    es_labels := ["INBOX"] |};
                 {| es_id := Some "m2"; es_threadId := Some "t2";
                    es_subject := "Invitation"; es_from := "Unknown";
                    es_date := ""; es_snippet := "See you there";
                    es_labels := ["INBOX"] |}];
              leo_totalCount := 2 |}.
Proof.
  cbv zeta.
  destruct (list_scenarios (Scenario.serving Scenario.two_items) true)
    as (Hevents & _ & _ & Hmails & _).
  split.
  - exact (Hevents Scenario.cold
             (final (getCalendarAccessToken
                       (Scenario.serving Scenario.two_items) Scenario.cold))
             (VStr "A") None Scenario.event_1 Scenario.event_2
             eq_refl eq_refl).
  - exact (Hmails Scenario.cold
             (final (getGmailAccessToken
                       (Scenario.serving Scenario.two_items) Scenario.cold))
             (VStr "A") None Scenario.message_1 Scenario.message_2
             (Scenario.metadata (Some "m1")) (Scenario.metadata (Some "m2"))
             eq_refl eq_refl eq_refl eq_refl).
Defined.

Lemma raw_message_witness :
  rawMessage Scenario.reply
  = "To: a@example.org" ++ CRLF ++ "Subject: Re: Hi" ++ CRLF
    ++ "Content-Type: text/plain; charset=utf-8" ++ CRLF ++ "Thanks"
  /\ encodeMessage (rawMessage Scenario.reply)
     = "VG86IGFAZXhhbXBsZS5vcmcNClN1YmplY3Q6IFJlOiBIaQ0KQ29udGVudC1UeXBlOiB0ZXh0L3BsYWluOyBjaGFyc2V0PXV0Zi04DQpUaGFua3M".
Proof.
  destruct (raw_message_has_no_blank_line (Scenario.connector VNull) true
              Scenario.reply) as (_ & _ & H & _).
  split.
  - rewrite H by discriminate. reflexivity.
  - vm_compute. reflexivity.
Defined.

(* ================================================================== *)
(** * Further properties *)

(** ** The token caches: what one call can do to the world *)

Section TokenCacheWorld.

Variable host : Host.

(** After a call the world is the one before, or that one with the
    request recorded, or that one with the request recorded and the
    family's cache set to the fetched item. *)
Lemma getAccessToken_world (fam : Family) (w : World) :
  final (getAccessToken host fam w) = w
  \/ exists tok,
      xReplitToken (env w) = Some tok
      /\ (final (getAccessToken host fam w)
          = record_fetch (connection_request fam (env w) tok) w
          \/ exists item,
              final (getAccessToken host fam w)
              = set_connectionSettings fam item
                  (record_fetch (connection_request fam (env w) tok) w)).
Proof.
  unfold getAccessToken. rewrite bind_run. cbn [gets]. cbv beta iota.
  rewrite bind_run. cbn [gets]. cbv beta iota. rewrite bind_run.
  destruct (cacheFresh host (connectionSettings fam w) (time w))
    as [e|[|]]; cbn [lift throw ret]; cbv beta iota.
  - now left.
  - left. rewrite bind_run.
    destruct (get_prop (connectionSettings fam w) "settings") as [e|s];
      cbn [lift throw ret]; cbv beta iota; [reflexivity|].
    destruct (get_prop s "access_token"); reflexivity.
  - rewrite bind_run. cbn [gets]. cbv beta iota.
    destruct (xReplitToken (env w)) as [tok|] eqn:Htok; [|now left].
    right. exists tok. split; [reflexivity|].
    rewrite bind_run. unfold fetchConnection.
    destruct (fetchJson host (fetchLog w) (connection_request fam (env w) tok))
      as [err|data]; [now left|].
    destruct (get_prop data "items") as [err|items]; [now left|].
    right. exists (opt_index0 items). rewrite bind_run. cbn [modify].
    cbv beta iota. rewrite bind_run.
    destruct (extractAccessToken (opt_index0 items)) as [err|a];
      cbn [lift throw ret]; cbv beta iota; [reflexivity|].
    destruct (negb (truthy (opt_index0 items)) || negb (truthy a));
      reflexivity.
Qed.

(** X3: a call of either token function issues at most one fetch and
    touches nothing but the fetch log and the cache of its own family:
    the other family's cache, process.env, the clock, the client trace
    and the logger output are as before. *)
Theorem one_fetch_own_cache_only (fam : Family) (w : World) :
  (List.length (new_fetches w (final (getAccessToken host fam w))) <= 1)%nat
  /\ fetchLog (final (getAccessToken host fam w))
     = (fetchLog w ++ new_fetches w (final (getAccessToken host fam w)))%list
  /\ connectionSettings (other fam) (final (getAccessToken host fam w))
     = connectionSettings (other fam) w
  /\ env (final (getAccessToken host fam w)) = env w
  /\ time (final (getAccessToken host fam w)) = time w
  /\ apiLog (final (getAccessToken host fam w)) = apiLog w
  /\ logs (final (getAccessToken host fam w)) = logs w.
Proof.
  unfold new_fetches.
  destruct (getAccessToken_world fam w) as [-> | (tok & _ & [-> | (item & ->)])].
  - rewrite skipn_all. simpl. rewrite app_nil_r. repeat split. lia.
  - cbn [fetchLog record_fetch]. rewrite skipn_app_exact. simpl.
    repeat split. lia.
  - destruct fam; cbn; rewrite skipn_app_exact; simpl; repeat split; lia.
Qed.

End TokenCacheWorld.

Section TokenCacheMore.

Variable host : Host.

Lemma cache_after_write (fam : Family) (v : value) (w : World) :
  connectionSettings fam (set_connectionSettings fam v w) = v.
Proof. destruct fam; reflexivity. Qed.

Lemma other_cache_after_write (fam : Family) (v : value) (w : World) :
  connectionSettings (other fam) (set_connectionSettings fam v w)
  = connectionSettings (other fam) w.
Proof. destruct fam; reflexivity. Qed.

Lemma clock_after_write (fam : Family) (v : value) (w : World) :
  time (set_connectionSettings fam v w) = time w.
Proof. destruct fam; reflexivity. Qed.

Lemma fetchLog_after_write (fam : Family) (v : value) (w : World) :
  fetchLog (set_connectionSettings fam v w) = fetchLog w.
Proof. destruct fam; reflexivity. Qed.

(** Everything a miss can do, in one equation. *)
Lemma getAccessToken_miss (fam : Family) (w : World) :
  cacheFresh host (connectionSettings fam w) (time w) = inr false ->
  getAccessToken host fam w
  = match xReplitToken (env w) with
    | None => (inl ConfigurationError, w)
    | Some tok =>
        let req := connection_request fam (env w) tok in
        match fetchJson host (fetchLog w) req with
        | inl err => (inl err, record_fetch req w)
        | inr data =>
            match get_prop data "items" with
            | inl err => (inl err, record_fetch req w)
            | inr items =>
                let item := opt_index0 items in
                let w' := set_connectionSettings fam item (record_fetch req w) in
                match extractAccessToken item with
                | inl err => (inl err, w')
                | inr accessToken =>
                    if negb (truthy item) || negb (truthy accessToken)
                    then (inl (NotConnectedError fam), w')
                    else (inr accessToken, w')
                end
            end
        end
    end.
Proof.
  intros Hfresh. unfold getAccessToken, bind, gets, lift.
  rewrite Hfresh. unfold ret at 1.
  destruct (xReplitToken (env w)) as [tok|]; [|reflexivity].
  unfold fetchConnection. cbv zeta.
  destruct (fetchJson host (fetchLog w) (connection_request fam (env w) tok))
    as [err|data]; [reflexivity|].
  destruct (get_prop data "items") as [err|items]; [reflexivity|].
  unfold modify.
  destruct (extractAccessToken (opt_index0 items)) as [err|a];
    [reflexivity|].
  unfold ret, throw.
  destruct (negb (truthy (opt_index0 items)) || negb (truthy a)); reflexivity.
Qed.

(** X1: when the fetch to the connector endpoint is rejected (network
    failure, a body that is not JSON), the call fails with that very
    rejection after one fetch, and both caches are as they were. *)
Theorem rejected_fetch_keeps_cache (fam : Family) (w : World) (tok : string)
  (err : exn) :
  cacheFresh host (connectionSettings fam w) (time w) = inr false ->
  xReplitToken (env w) = Some tok ->
  fetchJson host (fetchLog w) (connection_request fam (env w) tok) = inl err ->
  result (getAccessToken host fam w) = inl err
  /\ calendarConnectionSettings (final (getAccessToken host fam w))
     = calendarConnectionSettings w
  /\ gmailConnectionSettings (final (getAccessToken host fam w))
     = gmailConnectionSettings w
  /\ new_fetches w (final (getAccessToken host fam w))
     = [connection_request fam (env w) tok].
Proof.
  intros Hfresh Hid Hfetch.
  rewrite (getAccessToken_miss fam w Hfresh), Hid. cbv zeta. rewrite Hfetch.
  unfold new_fetches, result, final. cbn. rewrite skipn_app_exact.
  repeat split.
Qed.

Lemma cacheFresh_expired (cs : value) (now : Z) :
  truthy cs = true ->
  nullish (prop cs "settings") = false ->
  dateGetTime host (cached_expiry cs) = None
  \/ (exists t, dateGetTime host (cached_expiry cs) = Some t /\ (t <= now)%Z) ->
  cacheFresh host cs now = inr false.
Proof.
  unfold cached_expiry. intros Hcs Hs Hexp. unfold cacheFresh. rewrite Hcs.
  rewrite (get_prop_defined _ _ (truthy_not_nullish _ Hcs)).
  rewrite (get_prop_defined _ _ Hs).
  destruct (truthy (prop (prop cs "settings") "expires_at")); [|reflexivity].
  destruct Hexp as [-> | (t & -> & Hle)]; [reflexivity|].
  apply Z.ltb_ge in Hle. now rewrite Hle.
Qed.

(** X2: a miss that fetches an item holding its token in
    [settings.access_token], with an expiry that parses to [t], returns
    that token, caches the item and issues one fetch. Every later call
    of the family, whatever happened in between, is a hit as long as the
    cache still holds that item and the clock, read again by that call,
    is below [t]: it returns the identical token, fetches nothing and
    changes nothing. Once the clock reads [t] or more the record no
    longer counts as fresh. *)
Theorem second_call_is_a_hit (fam : Family) (w : World) (tok : string)
  (data : value) (t : Z) :
  cacheFresh host (connectionSettings fam w) (time w) = inr false ->
  xReplitToken (env w) = Some tok ->
  fetchJson host (fetchLog w) (connection_request fam (env w) tok)
  = inr data ->
  truthy (cached_token (opt_index0 (prop data "items"))) = true ->
  truthy (cached_expiry (opt_index0 (prop data "items"))) = true ->
  dateGetTime host (cached_expiry (opt_index0 (prop data "items"))) = Some t ->
  result (getAccessToken host fam w)
  = inr (cached_token (opt_index0 (prop data "items")))
  /\ fetchLog (final (getAccessToken host fam w))
     = (fetchLog w ++ [connection_request fam (env w) tok])%list
  /\ (forall w2 : World,
         connectionSettings fam w2
         = connectionSettings fam (final (getAccessToken host fam w)) ->
         (time w2 < t)%Z ->
         getAccessToken host fam w2
         = (inr (cached_token (opt_index0 (prop data "items"))), w2))
  /\ (forall w2 : World,
         connectionSettings fam w2
         = connectionSettings fam (final (getAccessToken host fam w)) ->
         (t <= time w2)%Z ->
         cacheFresh host (connectionSettings fam w2) (time w2) = inr false).
Proof.
  intros Hfresh Hid Hfetch Htok Hexp Ht.
  set (item := opt_index0 (prop data "items")) in *.
  assert (Hitem : truthy item = true).
  { destruct item; try discriminate; reflexivity. }
  assert (Hdata : nullish data = false).
  { destruct data; try reflexivity; discriminate. }
  assert (Hrun : getAccessToken host fam w
                 = (inr (cached_token item),
                    set_connectionSettings fam item
                      (record_fetch (connection_request fam (env w) tok) w))).
  { rewrite (getAccessToken_miss fam w Hfresh), Hid. cbv zeta.
    rewrite Hfetch, (get_prop_defined _ _ Hdata). fold item.
    rewrite (extractAccessToken_direct _ Htok), Hitem, Htok. reflexivity. }
  rewrite Hrun. unfold result, final. cbn [fst snd].
  rewrite cache_after_write, fetchLog_after_write.
  split; [reflexivity|]. split; [reflexivity|]. split.
  - intros w2 Hcache Hlt.
    rewrite (getAccessToken_hit host fam w2); rewrite Hcache;
      [reflexivity|].
    now apply (cacheFresh_hit host item (time w2) t).
  - intros w2 Hcache Hle. rewrite Hcache.
    apply cacheFresh_expired; [exact Hitem| |right; now exists t].
    unfold cached_expiry in Hexp.
    now apply prop_truthy_not_nullish with (k := "expires_at").
Qed.

(** X4: a call that misses the cache and succeeds returns a truthy
    token, never an empty or missing one, and leaves in the cache of its
    family a record from which that same token is extracted. *)
Theorem miss_success_caches_valid_record (fam : Family) (w : World)
  (a : value) :
  cacheFresh host (connectionSettings fam w) (time w) = inr false ->
  result (getAccessToken host fam w) = inr a ->
  truthy a = true
  /\ truthy (connectionSettings fam (final (getAccessToken host fam w))) = true
  /\ extractAccessToken
       (connectionSettings fam (final (getAccessToken host fam w)))
     = inr a.
Proof.
  intros Hfresh. rewrite (getAccessToken_miss fam w Hfresh).
  destruct (xReplitToken (env w)) as [tok|]; [|discriminate]. cbv zeta.
  destruct (fetchJson host (fetchLog w) (connection_request fam (env w) tok))
    as [err|data]; [discriminate|].
  destruct (get_prop data "items") as [err|items]; [discriminate|].
  destruct (extractAccessToken (opt_index0 items)) as [err|b] eqn:Hex;
    [discriminate|].
  destruct (negb (truthy (opt_index0 items)) || negb (truthy b)) eqn:Hok;
    [discriminate|].
  unfold result, final. cbn [fst snd]. intros [= <-].
  apply orb_false_iff in Hok as [H1 H2].
  apply negb_false_iff in H1, H2.
  rewrite cache_after_write. auto.
Qed.

(** X5: a cached record whose expiry is at or before the clock reading
    (the comparison is strict), or does not parse as a date, is a miss:
    with an identity available the call issues one fetch, and once the
    connector has answered the cache holds the first item of the answer
    and nothing of the old record, whether or not the call succeeds. *)
Theorem expired_record_is_overwritten (fam : Family) (w : World)
  (tok : string) (data : value) :
  truthy (connectionSettings fam w) = true ->
  nullish (prop (connectionSettings fam w) "settings") = false ->
  dateGetTime host (cached_expiry (connectionSettings fam w)) = None
  \/ (exists t,
         dateGetTime host (cached_expiry (connectionSettings fam w)) = Some t
         /\ (t <= time w)%Z) ->
  xReplitToken (env w) = Some tok ->
  fetchJson host (fetchLog w) (connection_request fam (env w) tok)
  = inr data ->
  nullish data = false ->
  connectionSettings fam (final (getAccessToken host fam w))
  = opt_index0 (prop data "items")
  /\ new_fetches w (final (getAccessToken host fam w))
     = [connection_request fam (env w) tok].
Proof.
  intros Hcs Hs Hexp Hid Hfetch Hdata.
  pose proof (cacheFresh_expired _ (time w) Hcs Hs Hexp) as Hfresh.
  split; [|now apply getAccessToken_miss_request].
  rewrite (getAccessToken_miss fam w Hfresh), Hid. cbv zeta.
  rewrite Hfetch, (get_prop_defined _ _ Hdata).
  destruct (extractAccessToken (opt_index0 (prop data "items"))) as [err|a];
    [apply cache_after_write|].
  destruct (negb (truthy (opt_index0 (prop data "items"))) || negb (truthy a));
    apply cache_after_write.
Qed.

(** X6: a cached record without [settings] blocks its family for good:
    the first test reads [settings.expires_at] of it, so the call throws
    a [TypeError] and leaves the world as it was, which means the next
    call does the same; no fetch is ever issued again. Such a record
    gets cached by the "not connected" failure of a fetch whose first
    item has no [settings]. *)
Theorem record_without_settings_blocks (fam : Family) (w : World) :
  truthy (connectionSettings fam w) = true ->
  nullish (prop (connectionSettings fam w) "settings") = true ->
  getAccessToken host fam w
  = (inl (TypeError
            ("Cannot read properties of "
               ++ describe (prop (connectionSettings fam w) "settings")
               ++ " (reading 'expires_at')")), w).
Proof.
  intros Hcs Hs. unfold getAccessToken, bind, gets, lift, cacheFresh.
  rewrite Hcs, (get_prop_defined _ _ (truthy_not_nullish _ Hcs)).
  unfold get_prop. rewrite Hs. reflexivity.
Qed.

Lemma item_without_settings_is_cached (fam : Family) (w : World)
  (tok : string) (data : value) :
  cacheFresh host (connectionSettings fam w) (time w) = inr false ->
  xReplitToken (env w) = Some tok ->
  fetchJson host (fetchLog w) (connection_request fam (env w) tok)
  = inr data ->
  truthy (opt_index0 (prop data "items")) = true ->
  nullish (prop (opt_index0 (prop data "items")) "settings") = true ->
  result (getAccessToken host fam w) = inl (NotConnectedError fam)
  /\ connectionSettings fam (final (getAccessToken host fam w))
     = opt_index0 (prop data "items").
Proof.
  intros Hfresh Hid Hfetch Hitem Hs.
  assert (Hdata : nullish data = false).
  { destruct data; try reflexivity; discriminate. }
  rewrite (getAccessToken_miss fam w Hfresh), Hid. cbv zeta.
  rewrite Hfetch, (get_prop_defined _ _ Hdata).
  set (item := opt_index0 (prop data "items")) in *.
  assert (Hex : extractAccessToken item = inr VUndefined).
  { unfold extractAccessToken, or_else.
    rewrite (get_prop_defined _ _ (truthy_not_nullish _ Hitem)).
    rewrite !opt_prop_prop.
    destruct (prop item "settings"); try discriminate; reflexivity. }
  rewrite Hex. cbn. rewrite orb_true_r. cbn.
  split; [reflexivity|apply cache_after_write].
Qed.

(** X7: a fetched item that holds its token under
    [settings.oauth.credentials] only, with an expiry that parses to
    [t]: the miss returns the nested token, but every later call of the
    family that finds the item still cached and reads the clock below
    [t] is a hit, which reads [settings.access_token] alone and returns
    that falsy value as the token, without fetching. *)
Theorem nested_token_is_lost_on_hit (fam : Family) (w : World) (tok : string)
  (data b : value) (t : Z) :
  cacheFresh host (connectionSettings fam w) (time w) = inr false ->
  xReplitToken (env w) = Some tok ->
  fetchJson host (fetchLog w) (connection_request fam (env w) tok)
  = inr data ->
  truthy (cached_token (opt_index0 (prop data "items"))) = false ->
  extractAccessToken (opt_index0 (prop data "items")) = inr b ->
  truthy b = true ->
  truthy (cached_expiry (opt_index0 (prop data "items"))) = true ->
  dateGetTime host (cached_expiry (opt_index0 (prop data "items"))) = Some t ->
  result (getAccessToken host fam w) = inr b
  /\ forall w2 : World,
       connectionSettings fam w2
       = connectionSettings fam (final (getAccessToken host fam w)) ->
       (time w2 < t)%Z ->
       getAccessToken host fam w2
       = (inr (cached_token (opt_index0 (prop data "items"))), w2)
         /\ new_fetches w2 (final (getAccessToken host fam w2)) = [].
Proof.
  intros Hfresh Hid Hfetch Hdirect Hex Hb Hexp Ht.
  set (item := opt_index0 (prop data "items")) in *.
  assert (Hitem : truthy item = true).
  { unfold cached_expiry in Hexp. destruct item; try discriminate; reflexivity. }
  assert (Hdata : nullish data = false).
  { destruct data; try reflexivity; discriminate. }
  assert (Hrun : getAccessToken host fam w
                 = (inr b,
                    set_connectionSettings fam item
                      (record_fetch (connection_request fam (env w) tok) w))).
  { rewrite (getAccessToken_miss fam w Hfresh), Hid. cbv zeta.
    rewrite Hfetch, (get_prop_defined _ _ Hdata). fold item.
    now rewrite Hex, Hitem, Hb. }
  rewrite Hrun. unfold result, final. cbn [fst snd].
  rewrite cache_after_write.
  split; [reflexivity|].
  intros w2 Hcache Hlt.
  assert (Hhit : getAccessToken host fam w2 = (inr (cached_token item), w2)).
  { rewrite (getAccessToken_hit host fam w2); rewrite Hcache;
      [reflexivity|].
    now apply (cacheFresh_hit host item (time w2) t). }
  rewrite Hhit. split; [reflexivity|].
  unfold new_fetches. cbn [snd]. apply skipn_all.
Qed.

(** X8: on a miss where REPL_IDENTITY does not pass the presence test
    (unset or empty) and WEB_REPL_RENEWAL does, the one request sent
    carries ['depl ' + WEB_REPL_RENEWAL]. *)
Theorem renewal_credential_is_the_fallback (fam : Family) (w : World)
  (r : string) :
  cacheFresh host (connectionSettings fam w) (time w) = inr false ->
  env_set (REPL_IDENTITY (env w)) = false ->
  WEB_REPL_RENEWAL (env w) = Some r ->
  r <> "" ->
  new_fetches w (final (getAccessToken host fam w))
  = [{| url := connection_url fam (REPLIT_CONNECTORS_HOSTNAME (env w));
        req_headers := [("Accept", "application/json");
                        ("X_REPLIT_TOKEN", "depl " ++ r)] |}].
Proof.
  intros Hfresh Hrepl Hren Hr.
  apply getAccessToken_miss_request; [exact Hfresh|].
  unfold xReplitToken, env_set in *. apply String.eqb_neq in Hr.
  rewrite Hren, Hr.
  destruct (REPL_IDENTITY (env w)) as [s|]; [|reflexivity].
  now rewrite Hrepl.
Qed.

(** X9: the connector hostname is not checked: on a miss with an
    identity and REPLIT_CONNECTORS_HOSTNAME unset, the call still issues
    its fetch, to the host named "undefined". *)
Theorem missing_hostname_is_not_checked (fam : Family) (w : World)
  (tok : string) :
  cacheFresh host (connectionSettings fam w) (time w) = inr false ->
  xReplitToken (env w) = Some tok ->
  REPLIT_CONNECTORS_HOSTNAME (env w) = None ->
  map url (new_fetches w (final (getAccessToken host fam w)))
  = ["https://undefined/api/v2/connection?include_secrets=true&connector_names="
       ++ connector_name fam].
Proof.
  intros Hfresh Hid Hhost.
  rewrite (getAccessToken_miss_request host fam w tok Hfresh Hid).
  unfold connection_request, connection_url. now rewrite Hhost.
Qed.

End TokenCacheMore.

(** *** The same on concrete worlds *)

Lemma rejected_fetch_witness :
  result (getAccessToken Scenario.offline Calendar Scenario.cold)
  = inl (TypeError "fetch failed")
  /\ calendarConnectionSettings
       (final (getAccessToken Scenario.offline Calendar Scenario.cold))
     = VUndefined
  /\ gmailConnectionSettings
       (final (getAccessToken Scenario.offline Calendar Scenario.cold))
     = VUndefined
  /\ new_fetches Scenario.cold
       (final (getAccessToken Scenario.offline Calendar Scenario.cold))
     = [connection_request Calendar Scenario.env_both "repl identity"].
Proof.
  exact (rejected_fetch_keeps_cache Scenario.offline Calendar Scenario.cold
           "repl identity" (TypeError "fetch failed")
           eq_refl eq_refl eq_refl).
Defined.

Lemma second_call_witness :
  let host :=
    Scenario.connector (Scenario.response [Scenario.token_A_fresh]) in
  let later :=
    at_time (Scenario.today + 3600000)
      (final (getAccessToken host Mail Scenario.cold)) in
  result (getAccessToken host Mail Scenario.cold) = inr (VStr "A")
  /\ getAccessToken host Mail later = (inr (VStr "A"), later)
  /\ fetchLog (final (getAccessToken host Mail later))
     = [connection_request Mail Scenario.env_both "repl identity"].
Proof.
  cbv zeta.
  destruct (second_call_is_a_hit
              (Scenario.connector (Scenario.response [Scenario.token_A_fresh]))
              Mail Scenario.cold "repl identity"
              (Scenario.response [Scenario.token_A_fresh]) 4070908800000%Z
              eq_refl eq_refl eq_refl eq_refl eq_refl eq_refl)
    as (Hfirst & Hlog & Hhit & _).
  split; [exact Hfirst|].
  split; [apply Hhit; reflexivity|].
  rewrite Hhit by reflexivity. exact Hlog.
Defined.

Lemma miss_success_witness :
  let host :=
    Scenario.connector (Scenario.response [Scenario.token_nested_fresh]) in
  truthy (VStr "B") = true
  /\ truthy (connectionSettings Calendar
               (final (getAccessToken host Calendar Scenario.cold))) = true
  /\ extractAccessToken
       (connectionSettings Calendar
          (final (getAccessToken host Calendar Scenario.cold)))
     = inr (VStr "B").
Proof.
  exact (miss_success_caches_valid_record
           (Scenario.connector
              (Scenario.response [Scenario.token_nested_fresh]))
           Calendar Scenario.cold (VStr "B") eq_refl eq_refl).
Defined.

Lemma expired_record_witness :
  let host := Scenario.connector (Scenario.response [Scenario.token_B]) in
  let w :=
    Scenario.cached Scenario.env_both Mail Scenario.token_A_expiring_now in
  connectionSettings Mail (final (getAccessToken host Mail w))
  = Scenario.token_B
  /\ new_fetches w (final (getAccessToken host Mail w))
     = [connection_request Mail Scenario.env_both "repl identity"].
Proof.
  refine (expired_record_is_overwritten
            (Scenario.connector (Scenario.response [Scenario.token_B]))
            Mail
            (Scenario.cached Scenario.env_both Mail
               Scenario.token_A_expiring_now)
            "repl identity" (Scenario.response [Scenario.token_B])
            eq_refl eq_refl _ eq_refl eq_refl eq_refl).
  right. exists Scenario.today. split; [reflexivity|]. vm_compute.
  discriminate.
Defined.

Lemma record_without_settings_witness :
  let host := Scenario.connector (Scenario.response [VObj []]) in
  let w1 := final (getAccessToken host Calendar Scenario.cold) in
  (result (getAccessToken host Calendar Scenario.cold)
   = inl (NotConnectedError Calendar)
   /\ connectionSettings Calendar w1 = VObj [])
  /\ getAccessToken host Calendar w1
     = (inl (TypeError
               "Cannot read properties of undefined (reading 'expires_at')"),
        w1).
Proof.
  cbv zeta. split.
  - exact (item_without_settings_is_cached
             (Scenario.connector (Scenario.response [VObj []])) Calendar
             Scenario.cold "repl identity" (Scenario.response [VObj []])
             eq_refl eq_refl eq_refl eq_refl eq_refl).
  - exact (record_without_settings_blocks
             (Scenario.connector (Scenario.response [VObj []])) Calendar
             (final (getAccessToken
                       (Scenario.connector (Scenario.response [VObj []]))
                       Calendar Scenario.cold))
             eq_refl eq_refl).
Defined.

Lemma nested_token_witness :
  let host :=
    Scenario.connector (Scenario.response [Scenario.token_nested_fresh]) in
  let later :=
    at_time (Scenario.today + 3600000)
      (final (getAccessToken host Mail Scenario.cold)) in
  result (getAccessToken host Mail Scenario.cold) = inr (VStr "B")
  /\ getAccessToken host Mail later = (inr VUndefined, later)
  /\ new_fetches later (final (getAccessToken host Mail later)) = [].
Proof.
  cbv zeta.
  destruct (nested_token_is_lost_on_hit
              (Scenario.connector
                 (Scenario.response [Scenario.token_nested_fresh]))
              Mail Scenario.cold "repl identity"
              (Scenario.response [Scenario.token_nested_fresh]) (VStr "B")
              4070908800000%Z
              eq_refl eq_refl eq_refl eq_refl eq_refl eq_refl eq_refl eq_refl)
    as (Hfirst & Hhit).
  split; [exact Hfirst|]. apply Hhit; reflexivity.
Defined.

Lemma renewal_credential_witness :
  let w := Scenario.world Scenario.env_renewal_only VUndefined VUndefined in
  new_fetches w (final (getAccessToken (Scenario.connector VNull) Calendar w))
  = [{| url := "https://undefined/api/v2/connection?include_secrets=true&connector_names=google-calendar";
        req_headers := [("Accept", "application/json");
                        ("X_REPLIT_TOKEN", "depl renewal")] |}].
Proof.
  refine (renewal_credential_is_the_fallback (Scenario.connector VNull)
            Calendar
            (Scenario.world Scenario.env_renewal_only VUndefined VUndefined)
            "renewal" eq_refl eq_refl eq_refl _).
  discriminate.
Defined.

Lemma missing_hostname_witness :
  let w := Scenario.world Scenario.env_renewal_only VUndefined VUndefined in
  map url
    (new_fetches w (final (getAccessToken (Scenario.connector VNull) Mail w)))
  = ["https://undefined/api/v2/connection?include_secrets=true&connector_names=google-mail"].
Proof.
  exact (missing_hostname_is_not_checked (Scenario.connector VNull) Mail
           (Scenario.world Scenario.env_renewal_only VUndefined VUndefined)
           "depl renewal" eq_refl eq_refl eq_refl).
Defined.

(** ** The tools when no token can be obtained *)

Section ToolsWithoutToken.

Variable host : Host.
Variable logger : bool.

Lemma logged_logs_true (entry : LogEntry) (w : World) :
  logs (logged true entry w) = (logs w ++ [entry])%list.
Proof. reflexivity. Qed.

Lemma gmail_tool_without_token {A} (msg0 msg : string)
  (d : list (string * LogValue)) (k : GmailClient -> M A) (w : World)
  (e : exn) :
  result (getAccessToken host Mail w) = inl e ->
  refuses logger msg
    (log logger Info msg0 d ;;;
     rethrow_logged logger msg (bind (getGmailClient host) k)) w e.
Proof.
  intros Htok. unfold refuses.
  rewrite tool_run, bind_run, getGmailClient_run, getAccessToken_logged, Htok.
  cbv beta iota. unfold result, final, new_calls. cbn [fst snd].
  rewrite !logged_apiLog.
  destruct (getAccessToken_quiet host Mail w) as (Ha & _).
  unfold final in Ha. rewrite Ha, skipn_all.
  split; [reflexivity|]. split; [reflexivity|].
  intros ->. eexists. apply logged_logs_true.
Qed.

Lemma calendar_tool_without_token {A} (msg0 msg : string)
  (d : list (string * LogValue)) (k : CalendarClient -> M A) (w : World)
  (e : exn) :
  result (getAccessToken host Calendar w) = inl e ->
  refuses logger msg
    (log logger Info msg0 d ;;;
     rethrow_logged logger msg (bind (getCalendarClient host) k)) w e.
Proof.
  intros Htok. unfold refuses.
  rewrite tool_run, bind_run, getCalendarClient_run, getAccessToken_logged,
    Htok.
  cbv beta iota. unfold result, final, new_calls. cbn [fst snd].
  rewrite !logged_apiLog.
  destruct (getAccessToken_quiet host Calendar w) as (Ha & _).
  unfold final in Ha. rewrite Ha, skipn_all.
  split; [reflexivity|]. split; [reflexivity|].
  intros ->. eexists. apply logged_logs_true.
Qed.

(** X10: when the token of its family cannot be obtained (no identity,
    connector unreachable, nothing connected), each of the seven tools
    ends with that very failure, logs it as its last line, and makes no
    client call at all. *)
Theorem tools_refuse_without_token (w : World) (e : exn) :
  (result (getAccessToken host Calendar w) = inl e ->
   (forall context,
       refuses logger "❌ [createCalendarEventTool] Failed to create event"
         (createCalendarEventTool host logger context) w e)
   /\ (forall context,
          refuses logger "❌ [listUpcomingEventsTool] Failed to list events"
            (listUpcomingEventsTool host logger context) w e))
  /\ (result (getAccessToken host Mail w) = inl e ->
      (forall context,
          refuses logger "❌ [listEmailsTool] Failed to list emails"
            (listEmailsTool host logger context) w e)
      /\ (forall emailId,
             refuses logger
               "❌ [getEmailContentTool] Failed to get email content"
               (getEmailContentTool host logger emailId) w e)
      /\ (forall labelName,
             refuses logger
               "❌ [createOrGetLabelTool] Failed to create/get label"
               (createOrGetLabelTool host logger labelName) w e)
      /\ (forall emailId labelId,
             refuses logger "❌ [addLabelToEmailTool] Failed to add label"
               (addLabelToEmailTool host logger emailId labelId) w e)
      /\ (forall context,
             refuses logger "❌ [createDraftReplyTool] Failed to create draft"
               (createDraftReplyTool host logger context) w e)).
Proof.
  split; intros Htok.
  - split; intros; now apply calendar_tool_without_token.
  - repeat (split; [intros; now apply gmail_tool_without_token|]).
    intros; now apply gmail_tool_without_token.
Qed.

End ToolsWithoutToken.

Lemma tools_refuse_witness :
  let w := Scenario.world Scenario.env_none VUndefined VUndefined in
  refuses true "❌ [addLabelToEmailTool] Failed to add label"
    (addLabelToEmailTool (Scenario.connector VNull) true "m1" "Label_7") w
    ConfigurationError.
Proof.
  destruct (tools_refuse_without_token (Scenario.connector VNull) true
              (Scenario.world Scenario.env_none VUndefined VUndefined)
              ConfigurationError) as [_ H].
  destruct (H eq_refl) as (_ & _ & _ & Hadd & _).
  exact (Hadd "m1" "Label_7").
Defined.

(** ** Base64 and UTF-8, further *)

Module BufferMore.
Import Buffer BufferFacts.
Local Open Scope list_scope.

Lemma sextets_length (bs : list N) :
  List.length (sextets bs) = ((4 * List.length bs + 2) / 3)%nat.
Proof.
  induction bs as [| a | a b | a b c r IH] using list_ind3;
    try reflexivity.
  cbn [sextets List.length]. rewrite IH.
  replace (4 * S (S (S (List.length r))) + 2)%nat
    with (4 * List.length r + 2 + 4 * 3)%nat by lia.
  rewrite Nat.div_add by discriminate. lia.
Qed.

(** What the three [replace] calls leave of the base64 text: one
    character per sextet, no padding. *)
Lemma encodeMessage_chars (raw : string) :
  list_ascii_of_string (encodeMessage raw)
  = map (fun n => url_char (b64char n)) (sextets (map N_of_ascii (from raw))).
Proof.
  unfold encodeMessage, toStringBase64.
  rewrite !list_ascii_of_string_of_list_ascii.
  rewrite replace_chars_url, map_app, map_map.
  rewrite (url_char_all_pad _ (padding_all_pad _)).
  apply (strip_pad_written _ url_b64char_readable).
  - apply sextets_sized, bytes_sized.
  - apply padding_all_pad.
Qed.

Lemma url_b64char_safe (n : N) :
  (n < 64)%N -> is_url_safe (url_char (b64char n)) = true.
Proof.
  intros Hn.
  assert (H : forallb (fun n => is_url_safe (url_char (b64char n)))
                (map N.of_nat (seq 0 64)) = true) by (vm_compute; reflexivity).
  rewrite forallb_forall in H. apply H.
  apply in_map_iff. exists (N.to_nat n). split; [apply N2Nat.id|].
  apply in_seq. lia.
Qed.

(** The decoder reads the URL-safe characters as the standard ones, and
    stops at the first ['='] whether the padding is there or not. *)
Lemma unbase64_url_char (c : ascii) : unbase64 (url_char c) = unbase64 c.
Proof.
  destruct c as [b0 b1 b2 b3 b4 b5 b6 b7].
  destruct b0, b1, b2, b3, b4, b5, b6, b7; reflexivity.
Qed.

Lemma url_char_is_pad (c : ascii) :
  (url_char c =? pad)%char = (c =? pad)%char.
Proof.
  destruct c as [b0 b1 b2 b3 b4 b5 b6 b7].
  destruct b0, b1, b2, b3, b4, b5, b6, b7; reflexivity.
Qed.

Lemma legal_until_pad_url (l : list ascii) :
  legal (until_pad (map url_char l)) = legal (until_pad l).
Proof.
  induction l as [|c r IH]; [reflexivity|]. simpl.
  rewrite url_char_is_pad. destruct (c =? pad)%char; [reflexivity|].
  simpl. now rewrite unbase64_url_char, IH.
Qed.

Lemma until_pad_strip_pad (l : list ascii) :
  until_pad (strip_pad l) = until_pad l.
Proof.
  induction l as [|c r IH]; [reflexivity|]. cbn [strip_pad].
  destruct (strip_pad r) as [|c' r'] eqn:Hs.
  - cbn [until_pad] in *. destruct (c =? pad)%char eqn:Hc.
    + cbn [until_pad]. now rewrite ?Hc.
    + cbn [until_pad]. now rewrite Hc, <- IH.
  - change (until_pad (c :: c' :: r'))
      with (if (c =? pad)%char then [] else c :: until_pad (c' :: r')).
    now rewrite IH.
Qed.

(** Whatever bytes come in, the decoder of [toString("utf-8")] gives
    well-formed UTF-8. *)
Lemma replacement_well_formed (r : bytes) :
  well_formed r -> well_formed (replacement ++ r).
Proof. intros H. apply wf_three; auto. Qed.

Lemma sanitize_bounded (n : nat) :
  forall l, (List.length l <= n)%nat -> well_formed (sanitize l).
Proof.
  induction n as [|n IH]; intros l Hlen.
  - destruct l; [constructor|simpl in Hlen; lia].
  - destruct l as [|b0 r0]; [constructor|]. simpl in Hlen.
    assert (H0 : well_formed (sanitize r0)) by (apply IH; lia).
    cbn [sanitize].
    destruct (N_of_ascii b0 <=? 127)%N eqn:E0.
    { apply wf_ascii; [now apply N.leb_le|exact H0]. }
    destruct (between 194 223 b0) eqn:E2.
    { destruct r0 as [|b1 r1]; [apply (replacement_well_formed []); constructor|].
      simpl in Hlen.
      destruct (between 128 191 b1) eqn:E21.
      - apply wf_two; auto. apply IH. lia.
      - now apply replacement_well_formed. }
    destruct (between 224 239 b0) eqn:E3.
    { destruct r0 as [|b1 r1]; [apply (replacement_well_formed []); constructor|].
      simpl in Hlen.
      destruct (between (second_lo (N_of_ascii b0)) (second_hi (N_of_ascii b0))
                  b1) eqn:E31; [|now apply replacement_well_formed].
      destruct r1 as [|b2 r2]; [apply (replacement_well_formed []); constructor|].
      simpl in Hlen.
      destruct (between 128 191 b2) eqn:E32.
      - apply wf_three; auto. apply IH. lia.
      - apply replacement_well_formed. apply IH. simpl. lia. }
    destruct (between 240 244 b0) eqn:E4.
    { destruct r0 as [|b1 r1]; [apply (replacement_well_formed []); constructor|].
      simpl in Hlen.
      destruct (between (second_lo (N_of_ascii b0)) (second_hi (N_of_ascii b0))
                  b1) eqn:E41; [|now apply replacement_well_formed].
      destruct r1 as [|b2 r2]; [apply (replacement_well_formed []); constructor|].
      simpl in Hlen.
      destruct (between 128 191 b2) eqn:E42;
        [|apply replacement_well_formed; apply IH; simpl; lia].
      destruct r2 as [|b3 r3]; [apply (replacement_well_formed []); constructor|].
      simpl in Hlen.
      destruct (between 128 191 b3) eqn:E43.
      - apply wf_four; auto. apply IH. lia.
      - apply replacement_well_formed. apply IH. simpl. lia. }
    now apply replacement_well_formed.
Qed.

Lemma string_length_of_list (l : list ascii) :
  String.length (string_of_list_ascii l) = List.length l.
Proof. induction l; simpl; congruence. Qed.

Lemma sanitize_well_formed_always (l : bytes) : well_formed (sanitize l).
Proof. now apply (sanitize_bounded (List.length l)). Qed.

End BufferMore.

(** X11: the encoded draft is written in the URL-safe alphabet only
    (letters, digits, [-] and [_]: no [+], no [/], no [=]), one character
    per six bits of the raw message, which is the length of unpadded
    base64. *)
Theorem encoded_draft_is_url_safe (context : CreateDraftReplyInput) :
  Forall (fun c => is_url_safe c = true)
    (list_ascii_of_string (encodeMessage (rawMessage context)))
  /\ String.length (encodeMessage (rawMessage context))
     = ((4 * String.length (rawMessage context) + 2) / 3)%nat.
Proof.
  split.
  - rewrite BufferMore.encodeMessage_chars. apply Forall_map.
    pose proof (BufferFacts.sextets_sized _
                  (BufferFacts.bytes_sized (Buffer.from (rawMessage context))))
      as Hsx.
    unfold Buffer.sextet_sized in Hsx.
    eapply Forall_impl; [|exact Hsx].
    intros n Hn. now apply BufferMore.url_b64char_safe.
  - rewrite <- (string_of_list_ascii_of_string (encodeMessage _)) at 1.
    rewrite BufferMore.encodeMessage_chars.
    rewrite <- (string_of_list_ascii_of_string (rawMessage context)) at 2.
    rewrite !BufferMore.string_length_of_list, length_map,
      BufferMore.sextets_length, length_map.
    reflexivity.
Qed.

(** X12: [Buffer.from(data, "base64")], as both tools use it, reads
    URL-safe unpadded text exactly as the standard text it comes from:
    rewriting [+] to [-], [/] to [_] and dropping the final [=] run, as
    the draft tool does and as Gmail does for message bodies, does not
    change what [decode] returns. *)
Theorem decode_reads_url_safe (data : string) :
  decode
    (string_of_list_ascii
       (Buffer.strip_pad
          (Buffer.replace_char "/" "_"
             (Buffer.replace_char "+" "-" (list_ascii_of_string data)))))
  = decode data.
Proof.
  unfold decode, Buffer.fromBase64.
  rewrite list_ascii_of_string_of_list_ascii.
  rewrite BufferMore.until_pad_strip_pad, BufferFacts.replace_chars_url.
  now rewrite BufferMore.legal_until_pad_url.
Qed.

(** ** The UTF-8 decoder against its specification *)

Module Utf8Facts.
Import Buffer Utf8.
Local Open Scope list_scope.

Ltac ranges :=
  unfold between, second_lo, second_hi in *;
  repeat match goal with
         | H : (_ && _)%bool = true |- _ =>
             apply andb_true_iff in H; destruct H
         | H : (_ && _)%bool = false |- _ =>
             apply andb_false_iff in H; destruct H
         | H : (_ <=? _)%N = true |- _ => apply N.leb_le in H
         | H : (_ <=? _)%N = false |- _ => apply N.leb_gt in H
         | H : context [(?a =? ?b)%N] |- _ => destruct (N.eqb_spec a b)
         end;
  try lia.

(** The range of the second byte is never empty. *)
Lemma second_range_inhabited (n : N) :
  between (second_lo n) (second_hi n) (ascii_of_N (second_lo n)) = true.
Proof.
  unfold second_lo, second_hi.
  destruct (N.eqb_spec n 224), (N.eqb_spec n 240), (N.eqb_spec n 237),
    (N.eqb_spec n 244); try reflexivity; lia.
Qed.

Lemma truncated_lead2 (b0 : ascii) :
  between 194 223 b0 = true -> truncated [b0].
Proof.
  intros H. split; [discriminate|]. exists [ascii_of_N 128].
  split; [discriminate|]. now apply sc_two.
Qed.

Lemma truncated_lead3 (b0 : ascii) :
  between 224 239 b0 = true -> truncated [b0].
Proof.
  intros H. split; [discriminate|].
  exists [ascii_of_N (second_lo (N_of_ascii b0)); ascii_of_N 128].
  split; [discriminate|].
  apply sc_three; auto using second_range_inhabited.
Qed.

Lemma truncated_lead3_second (b0 b1 : ascii) :
  between 224 239 b0 = true ->
  between (second_lo (N_of_ascii b0)) (second_hi (N_of_ascii b0)) b1 = true ->
  truncated [b0; b1].
Proof.
  intros H0 H1. split; [discriminate|]. exists [ascii_of_N 128].
  split; [discriminate|]. now apply sc_three.
Qed.

Lemma truncated_lead4 (b0 : ascii) :
  between 240 244 b0 = true -> truncated [b0].
Proof.
  intros H. split; [discriminate|].
  exists [ascii_of_N (second_lo (N_of_ascii b0)); ascii_of_N 128;
          ascii_of_N 128].
  split; [discriminate|].
  apply sc_four; auto using second_range_inhabited.
Qed.

Lemma truncated_lead4_second (b0 b1 : ascii) :
  between 240 244 b0 = true ->
  between (second_lo (N_of_ascii b0)) (second_hi (N_of_ascii b0)) b1 = true ->
  truncated [b0; b1].
Proof.
  intros H0 H1. split; [discriminate|].
  exists [ascii_of_N 128; ascii_of_N 128].
  split; [discriminate|]. now apply sc_four.
Qed.

Lemma truncated_lead4_third (b0 b1 b2 : ascii) :
  between 240 244 b0 = true ->
  between (second_lo (N_of_ascii b0)) (second_hi (N_of_ascii b0)) b1 = true ->
  between 128 191 b2 = true ->
  truncated [b0; b1; b2].
Proof.
  intros H0 H1 H2. split; [discriminate|]. exists [ascii_of_N 128].
  split; [discriminate|]. now apply sc_four.
Qed.

(** Where the decoder substitutes, no code point begins. *)
Ltac no_start :=
  let s := fresh "s" in
  let Hs := fresh "Hs" in
  intros [s Hs]; cbn [app] in Hs; inversion Hs; subst;
  match goal with
  | H : ?x = true, H' : ?x = false |- _ => congruence
  | _ => ranges
  end.

Lemma sanitize_repairs_bounded (n : nat) :
  forall l, (List.length l <= n)%nat -> Repaired l (sanitize l).
Proof.
  induction n as [|n IH]; intros l Hlen.
  - destruct l; [constructor|simpl in Hlen; lia].
  - destruct l as [|b0 r0]; [constructor|]. simpl in Hlen.
    assert (H0 : Repaired r0 (sanitize r0)) by (apply IH; lia).
    cbn [sanitize].
    destruct (N_of_ascii b0 <=? 127)%N eqn:E0.
    { apply (rep_scalar [b0]); [|exact H0].
      apply sc_one. now apply N.leb_le. }
    destruct (between 194 223 b0) eqn:E2.
    { destruct r0 as [|b1 r1].
      - apply (rep_truncated [b0] [] []);
          [now apply truncated_lead2|discriminate|constructor].
      - destruct (between 128 191 b1) eqn:E21.
        + apply (rep_scalar [b0; b1]); [now apply sc_two|].
          apply IH. simpl in Hlen. lia.
        + apply (rep_truncated [b0] (b1 :: r1));
            [now apply truncated_lead2| |exact H0].
          intros b r' [= <- <-]. no_start. }
    destruct (between 224 239 b0) eqn:E3.
    { destruct r0 as [|b1 r1].
      - apply (rep_truncated [b0] [] []);
          [now apply truncated_lead3|discriminate|constructor].
      - destruct (between (second_lo (N_of_ascii b0))
                    (second_hi (N_of_ascii b0)) b1) eqn:E31.
        + destruct r1 as [|b2 r2].
          * apply (rep_truncated [b0; b1] [] []);
              [now apply truncated_lead3_second|discriminate|constructor].
          * destruct (between 128 191 b2) eqn:E32.
            -- apply (rep_scalar [b0; b1; b2]); [now apply sc_three|].
               apply IH. simpl in Hlen. lia.
            -- apply (rep_truncated [b0; b1] (b2 :: r2));
                 [now apply truncated_lead3_second| |].
               ++ intros b r' [= <- <-]. no_start.
               ++ apply IH. simpl in *. lia.
        + apply (rep_truncated [b0] (b1 :: r1));
            [now apply truncated_lead3| |exact H0].
          intros b r' [= <- <-]. no_start. }
    destruct (between 240 244 b0) eqn:E4.
    { destruct r0 as [|b1 r1].
      - apply (rep_truncated [b0] [] []);
          [now apply truncated_lead4|discriminate|constructor].
      - destruct (between (second_lo (N_of_ascii b0))
                    (second_hi (N_of_ascii b0)) b1) eqn:E41.
        + destruct r1 as [|b2 r2].
          * apply (rep_truncated [b0; b1] [] []);
              [now apply truncated_lead4_second|discriminate|constructor].
          * destruct (between 128 191 b2) eqn:E42.
            -- destruct r2 as [|b3 r3].
               ++ apply (rep_truncated [b0; b1; b2] [] []);
                    [now apply truncated_lead4_third|discriminate
                    |constructor].
               ++ destruct (between 128 191 b3) eqn:E43.
                  ** apply (rep_scalar [b0; b1; b2; b3]);
                       [now apply sc_four|].
                     apply IH. simpl in Hlen. lia.
                  ** apply (rep_truncated [b0; b1; b2] (b3 :: r3));
                       [now apply truncated_lead4_third| |].
                     --- intros b r' [= <- <-]. no_start.
                     --- apply IH. simpl in *. lia.
            -- apply (rep_truncated [b0; b1] (b2 :: r2));
                 [now apply truncated_lead4_second| |].
               ++ intros b r' [= <- <-]. no_start.
               ++ apply IH. simpl in *. lia.
        + apply (rep_truncated [b0] (b1 :: r1));
            [now apply truncated_lead4| |exact H0].
          intros b r' [= <- <-]. no_start. }
    apply rep_stray; [|exact H0]. no_start.
Qed.

(** The decoder meets the specification on every input. *)
Lemma sanitize_repairs (l : bytes) : Repaired l (sanitize l).
Proof. now apply (sanitize_repairs_bounded (List.length l)). Qed.

(** The specification leaves no choice. No encoding of a code point
    begins another one. *)
Lemma scalar_prefix_free (c x : bytes) :
  scalar c -> scalar (c ++ x) -> x = [].
Proof.
  intros Hc Hcx. inversion Hc; subst; cbn [app] in Hcx;
    inversion Hcx; subst; try reflexivity; ranges.
Qed.

Lemma scalar_not_empty (c : bytes) : scalar c -> c <> [].
Proof. intros Hc. inversion Hc; discriminate. Qed.

Lemma scalar_scalar (c1 c2 r1 r2 : bytes) :
  scalar c1 -> scalar c2 -> c1 ++ r1 = c2 ++ r2 -> c1 = c2 /\ r1 = r2.
Proof.
  intros H1 H2 Heq.
  destruct (app_eq_app _ _ _ _ Heq) as (l & [[-> ->] | [-> ->]]).
  - rewrite (scalar_prefix_free c2 l H2 H1). now rewrite app_nil_r.
  - rewrite (scalar_prefix_free c1 l H1 H2). now rewrite app_nil_r.
Qed.

Lemma scalar_truncated (c p r1 r2 : bytes) :
  scalar c -> truncated p ->
  (forall b r', r2 = b :: r' -> ~ starts_scalar (p ++ [b])) ->
  c ++ r1 = p ++ r2 -> False.
Proof.
  intros Hc (Hp & s & Hs & Hps) Hmax Heq.
  destruct (app_eq_app _ _ _ _ Heq) as (l & [[-> ->] | [-> ->]]).
  - destruct l as [|b l'].
    + rewrite app_nil_r in Hc. apply Hs.
      now apply (scalar_prefix_free p s).
    + apply (Hmax b (l' ++ r1) eq_refl). exists l'.
      now rewrite <- app_assoc.
  - rewrite <- app_assoc in Hps.
    apply (scalar_prefix_free c (l ++ s) Hc) in Hps.
    apply app_eq_nil in Hps as [_ Hnil]. now apply Hs.
Qed.

Lemma scalar_stray (c r1 r2 : bytes) (b : ascii) :
  scalar c -> ~ starts_scalar [b] -> c ++ r1 = b :: r2 -> False.
Proof.
  intros Hc Hb Heq. destruct c as [|b' c'].
  - now apply (scalar_not_empty []).
  - injection Heq as -> _. apply Hb. now exists c'.
Qed.

Lemma truncated_truncated (p1 p2 r1 r2 : bytes) :
  truncated p1 ->
  (forall b r', r1 = b :: r' -> ~ starts_scalar (p1 ++ [b])) ->
  truncated p2 ->
  (forall b r', r2 = b :: r' -> ~ starts_scalar (p2 ++ [b])) ->
  p1 ++ r1 = p2 ++ r2 -> r1 = r2.
Proof.
  intros (_ & s1 & _ & Hs1) Hmax1 (_ & s2 & _ & Hs2) Hmax2 Heq.
  destruct (app_eq_app _ _ _ _ Heq) as (l & [[-> ->] | [-> ->]]);
    destruct l as [|b l']; try reflexivity; exfalso.
  - apply (Hmax2 b (l' ++ r1) eq_refl). exists (l' ++ s1).
    rewrite <- !app_assoc in *. exact Hs1.
  - apply (Hmax1 b (l' ++ r2) eq_refl). exists (l' ++ s2).
    rewrite <- !app_assoc in *. exact Hs2.
Qed.

Lemma truncated_stray (p r1 r2 : bytes) (b : ascii) :
  truncated p -> ~ starts_scalar [b] -> p ++ r1 = b :: r2 -> False.
Proof.
  intros (Hp & s & _ & Hs) Hb Heq. destruct p as [|b' p']; [now apply Hp|].
  injection Heq as -> _. apply Hb. now exists (p' ++ s).
Qed.

Lemma Repaired_unique (l o1 : bytes) :
  Repaired l o1 -> forall o2, Repaired l o2 -> o1 = o2.
Proof.
  induction 1 as [|c r out Hc Hr IH|p r out Hp Hmax Hr IH|b r out Hb Hr IH];
    intros o2 H2.
  - remember [] as l eqn:El. symmetry in El.
    destruct H2 as [|c' r' out' Hc' Hr'|p' r' out' Hp' Hmax' Hr'
                   |b' r' out' Hb' Hr']; [reflexivity| | |discriminate].
    + symmetry in El. apply app_eq_nil in El as [-> _].
      now destruct (scalar_not_empty [] Hc').
    + symmetry in El. apply app_eq_nil in El as [-> _].
      now destruct Hp' as [Hp' _].
  - remember (c ++ r) as l eqn:El. symmetry in El.
    destruct H2 as [|c' r' out' Hc' Hr'|p' r' out' Hp' Hmax' Hr'
                   |b' r' out' Hb' Hr'].
    + apply app_eq_nil in El as [-> _].
      now destruct (scalar_not_empty [] Hc).
    + destruct (scalar_scalar _ _ _ _ Hc Hc' El) as [<- <-].
      f_equal. now apply IH.
    + destruct (scalar_truncated _ _ _ _ Hc Hp' Hmax' El).
    + destruct (scalar_stray _ _ _ _ Hc Hb' El).
  - remember (p ++ r) as l eqn:El. symmetry in El.
    destruct H2 as [|c' r' out' Hc' Hr'|p' r' out' Hp' Hmax' Hr'
                   |b' r' out' Hb' Hr'].
    + apply app_eq_nil in El as [-> _]. now destruct Hp as [Hp _].
    + symmetry in El. destruct (scalar_truncated _ _ _ _ Hc' Hp Hmax El).
    + rewrite (truncated_truncated _ _ _ _ Hp Hmax Hp' Hmax' El) in *.
      f_equal. now apply IH.
    + destruct (truncated_stray _ _ _ _ Hp Hb' El).
  - remember (b :: r) as l eqn:El. symmetry in El.
    destruct H2 as [|c' r' out' Hc' Hr'|p' r' out' Hp' Hmax' Hr'
                   |b' r' out' Hb' Hr']; [discriminate| | |].
    + symmetry in El. destruct (scalar_stray _ _ _ _ Hc' Hb El).
    + symmetry in El. destruct (truncated_stray _ _ _ _ Hp' Hb El).
    + injection El as <- <-. f_equal. now apply IH.
Qed.

End Utf8Facts.

Lemma scanParts_well_formed (parts : list MessagePart) :
  forall body,
    Buffer.well_formed (Buffer.from body) ->
    Buffer.well_formed (Buffer.from (scanParts parts body)).
Proof.
  assert (Hdec : forall d, Buffer.well_formed (Buffer.from (decode d))).
  { intros d. unfold decode, Buffer.toStringUtf8, Buffer.from.
    rewrite list_ascii_of_string_of_list_ascii.
    apply BufferMore.sanitize_well_formed_always. }
  induction parts as [|part rest IH]; intros body Hbody; [exact Hbody|].
  simpl. destruct (part_text "text/plain" part); [apply Hdec|].
  destruct (part_text "text/html" part); apply IH; auto.
Qed.

Lemma part_text_carried (mime : string) (part : MessagePart)
  (data : string) :
  part_text mime part = Some data -> body_data part = Some data.
Proof.
  unfold part_text. now destruct (opt_eqb (p_mimeType part) mime).
Qed.

(** The loop leaves [body] as it is or sets it to the decoded data of
    one of the parts. *)
Lemma scanParts_carried (parts : list MessagePart) :
  forall body,
    scanParts parts body = body
    \/ exists part data,
        In part parts /\ body_data part = Some data
        /\ scanParts parts body = decode data.
Proof.
  induction parts as [|part rest IH]; intros body; [now left|].
  cbn [scanParts].
  destruct (part_text "text/plain" part) as [data|] eqn:Hplain.
  { right. exists part, data.
    split; [now left|]. split; [|reflexivity].
    now apply part_text_carried with (mime := "text/plain"). }
  destruct (part_text "text/html" part) as [data|] eqn:Hhtml.
  - destruct (IH (decode data)) as [-> | (q & d & Hq & Hd & ->)].
    + right. exists part, data.
      split; [now left|]. split; [|reflexivity].
      now apply part_text_carried with (mime := "text/html").
    + right. exists q, d. split; [now right|]. now split.
  - destruct (IH body) as [-> | (q & d & Hq & Hd & ->)]; [now left|].
    right. exists q, d. split; [now right|]. now split.
Qed.

(** X13: whatever the provider sends as body data (any characters, any
    bytes once decoded), the body [getEmailContentTool] extracts is
    well-formed UTF-8, and the decoding it applies is substitution of
    U+FFFD and nothing else: read from left to right, every encoding of
    a code point in the bytes is kept as it is and every maximal
    ill-formed run is replaced by one U+FFFD, no byte being dropped;
    this determines the text. The body is empty or the decoding of a
    data string the payload carries, in its own body or in that of a
    direct part. *)
Theorem extracted_body_is_well_formed (payload : option MessagePart) :
  Buffer.well_formed (Buffer.from (extractBody payload))
  /\ (forall data out,
         Utf8.Repaired (Buffer.fromBase64 data) out
         <-> out = Buffer.from (decode data))
  /\ (extractBody payload = ""
      \/ exists data,
          carries payload data /\ extractBody payload = decode data).
Proof.
  split; [|split].
  - destruct payload as [p|]; [|constructor]. unfold extractBody.
    destruct (body_data p) as [data|].
    + unfold decode, Buffer.toStringUtf8, Buffer.from.
      rewrite list_ascii_of_string_of_list_ascii.
      apply BufferMore.sanitize_well_formed_always.
    + destruct (p_parts p) as [parts|]; [|constructor].
      apply scanParts_well_formed. constructor.
  - intros data out. unfold decode, Buffer.toStringUtf8, Buffer.from.
    rewrite list_ascii_of_string_of_list_ascii. split.
    + intros H.
      exact (Utf8Facts.Repaired_unique _ _ H _
               (Utf8Facts.sanitize_repairs _)).
    + intros ->. apply Utf8Facts.sanitize_repairs.
  - destruct payload as [p|]; [|now left]. unfold extractBody.
    destruct (body_data p) as [data|] eqn:Hdata.
    + right. exists data. split; [|reflexivity].
      exists p. split; [reflexivity|now left].
    + destruct (p_parts p) as [parts|] eqn:Hparts; [|now left].
      destruct (scanParts_carried parts "")
        as [-> | (part & data & Hin & Hd & ->)]; [now left|].
      right. exists data. split; [|reflexivity].
      exists p. split; [reflexivity|]. right. now exists parts, part.
Qed.

(** Body data holding a euro sign cut short, the letter A and the byte
    FF comes out as U+FFFD, A, U+FFFD. *)
Lemma ill_formed_body_witness :
  Buffer.fromBase64 "4oJB/w==" = map ascii_of_N [226; 130; 65; 255]%N
  /\ extractBody (Some Mailbox.cut_short)
     = string_of_list_ascii
         (Buffer.replacement ++ "A"%char :: Buffer.replacement)%list
  /\ Utf8.Repaired (Buffer.fromBase64 "4oJB/w==")
       (Buffer.from (extractBody (Some Mailbox.cut_short))).
Proof.
  split; [reflexivity|]. split; [reflexivity|].
  destruct (extracted_body_is_well_formed (Some Mailbox.cut_short))
    as (_ & Hdec & _).
  apply Hdec. reflexivity.
Defined.

(** ** getEmailContentTool, further *)

Lemma scanParts_nothing (parts : list MessagePart) (body : string) :
  (forall p, In p parts ->
             part_text "text/plain" p = None
             /\ part_text "text/html" p = None) ->
  scanParts parts body = body.
Proof.
  induction parts as [|p r IH]; intros H; [reflexivity|]. simpl.
  destruct (H p (or_introl eq_refl)) as [-> ->].
  apply IH. intros q Hq. apply H. now right.
Qed.

Lemma scanParts_last_html (pre post : list MessagePart) (html : MessagePart)
  (data : string) :
  (forall p, In p pre -> part_text "text/plain" p = None) ->
  part_text "text/plain" html = None ->
  part_text "text/html" html = Some data ->
  (forall p, In p post ->
             part_text "text/plain" p = None
             /\ part_text "text/html" p = None) ->
  forall body, scanParts (pre ++ html :: post) body = decode data.
Proof.
  intros Hpre Hplain Hhtml Hpost.
  induction pre as [|p r IH]; intros body; simpl.
  - rewrite Hplain, Hhtml. now apply scanParts_nothing.
  - rewrite (Hpre p (or_introl eq_refl)).
    destruct (part_text "text/html" p); apply IH;
      intros q Hq; apply Hpre; now right.
Qed.

(** X14: in a payload without top-level body data, when no direct part
    is a [text/plain] part with data, the body is the decoded data of
    the last [text/html] part with data (each one overwrites the one
    before); and when no direct part is a text part with data the body
    is empty, whatever the parts contain one level down: nested parts
    are not searched. *)
Theorem html_is_the_fallback (mimeType : option string)
  (headers : option (list Header)) (body : option MessagePartBody) :
  (forall pre html post data,
      body_data (mkMessagePart mimeType headers body
                   (Some (pre ++ html :: post)%list)) = None ->
      (forall p, In p (pre ++ html :: post)%list ->
                 part_text "text/plain" p = None) ->
      part_text "text/html" html = Some data ->
      (forall p, In p post -> part_text "text/html" p = None) ->
      extractBody (Some (mkMessagePart mimeType headers body
                           (Some (pre ++ html :: post)%list)))
      = decode data)
  /\ (forall parts,
         body_data (mkMessagePart mimeType headers body (Some parts)) = None ->
         (forall p, In p parts ->
                    part_text "text/plain" p = None
                    /\ part_text "text/html" p = None) ->
         extractBody (Some (mkMessagePart mimeType headers body (Some parts)))
         = "").
Proof.
  split.
  - intros pre html post data Hnone Hplain Hhtml Hpost.
    unfold extractBody. rewrite Hnone. simpl.
    apply scanParts_last_html; auto.
    + intros p Hp. apply Hplain. apply in_or_app. now left.
    + apply Hplain. apply in_or_app. right. now left.
    + intros p Hp. split; [|now apply Hpost].
      apply Hplain. apply in_or_app. right. now right.
  - intros parts Hnone Hparts. unfold extractBody. rewrite Hnone. simpl.
    now apply scanParts_nothing.
Qed.

Lemma html_fallback_witness :
  extractBody (Some Mailbox.two_html) = "Hi"
  /\ extractBody (Some Mailbox.with_attachment) = "".
Proof.
  split.
  - destruct (html_is_the_fallback (Some "multipart/alternative") None None)
      as [H _].
    change (extractBody
              (Some (mkMessagePart (Some "multipart/alternative") None None
                       (Some ([mkMessagePart (Some "text/html") None
                                 (Some {| b_data := Some "PGI+SGk8L2I+" |})
                                 None]
                                ++ mkMessagePart (Some "text/html") None
                                     (Some {| b_data := Some "SGk=" |}) None
                                :: [])%list)))
            = decode "SGk=").
    apply H; [reflexivity| |reflexivity|intros p []].
    intros p [<-|[<-|[]]]; reflexivity.
  - destruct (html_is_the_fallback (Some "multipart/mixed") None
                (Some {| b_data := None |})) as [_ H].
    apply H; [reflexivity|].
    intros p [<-|[<-|[]]]; split; reflexivity.
Defined.

Lemma header_value_missing (headers : list Header) (name : string) :
  (forall h, In h headers -> h_name h <> Some name) ->
  header_value headers name = None.
Proof.
  intros H. unfold header_value.
  induction headers as [|h r IH]; [reflexivity|]. simpl.
  destruct (opt_eqb (h_name h) name) eqn:E.
  - apply opt_eqb_true in E. now destruct (H h (or_introl eq_refl)).
  - apply IH. intros q Hq. apply H. now right.
Qed.

(** X15: when the fetched message has no header named exactly
    "Subject", "From", "To" or "Date" (names are compared as they are,
    case included), [getEmailContentTool] still succeeds and fills in
    "(No Subject)", "Unknown", "" and ""; the id it returns is the one
    it was asked for, and missing label ids come out as an empty list. *)
Theorem missing_headers_get_placeholders (host : Host) (logger : bool)
  (emailId : string) (w w1 : World) (tok : value) (emailData : Message) :
  getGmailAccessToken host w = (inr tok, w1) ->
  respond host (apiLog w) tok
    (Gmail_messages_get "me" (Some emailId) "full" None)
  = inr emailData ->
  (forall h name,
      In h (payload_headers emailData) ->
      In name ["Subject"; "From"; "To"; "Date"] ->
      h_name h <> Some name) ->
  m_labelIds emailData = None ->
  result (getEmailContentTool host logger emailId w)
  = inr {| ec_id := emailId;
           ec_threadId := m_threadId emailData;
           ec_subject := "(No Subject)";
           ec_from := "Unknown";
           ec_to := "";
           ec_date := "";
           ec_body := extractBody (m_payload emailData);
           ec_labels := [] |}.
Proof.
  intros Htok Hget Hnames Hlabels. unfold getEmailContentTool.
  enter_tool host logger Mail w w1 tok Htok Hlog Htime.
  cbn [gmail_access_token].
  rewrite bind_run, call_run, Hlog, Hget. cbv beta iota zeta.
  rewrite bind_run, log_run. cbv beta iota. cbn [ret result fst].
  rewrite !header_value_missing, Hlabels; [reflexivity| | | |];
    intros h Hh; apply Hnames; simpl; auto.
Qed.

Lemma missing_headers_witness :
  result (getEmailContentTool
            (Scenario.serving (Mailbox.full_of Mailbox.lower_case_subject))
            true "m9" Scenario.cold)
  = inr {| ec_id := "m9"; ec_threadId := Some "t9";
           ec_subject := "(No Subject)"; ec_from := "Unknown";
           ec_to := ""; ec_date := ""; ec_body := ""; ec_labels := [] |}.
Proof.
  refine (missing_headers_get_placeholders
            (Scenario.serving (Mailbox.full_of Mailbox.lower_case_subject))
            true "m9" Scenario.cold
            (final (getGmailAccessToken
                      (Scenario.serving
                         (Mailbox.full_of Mailbox.lower_case_subject))
                      Scenario.cold))
            (VStr "A") Mailbox.lower_case_subject eq_refl eq_refl _ eq_refl).
  intros h name [<-|[]] [<-|[<-|[<-|[<-|[]]]]]; discriminate.
Defined.

(** ** The list tools, further *)

Lemma num_or_never_zero (given : option Z) :
  num_or given 50 <> 0%Z
  /\ (forall n, given = Some n -> n <> 0%Z -> num_or given 50 = n)
  /\ (given = None \/ given = Some 0%Z -> num_or given 50 = 50%Z).
Proof.
  unfold num_or. split; [|split].
  - destruct given as [n|]; [|discriminate].
    destruct (n =? 0)%Z eqn:E; [discriminate|]. now apply Z.eqb_neq.
  - intros n -> Hn. apply Z.eqb_neq in Hn. now rewrite Hn.
  - intros [-> | ->]; reflexivity.
Qed.

(** X16: [listUpcomingEventsTool] does not cut the listing itself: it
    returns one record per event the provider lists, in the provider's
    order, with [totalCount] their number, even when that is more than
    [maxResults]. *)
Theorem events_are_not_cut (host : Host) (logger : bool)
  (context : ListUpcomingEventsInput) (w w1 : World) (tok : value)
  (listed : list Event) :
  getCalendarAccessToken host w = (inr tok, w1) ->
  respond host (apiLog w) tok
    (Calendar_events_list "primary" (num_or (lu_maxResults context) 50)
       (str_or (lu_timeMin context) (toISOString host (time w)))
       true "startTime")
  = inr {| r_items := Some listed |} ->
  exists out,
    result (listUpcomingEventsTool host logger context w) = inr out
    /\ luo_totalCount out = List.length listed
    /\ map ev_id (luo_events out) = map e_id listed.
Proof.
  intros Htok Hlist.
  rewrite (listUpcomingEventsTool_lists host logger context w w1 tok _
             Htok Hlist).
  eexists. split; [reflexivity|]. cbn. split; [reflexivity|].
  now rewrite map_map.
Qed.

Lemma events_are_not_cut_witness :
  exists out,
    result (listUpcomingEventsTool (Scenario.serving Scenario.two_items) true
              Mailbox.one_please Scenario.cold) = inr out
    /\ luo_totalCount out = 2%nat
    /\ map ev_id (luo_events out) = [Some "e1"; Some "e2"].
Proof.
  exact (events_are_not_cut (Scenario.serving Scenario.two_items) true
           Mailbox.one_please Scenario.cold
           (final (getCalendarAccessToken
                     (Scenario.serving Scenario.two_items) Scenario.cold))
           (VStr "A") [Scenario.event_1; Scenario.event_2]
           eq_refl eq_refl).
Defined.

Section ListEmailsOrder.

Variable host : Host.
Variable logger : bool.

(** The loop appends to [emails] the records of the messages whose
    request went through, and makes one request per message. *)
Lemma fetchSummaries_fetched (gmail : GmailClient)
  (messages : list Message) :
  forall (emails : list EmailSummary) (w : World),
  exists news w' gets,
    fetchSummaries host logger gmail messages emails w
    = (inr (emails ++ news)%list, w')
    /\ apiLog w' = (apiLog w ++ gets)%list
    /\ map inv_call gets = map metadata_request messages
    /\ Forall2 (record_of host (gmail_access_token gmail)) news
         (fetched messages gets).
Proof.
  induction messages as [|message rest IH]; intros emails w.
  - exists [], w, []. simpl. rewrite !app_nil_r. repeat split. constructor.
  - cbn [fetchSummaries]. rewrite bind_run. unfold try_catch.
    rewrite bind_run, call_run.
    destruct (respond host (apiLog w) (gmail_access_token gmail)
                (Gmail_messages_get "me" (m_id message) "metadata"
                   (Some ["Subject"; "From"; "Date"])))
      as [err|emailData] eqn:Hresp; cbv beta iota.
    + rewrite bind_run, log_run. cbv beta iota. cbn [ret].
      match goal with
      | |- context [fetchSummaries host logger gmail rest emails ?w2] =>
          destruct (IH emails w2)
            as (news & w' & gets & Hloop & Hlog & Hgets & Hrec)
      end.
      rewrite logged_apiLog in Hlog. cbn [apiLog record_call] in Hlog.
      eexists news, w', (_ :: gets). split; [exact Hloop|].
      split; [rewrite Hlog, <- app_assoc; reflexivity|].
      split; [cbn; now rewrite Hgets|]. exact Hrec.
    + cbn [ret].
      match goal with
      | |- context [fetchSummaries host logger gmail rest ?em ?w2] =>
          destruct (IH em w2)
            as (news & w' & gets & Hloop & Hlog & Hgets & Hrec)
      end.
      cbn [apiLog record_call] in Hlog.
      eexists (_ :: news), w', (_ :: gets).
      split; [rewrite Hloop, <- app_assoc; reflexivity|].
      split; [rewrite Hlog, <- app_assoc; reflexivity|].
      split; [cbn; now rewrite Hgets|].
      cbn. constructor; [|exact Hrec].
      exists (apiLog w), emailData. split; [exact Hresp|reflexivity].
Qed.

Lemma records_follow (tok : value) (emails : list EmailSummary)
  (kept : list Message) :
  Forall2 (record_of host tok) emails kept ->
  map es_id emails = map m_id kept
  /\ map es_threadId emails = map m_threadId kept
  /\ List.length emails = List.length kept.
Proof.
  induction 1 as [|e m emails kept (before & emailData & _ & ->) _ IH].
  - repeat split.
  - destruct IH as (Hid & Hth & Hlen). cbn. now rewrite Hid, Hth, Hlen.
Qed.

(** X17: once the token is obtained and the messages are listed,
    [listEmailsTool] succeeds, and its records are those of the listed
    messages whose metadata request went through, and of no other, in
    the order of the listing. With [gets] the requests that follow the
    listing call in the trace, one per listed message, the records are,
    one for one, the summaries of the messages whose request is traced
    without a failure, each built from the metadata the provider
    answered; [totalCount] is their number. *)
Theorem emails_follow_the_listing (context : ListEmailsInput)
  (w w1 : World) (tok : value) (listResponse : ListMessagesResponse) :
  getGmailAccessToken host w = (inr tok, w1) ->
  respond host (apiLog w) tok
    (Gmail_messages_list "me" (num_or (le_maxResults context) 50)
       (str_or (le_query context) ""))
  = inr listResponse ->
  exists out gets,
    let messages :=
      match r_messages listResponse with Some l => l | None => [] end in
    let kept := fetched messages gets in
    result (listEmailsTool host logger context w) = inr out
    /\ new_calls w (final (listEmailsTool host logger context w))
       = succeeded tok
           (Gmail_messages_list "me" (num_or (le_maxResults context) 50)
              (str_or (le_query context) ""))
         :: gets
    /\ map inv_call gets = map metadata_request messages
    /\ Forall2 (record_of host tok) (leo_emails out) kept
    /\ map es_id (leo_emails out) = map m_id kept
    /\ map es_threadId (leo_emails out) = map m_threadId kept
    /\ leo_totalCount out = List.length kept.
Proof.
  intros Htok Hlist. unfold listEmailsTool.
  enter_tool host logger Mail w w1 tok Htok Hlog Htime.
  cbn [gmail_access_token].
  rewrite bind_run, call_run, Hlog, Hlist. cbv beta iota zeta.
  rewrite bind_run, log_run. cbv beta iota. rewrite bind_run.
  match goal with
  | |- context [fetchSummaries host logger ?g ?ms [] ?w2] =>
      destruct (fetchSummaries_fetched g ms [] w2)
        as (news & w' & gets & Hloop & Hcalls & Hgets & Hrec)
  end.
  rewrite Hloop. cbv beta iota. rewrite bind_run, log_run. cbv beta iota.
  cbn [ret result fst]. cbn [gmail_access_token] in Hrec.
  destruct (records_follow tok news _ Hrec) as (Hid & Hth & Hlen).
  eexists _, gets. split; [reflexivity|].
  cbn [leo_emails leo_totalCount app].
  split.
  { unfold new_calls, final. cbn [snd].
    rewrite logged_apiLog, Hcalls, logged_apiLog. cbn [apiLog record_call].
    rewrite Hlog, <- app_assoc, skipn_app_exact. reflexivity. }
  split; [exact Hgets|]. split; [exact Hrec|].
  split; [exact Hid|]. split; [exact Hth|exact Hlen].
Qed.

(** X18: neither list tool ever asks the provider for zero results: the
    cap it sends is the one given when that is not 0, and 50 when none
    is given or 0 is. *)
Theorem cap_sent_is_never_zero (w w1 : World) (tok : value) :
  (forall context,
      getCalendarAccessToken host w = (inr tok, w1) ->
      exists cap,
        map inv_call
          (new_calls w (final (listUpcomingEventsTool host logger context w)))
        = [Calendar_events_list "primary" cap
             (str_or (lu_timeMin context) (toISOString host (time w)))
             true "startTime"]
        /\ cap <> 0%Z
        /\ (forall n, lu_maxResults context = Some n -> n <> 0%Z -> cap = n)
        /\ (lu_maxResults context = None \/ lu_maxResults context = Some 0%Z ->
            cap = 50%Z))
  /\ (forall context,
         getGmailAccessToken host w = (inr tok, w1) ->
         exists cap,
           hd_error
             (map inv_call
                (new_calls w (final (listEmailsTool host logger context w))))
           = Some (Gmail_messages_list "me" cap (str_or (le_query context) ""))
           /\ cap <> 0%Z
           /\ (forall n, le_maxResults context = Some n -> n <> 0%Z -> cap = n)
           /\ (le_maxResults context = None \/ le_maxResults context = Some 0%Z ->
               cap = 50%Z)).
Proof.
  split; intros context Htok.
  - exists (num_or (lu_maxResults context) 50).
    split; [exact (listUpcomingEventsTool_call host logger context w w1 tok
                     Htok)|].
    apply num_or_never_zero.
  - exists (num_or (le_maxResults context) 50).
    split; [exact (listEmailsTool_first_call host logger context w w1 tok
                     Htok)|].
    apply num_or_never_zero.
Qed.

End ListEmailsOrder.

Lemma emails_follow_witness :
  let run :=
    listEmailsTool (Scenario.serving Mailbox.first_unreadable) true
      Scenario.no_input Scenario.cold in
  exists out,
    result run = inr out
    /\ map inv_failure (new_calls Scenario.cold (final run))
       = [None; Some Scenario.backend_error; None]
    /\ map es_id (leo_emails out) = [Some "m2"]
    /\ leo_totalCount out = 1%nat.
Proof.
  cbv zeta.
  destruct (emails_follow_the_listing
              (Scenario.serving Mailbox.first_unreadable) true
              Scenario.no_input Scenario.cold
              (final (getGmailAccessToken
                        (Scenario.serving Mailbox.first_unreadable)
                        Scenario.cold))
              (VStr "A")
              {| r_messages :=
                   Some [Scenario.message_1; Scenario.message_2] |}
              eq_refl eq_refl)
    as (out & gets & Hres & Hcalls & _ & _ & Hid & _ & Hcount).
  injection Hcalls as <-.
  exists out. split; [exact Hres|].
  split; [reflexivity|]. split; [exact Hid|exact Hcount].
Defined.

Lemma cap_sent_witness :
  exists cap,
    map inv_call
      (new_calls Scenario.cold
         (final (listUpcomingEventsTool (Scenario.serving Scenario.two_items)
                   true Mailbox.zero_please Scenario.cold)))
    = [Calendar_events_list "primary" cap "2025-01-01T00:00:00.000Z" true
         "startTime"]
    /\ cap = 50%Z.
Proof.
  destruct (cap_sent_is_never_zero (Scenario.serving Scenario.two_items) true
              Scenario.cold
              (final (getCalendarAccessToken
                        (Scenario.serving Scenario.two_items) Scenario.cold))
              (VStr "A")) as [H _].
  destruct (H Mailbox.zero_please eq_refl) as (cap & Hcall & _ & _ & Hzero).
  exists cap. split; [exact Hcall|]. apply Hzero. now right.
Defined.

(** ** createCalendarEventTool *)

Lemma before_T_prefix (d t : string) :
  has_T d = false -> before_T (d ++ "T" ++ t) = d.
Proof.
  change ("T" ++ t) with (String "T"%char t).
  induction d as [|c r IH]; simpl; [reflexivity|].
  intros H. apply orb_false_iff in H as [Hc Hr]. rewrite Hc.
  now rewrite IH.
Qed.

Lemma str_or_never_empty (given : option string) (default : string) :
  default <> "" ->
  str_or given default <> ""
  /\ (forall z, given = Some z -> z <> "" -> str_or given default = z)
  /\ (given = None \/ given = Some "" -> str_or given default = default).
Proof.
  intros Hd. unfold str_or. split; [|split].
  - destruct given as [z|]; [|exact Hd].
    destruct (z =? "") eqn:E; [exact Hd|]. now apply String.eqb_neq.
  - intros z -> Hz. apply String.eqb_neq in Hz. now rewrite Hz.
  - intros [-> | ->]; reflexivity.
Qed.

Section CreateEvent.

Variable host : Host.
Variable logger : bool.

(** The tool makes one client call, the insert. *)
Lemma createCalendarEventTool_call (context : CreateCalendarEventInput)
  (w w1 : World) (tok : value) :
  getCalendarAccessToken host w = (inr tok, w1) ->
  map inv_call
    (new_calls w (final (createCalendarEventTool host logger context w)))
  = [match ce_allDay context with
     | Some true =>
         Calendar_events_insert "primary" (ce_summary context)
           (ce_description context) (ce_location context)
           {| dateTime := None;
              date := Some (before_T (ce_startDateTime context));
              timeZone := None |}
           {| dateTime := None;
              date := Some (before_T (ce_endDateTime context));
              timeZone := None |}
     | _ =>
         Calendar_events_insert "primary" (ce_summary context)
           (ce_description context) (ce_location context)
           {| dateTime := Some (ce_startDateTime context);
              date := None;
              timeZone := Some (str_or (ce_timeZone context)
                                  "America/Phoenix") |}
           {| dateTime := Some (ce_endDateTime context);
              date := None;
              timeZone := Some (str_or (ce_timeZone context)
                                  "America/Phoenix") |}
     end].
Proof.
  intros Htok. unfold createCalendarEventTool.
  enter_tool host logger Calendar w w1 tok Htok Hlog Htime.
  cbn [calendar_access_token].
  destruct (ce_allDay context) as [[|]|];
    rewrite bind_run, call_run, Hlog;
    (destruct (respond host (apiLog w) tok _) as [err|event];
     cbv beta iota zeta;
     [|rewrite bind_run, log_run; cbv beta iota; cbn [ret]]);
    unfold new_calls, final; cbn [snd]; rewrite logged_apiLog;
    cbn [apiLog record_call]; rewrite Hlog, skipn_app_exact; reflexivity.
Qed.

(** X19: the one call [createCalendarEventTool] makes is an insert into
    the primary calendar, with no lookup before it. For an all-day event
    with ISO date-times, start and end carry the date alone (the text
    before the "T") and no time zone; otherwise they carry the
    date-times as given and one time zone for both, the one given or
    "America/Phoenix" when none or an empty one is, never an empty
    one. *)
Theorem event_times (context : CreateCalendarEventInput) (w w1 : World)
  (tok : value) :
  getCalendarAccessToken host w = (inr tok, w1) ->
  (forall d1 t1 d2 t2,
      ce_allDay context = Some true ->
      ce_startDateTime context = d1 ++ "T" ++ t1 -> has_T d1 = false ->
      ce_endDateTime context = d2 ++ "T" ++ t2 -> has_T d2 = false ->
      map inv_call
        (new_calls w (final (createCalendarEventTool host logger context w)))
      = [Calendar_events_insert "primary" (ce_summary context)
           (ce_description context) (ce_location context)
           {| dateTime := None; date := Some d1; timeZone := None |}
           {| dateTime := None; date := Some d2; timeZone := None |}])
  /\ (ce_allDay context <> Some true ->
      exists zone,
        map inv_call
          (new_calls w
             (final (createCalendarEventTool host logger context w)))
        = [Calendar_events_insert "primary" (ce_summary context)
             (ce_description context) (ce_location context)
             {| dateTime := Some (ce_startDateTime context); date := None;
                timeZone := Some zone |}
             {| dateTime := Some (ce_endDateTime context); date := None;
                timeZone := Some zone |}]
        /\ zone <> ""
        /\ (forall z, ce_timeZone context = Some z -> z <> "" -> zone = z)
        /\ (ce_timeZone context = None \/ ce_timeZone context = Some "" ->
            zone = "America/Phoenix")).
Proof.
  intros Htok.
  pose proof (createCalendarEventTool_call context w w1 tok Htok) as Hcall.
  split.
  - intros d1 t1 d2 t2 Hall Hs H1 He H2. rewrite Hcall, Hall, Hs, He.
    now rewrite !before_T_prefix.
  - intros Hnot. exists (str_or (ce_timeZone context) "America/Phoenix").
    split; [|apply str_or_never_empty; discriminate].
    rewrite Hcall. destruct (ce_allDay context) as [[|]|];
      [now destruct Hnot|reflexivity|reflexivity].
Qed.

End CreateEvent.

Lemma event_times_witness :
  map inv_call
    (new_calls Scenario.cold
       (final (createCalendarEventTool (Scenario.connector
                                          (Scenario.response
                                             [Scenario.token_A_fresh]))
                 true Mailbox.all_day Scenario.cold)))
  = [Calendar_events_insert "primary" "Candidate forum" None None
       {| dateTime := None; date := Some "2025-03-01"; timeZone := None |}
       {| dateTime := None; date := Some "2025-03-02"; timeZone := None |}]
  /\ exists zone,
      map inv_call
        (new_calls Scenario.cold
           (final (createCalendarEventTool
                     (Scenario.connector
                        (Scenario.response [Scenario.token_A_fresh]))
                     true Mailbox.timed_no_zone Scenario.cold)))
      = [Calendar_events_insert "primary" "Candidate forum" None None
           {| dateTime := Some "2025-03-01T18:00:00"; date := None;
              timeZone := Some zone |}
           {| dateTime := Some "2025-03-01T20:00:00"; date := None;
              timeZone := Some zone |}]
      /\ zone = "America/Phoenix".
Proof.
  split.
  - destruct (event_times
                (Scenario.connector
                   (Scenario.response [Scenario.token_A_fresh]))
                true Mailbox.all_day Scenario.cold
                (final (getCalendarAccessToken
                          (Scenario.connector
                             (Scenario.response [Scenario.token_A_fresh]))
                          Scenario.cold))
                (VStr "A") eq_refl) as [H _].
    exact (H "2025-03-01" "18:00:00" "2025-03-02" "00:00:00"
             eq_refl eq_refl eq_refl eq_refl eq_refl).
  - destruct (event_times
                (Scenario.connector
                   (Scenario.response [Scenario.token_A_fresh]))
                true Mailbox.timed_no_zone Scenario.cold
                (final (getCalendarAccessToken
                          (Scenario.connector
                             (Scenario.response [Scenario.token_A_fresh]))
                          Scenario.cold))
                (VStr "A") eq_refl) as [_ H].
    destruct H as (zone & Hcall & _ & _ & Hdefault); [discriminate|].
    exists zone. split; [exact Hcall|]. apply Hdefault. now right.
Defined.

(** ** The workflow *)

Lemma logged_time (logger : bool) (entry : LogEntry) (w : World) :
  time (logged logger entry w) = time w.
Proof. destruct logger; reflexivity. Qed.

Lemma logged_logs (logger : bool) (entry : LogEntry) (w : World) :
  logs (logged logger entry w)
  = (logs w ++ if logger then [entry] else [])%list.
Proof. destruct logger; simpl; [reflexivity|now rewrite app_nil_r]. Qed.

Lemma occurs_in_here (s after : string) : occurs_in s (s ++ after).
Proof. now exists "", after. Qed.

Lemma occurs_in_later (s a t : string) : occurs_in s t -> occurs_in s (a ++ t).
Proof.
  intros (before & after & ->). exists (a ++ before), after.
  now rewrite append_assoc.
Qed.

Section WorkflowFacts.

Variable host : Host.
Variable rt : Runtime.
Variable logger : bool.

Lemma processEmailsStep_run (w : World) :
  processEmailsStep host rt logger w
  = match agent_call rt logger w with
    | (inr text, w') =>
        (inr {| agentResponse := text;
                processedAt := toISOString host (time w');
                success := true |},
         logged logger
           {| level := Info;
              message :=
                "✅ [Step 1] Campaign Email Agent completed processing";
              data := [] |} w')
    | (inl e, w') =>
        (inr {| agentResponse := "Error processing emails: " ++ exn_message e;
                processedAt := toISOString host (time w');
                success := false |},
         logged logger
           {| level := Err;
              message := "❌ [Step 1] Failed to process emails";
              data := [("error", LString (Some (exn_message e)))] |} w')
    end.
Proof.
  unfold processEmailsStep, agent_call.
  rewrite bind_run, log_run. cbv beta iota. rewrite bind_run. cbn [gets].
  cbv beta iota zeta. rewrite logged_time. unfold try_catch.
  rewrite bind_run, log_run. cbv beta iota. rewrite bind_run.
  destruct (generate rt _ 20 _) as [[e|text] w']; cbv beta iota.
  - rewrite bind_run, log_run. cbv beta iota. rewrite bind_run. cbn [gets].
    cbv beta iota. now rewrite logged_time.
  - rewrite bind_run, log_run. cbv beta iota. rewrite bind_run. cbn [gets].
    cbv beta iota. now rewrite logged_time.
Qed.

Lemma generateSummaryStep_run (inputData : ProcessOutput) (w : World) :
  generateSummaryStep host logger inputData w
  = (inr {| summary := summaryReport inputData;
            completedAt := toISOString host (time w);
            overallSuccess := success inputData |},
     logged logger
       {| level := Info; message := "✅ [Step 2] Summary report generated";
          data := [] |}
       (logged logger
          {| level := Info; message := summaryReport inputData; data := [] |}
          (logged logger
             {| level := Info;
                message := "📊 [Step 2] Generating summary report...";
                data := [] |} w))).
Proof.
  unfold generateSummaryStep.
  rewrite bind_run, log_run. cbv beta iota zeta.
  rewrite bind_run, log_run. cbv beta iota.
  rewrite bind_run, log_run. cbv beta iota. rewrite bind_run. cbn [gets].
  cbv beta iota. now rewrite !logged_time.
Qed.

(** X20: the workflow never fails, whatever the agent does: a failure of
    the agent is caught by the first step and turned into a result, so
    the workflow always completes, with [overallSuccess] telling whether
    the agent ended with a text, and with the report built from what the
    first step returned. *)
Theorem workflow_always_completes (w : World) :
  exists out,
    result (campaignEmailWorkflow host rt logger w) = inr out
    /\ overallSuccess out
       = match result (agent_call rt logger w) with inr _ => true | inl _ => false end
    /\ occurs_in
         match result (agent_call rt logger w) with
         | inr text => text
         | inl e => "Error processing emails: " ++ exn_message e
         end
         (summary out).
Proof.
  unfold campaignEmailWorkflow. rewrite bind_run, processEmailsStep_run.
  unfold result.
  destruct (agent_call rt logger w) as [[e|text] w']; cbv beta iota;
    rewrite generateSummaryStep_run; cbn [fst];
    eexists; (split; [reflexivity|]); (split; [reflexivity|]);
    cbn [summary agentResponse success processedAt]; unfold summaryReport;
    cbn [agentResponse success processedAt];
    repeat (first [apply occurs_in_here | apply occurs_in_later]).
Qed.

(** X21: when the agent fails, the workflow completes with
    [overallSuccess = false]; its report shows the status "Failed" and
    quotes the message of the failure, and the failure is in the log as
    an error of the first step. *)
Theorem agent_failure_is_reported (w w' : World) (e : exn) :
  agent_call rt logger w = (inl e, w') ->
  exists out,
    result (campaignEmailWorkflow host rt logger w) = inr out
    /\ overallSuccess out = false
    /\ occurs_in "✅ Status: Failed" (summary out)
    /\ occurs_in ("Error processing emails: " ++ exn_message e) (summary out)
    /\ (logger = true ->
        In {| level := Err;
              message := "❌ [Step 1] Failed to process emails";
              data := [("error", LString (Some (exn_message e)))] |}
           (logs (final (campaignEmailWorkflow host rt logger w)))).
Proof.
  intros Hagent. unfold campaignEmailWorkflow.
  rewrite bind_run, processEmailsStep_run, Hagent. cbv beta iota.
  rewrite generateSummaryStep_run. unfold result, final. cbn [fst snd].
  eexists. split; [reflexivity|]. split; [reflexivity|].
  cbn [summary]. unfold summaryReport.
  cbn [agentResponse success processedAt].
  split; [|split].
  - do 6 apply occurs_in_later.
    match goal with
    | |- occurs_in _ (_ ++ _ ++ ?rest) => exists (String "010"%char ""), rest
    end.
    reflexivity.
  - repeat (first [apply occurs_in_here | apply occurs_in_later]).
  - intros ->. rewrite !logged_logs. cbn.
    apply in_or_app. left. apply in_or_app. left. apply in_or_app. left.
    apply in_or_app. right. now left.
Qed.

End WorkflowFacts.

Lemma agent_failure_witness :
  exists out,
    result (campaignEmailWorkflow (Scenario.connector VNull) Agents.failing
              true Scenario.cold) = inr out
    /\ overallSuccess out = false
    /\ occurs_in "✅ Status: Failed" (summary out)
    /\ occurs_in "Error processing emails: backend error" (summary out).
Proof.
  destruct (agent_failure_is_reported (Scenario.connector VNull)
              Agents.failing true Scenario.cold
              (snd (agent_call Agents.failing true Scenario.cold))
              Scenario.backend_error eq_refl)
    as (out & Hres & Hfail & Hstatus & Hquote & _).
  exists out. repeat split; assumption.
Defined.

(** ** listEmailsTool: the calls it makes *)

Section ListEmailsCalls.

Variable host : Host.
Variable logger : bool.

Lemma fetchSummaries_calls (gmail : GmailClient) (messages : list Message) :
  forall (emails : list EmailSummary) (w : World),
  exists out w' calls,
    fetchSummaries host logger gmail messages emails w = (inr out, w')
    /\ apiLog w' = (apiLog w ++ calls)%list
    /\ map inv_call calls
       = map (fun m => Gmail_messages_get "me" (m_id m) "metadata"
                         (Some ["Subject"; "From"; "Date"])) messages.
Proof.
  induction messages as [|message rest IH]; intros emails w.
  - exists emails, w, []. simpl. now rewrite app_nil_r.
  - cbn [fetchSummaries]. rewrite bind_run. unfold try_catch.
    rewrite bind_run, call_run.
    destruct (respond host (apiLog w) (gmail_access_token gmail)
                (Gmail_messages_get "me" (m_id message) "metadata"
                   (Some ["Subject"; "From"; "Date"]))) as [err|emailData];
      cbv beta iota.
    + rewrite bind_run, log_run. cbv beta iota. cbn [ret].
      match goal with
      | |- context [fetchSummaries host logger gmail rest emails ?w2] =>
          destruct (IH emails w2) as (out & w' & calls & Hloop & Hlog & Hcalls)
      end.
      rewrite logged_apiLog in Hlog. cbn [apiLog record_call] in Hlog.
      eexists out, w', (_ :: calls). split; [exact Hloop|].
      split; [rewrite Hlog, <- app_assoc; reflexivity|].
      cbn. now rewrite Hcalls.
    + cbn [ret].
      match goal with
      | |- context [fetchSummaries host logger gmail rest ?em ?w2] =>
          destruct (IH em w2) as (out & w' & calls & Hloop & Hlog & Hcalls)
      end.
      cbn [apiLog record_call] in Hlog.
      eexists out, w', (_ :: calls). split; [exact Hloop|].
      split; [rewrite Hlog, <- app_assoc; reflexivity|].
      cbn. now rewrite Hcalls.
Qed.

(** X22: once the messages are listed, [listEmailsTool] makes one
    [messages.get] call per listed message and no other: after the
    listing come the metadata requests for the listed ids, in the order
    of the listing, whether or not some of them fail. One plus the
    number of listed messages is the number of client calls. *)
Theorem one_get_per_listed_message (context : ListEmailsInput)
  (w w1 : World) (tok : value) (listResponse : ListMessagesResponse) :
  getGmailAccessToken host w = (inr tok, w1) ->
  respond host (apiLog w) tok
    (Gmail_messages_list "me" (num_or (le_maxResults context) 50)
       (str_or (le_query context) ""))
  = inr listResponse ->
  map inv_call (new_calls w (final (listEmailsTool host logger context w)))
  = Gmail_messages_list "me" (num_or (le_maxResults context) 50)
      (str_or (le_query context) "")
    :: map (fun m => Gmail_messages_get "me" (m_id m) "metadata"
                       (Some ["Subject"; "From"; "Date"]))
         match r_messages listResponse with Some l => l | None => [] end.
Proof.
  intros Htok Hlist. unfold listEmailsTool.
  enter_tool host logger Mail w w1 tok Htok Hlog Htime.
  cbn [gmail_access_token].
  rewrite bind_run, call_run, Hlog, Hlist. cbv beta iota zeta.
  rewrite bind_run, log_run. cbv beta iota. rewrite bind_run.
  match goal with
  | |- context [fetchSummaries host logger ?g ?ms [] ?w2] =>
      destruct (fetchSummaries_calls g ms [] w2)
        as (out & w' & calls & Hloop & Hcalls & Hgets)
  end.
  rewrite Hloop. cbv beta iota. rewrite bind_run, log_run. cbv beta iota.
  cbn [ret]. unfold new_calls, final. cbn [snd].
  rewrite logged_apiLog, Hcalls, logged_apiLog. cbn [apiLog record_call].
  rewrite Hlog, <- app_assoc, skipn_app_exact. cbn. now rewrite Hgets.
Qed.

End ListEmailsCalls.

Lemma one_get_per_message_witness :
  map inv_call
    (new_calls Scenario.cold
       (final (listEmailsTool (Scenario.serving Scenario.two_items) true
                 Scenario.two_mails_please Scenario.cold)))
  = [Gmail_messages_list "me" 2 "";
     Gmail_messages_get "me" (Some "m1") "metadata"
       (Some ["Subject"; "From"; "Date"]);
     Gmail_messages_get "me" (Some "m2") "metadata"
       (Some ["Subject"; "From"; "Date"])].
Proof.
  exact (one_get_per_listed_message (Scenario.serving Scenario.two_items) true
           Scenario.two_mails_please Scenario.cold
           (final (getGmailAccessToken (Scenario.serving Scenario.two_items)
                     Scenario.cold))
           (VStr "A")
           {| r_messages := Some [Scenario.message_1; Scenario.message_2] |}
           eq_refl eq_refl).
Defined.

(** ** No retry *)

Section NoRetry.

Variable host : Host.
Variable logger : bool.

Lemma one_call_by_trace (w w' : World) (c : ApiCall) :
  map inv_call (new_calls w w') = [c] ->
  List.length (new_calls w w') = 1%nat.
Proof. intros H. now rewrite <- (length_map inv_call), H. Qed.

Lemma getEmailContentTool_call (emailId : string) (w w1 : World)
  (tok : value) :
  getGmailAccessToken host w = (inr tok, w1) ->
  map inv_call (new_calls w (final (getEmailContentTool host logger emailId w)))
  = [Gmail_messages_get "me" (Some emailId) "full" None].
Proof.
  intros Htok. unfold getEmailContentTool.
  enter_tool host logger Mail w w1 tok Htok Hlog Htime.
  cbn [gmail_access_token]. rewrite bind_run, call_run, Hlog.
  destruct (respond host (apiLog w) tok _) as [err|emailData];
    cbv beta iota zeta;
    [|rewrite bind_run, log_run; cbv beta iota; cbn [ret]];
    unfold new_calls, final; cbn [snd]; rewrite logged_apiLog;
    cbn [apiLog record_call]; rewrite Hlog, skipn_app_exact; reflexivity.
Qed.

Lemma addLabelToEmailTool_call (emailId labelId : string) (w w1 : World)
  (tok : value) :
  getGmailAccessToken host w = (inr tok, w1) ->
  map inv_call
    (new_calls w (final (addLabelToEmailTool host logger emailId labelId w)))
  = [Gmail_messages_modify "me" emailId [labelId]].
Proof.
  intros Htok. unfold addLabelToEmailTool.
  enter_tool host logger Mail w w1 tok Htok Hlog Htime.
  cbn [gmail_access_token]. rewrite bind_run, call_run, Hlog.
  destruct (respond host (apiLog w) tok _) as [err|modified];
    cbv beta iota zeta;
    [|rewrite bind_run, log_run; cbv beta iota; cbn [ret]];
    unfold new_calls, final; cbn [snd]; rewrite logged_apiLog;
    cbn [apiLog record_call]; rewrite Hlog, skipn_app_exact; reflexivity.
Qed.

Lemma createDraftReplyTool_call (context : CreateDraftReplyInput)
  (w w1 : World) (tok : value) :
  getGmailAccessToken host w = (inr tok, w1) ->
  map inv_call
    (new_calls w (final (createDraftReplyTool host logger context w)))
  = [Gmail_drafts_create "me" (encodeMessage (rawMessage context))
       (cd_threadId context)].
Proof.
  intros Htok. unfold createDraftReplyTool.
  enter_tool host logger Mail w w1 tok Htok Hlog Htime.
  cbv zeta. cbn [gmail_access_token]. rewrite bind_run, call_run, Hlog.
  destruct (respond host (apiLog w) tok _) as [err|draft];
    cbv beta iota zeta;
    [|rewrite bind_run, log_run; cbv beta iota; cbn [ret]];
    unfold new_calls, final; cbn [snd]; rewrite logged_apiLog;
    cbn [apiLog record_call]; rewrite Hlog, skipn_app_exact; reflexivity.
Qed.

Lemma createOrGetLabelTool_calls (labelName : string) (w w1 : World)
  (tok : value) :
  getGmailAccessToken host w = (inr tok, w1) ->
  map inv_call
    (new_calls w (final (createOrGetLabelTool host logger labelName w)))
  = [Gmail_labels_list "me"]
  \/ map inv_call
       (new_calls w (final (createOrGetLabelTool host logger labelName w)))
     = [Gmail_labels_list "me";
        Gmail_labels_create "me" labelName "labelShow" "show"].
Proof.
  intros Htok. unfold createOrGetLabelTool.
  enter_tool host logger Mail w w1 tok Htok Hlog Htime.
  cbn [gmail_access_token]. rewrite bind_run, call_run, Hlog.
  destruct (respond host (apiLog w) tok _) as [err|labelsResponse];
    cbv beta iota zeta.
  - left. unfold new_calls, final. cbn [snd]. rewrite logged_apiLog.
    cbn [apiLog record_call]. now rewrite Hlog, skipn_app_exact.
  - destruct (findLabel (r_labels labelsResponse) labelName).
    + left. rewrite bind_run, log_run. cbv beta iota. cbn [ret].
      unfold new_calls, final. cbn [snd]. rewrite logged_apiLog.
      cbn [apiLog record_call]. now rewrite Hlog, skipn_app_exact.
    + right. rewrite bind_run, call_run. cbn [apiLog record_call].
      rewrite Hlog.
      destruct (respond host _ tok _) as [err|created]; cbv beta iota zeta;
        [|rewrite bind_run, log_run; cbv beta iota; cbn [ret]];
        unfold new_calls, final; cbn [snd]; rewrite logged_apiLog;
        cbn [apiLog record_call];
        rewrite Hlog, <- app_assoc, skipn_app_exact; reflexivity.
Qed.

(** X23: no tool retries a client call. With the token obtained, adding
    a label, getting a message, creating a draft, creating an event and
    listing events each make exactly one client call, whether it fails
    or not; create-or-get label makes the listing, and one create call
    or none. *)
Theorem tools_do_not_retry (w w1 : World) (tok : value) :
  (getGmailAccessToken host w = (inr tok, w1) ->
   (forall emailId labelId,
       map inv_call
         (new_calls w
            (final (addLabelToEmailTool host logger emailId labelId w)))
       = [Gmail_messages_modify "me" emailId [labelId]])
   /\ (forall emailId,
          map inv_call
            (new_calls w (final (getEmailContentTool host logger emailId w)))
          = [Gmail_messages_get "me" (Some emailId) "full" None])
   /\ (forall context,
          List.length
            (new_calls w (final (createDraftReplyTool host logger context w)))
          = 1%nat)
   /\ (forall labelName,
          map inv_call
            (new_calls w
               (final (createOrGetLabelTool host logger labelName w)))
          = [Gmail_labels_list "me"]
          \/ map inv_call
               (new_calls w
                  (final (createOrGetLabelTool host logger labelName w)))
             = [Gmail_labels_list "me";
                Gmail_labels_create "me" labelName "labelShow" "show"]))
  /\ (getCalendarAccessToken host w = (inr tok, w1) ->
      (forall context,
          List.length
            (new_calls w
               (final (createCalendarEventTool host logger context w)))
          = 1%nat)
      /\ (forall context,
             List.length
               (new_calls w
                  (final (listUpcomingEventsTool host logger context w)))
             = 1%nat)).
Proof.
  split; intros Htok.
  - split; [intros; now apply (addLabelToEmailTool_call _ _ w w1 tok)|].
    split; [intros; now apply (getEmailContentTool_call _ w w1 tok)|].
    split; [|intros; now apply (createOrGetLabelTool_calls _ w w1 tok)].
    intros context. eapply one_call_by_trace.
    now apply (createDraftReplyTool_call context w w1 tok).
  - split; intros context; eapply one_call_by_trace.
    + now apply (createCalendarEventTool_call host logger context w w1 tok).
    + now apply (listUpcomingEventsTool_call host logger context w w1 tok).
Qed.

End NoRetry.

Lemma tools_do_not_retry_witness :
  map inv_call
    (new_calls Scenario.cold
       (final (addLabelToEmailTool
                 (Scenario.serving Scenario.one_unreadable_message) true
                 "m1" "Label_7" Scenario.cold)))
  = [Gmail_messages_modify "me" "m1" ["Label_7"]]
  /\ result (addLabelToEmailTool
               (Scenario.serving Scenario.one_unreadable_message) true
               "m1" "Label_7" Scenario.cold)
     = inl Scenario.backend_error.
Proof.
  destruct (tools_do_not_retry
              (Scenario.serving Scenario.one_unreadable_message) true
              Scenario.cold
              (final (getGmailAccessToken
                        (Scenario.serving Scenario.one_unreadable_message)
                        Scenario.cold))
              (VStr "A")) as [H _].
  destruct (H eq_refl) as (Hadd & _).
  split; [exact (Hadd "m1" "Label_7")|vm_compute; reflexivity].
Defined.
